(** * token-total: the BPE merge engine and the tokenizer built on it

    A shallow embedding of [src/core/bpe.js] and [src/core/encoding.js],
    with the parts of the JavaScript platform these files call
    (typed-array and string slicing, [btoa]/[atob], [TextEncoder],
    [TextDecoder], plain-object property lookup) written out as functions,
    followed by the properties of the specification stated over it. *)

From Stdlib Require Import ZArith NArith Lia.
From Stdlib.Strings Require Import Byte Ascii String.
From stdpp Require Import base option list gmap.

#[local] Open Scope Z_scope.

(** ** JavaScript values used by the two files *)

(** A JavaScript string is a sequence of UTF-16 code units. *)
Abbreviation jsstring := (list N).

(** A [Uint8Array] is a sequence of bytes. *)
Abbreviation bytes := (list byte).

#[global] Instance byte_eq_dec : EqDecision byte := Byte.byte_eq_dec.

(** A rank as the merge loop holds it: a rank of the table, or [Infinity]. *)
Inductive Rank :=
| Fin (r : N)
| Infinity.

#[global] Instance Rank_eq_dec : EqDecision Rank.
Proof. solve_decision. Defined.

(** An entry [{pos, rank}] of the part list of [_bytePairMerge]. *)
Record Part := { pos : Z; rank : Rank }.

#[global] Instance Part_eq_dec : EqDecision Part.
Proof. solve_decision. Defined.

(** The running minimum [{rank, index}] of [_bytePairMerge]. *)
Record MinRank := { min_rank : Rank; min_index : Z }.

(** Exceptions thrown by the two files and by the platform calls they make.
    The source throws plain [Error] objects told apart by their message; one
    constructor stands for each [throw] site, carrying the values its
    message interpolates. *)
Record LoopDiagnostic := {
  diag_iterations : Z;          (* Iterations: ${iterations} *)
  diag_maxIterations : Z;       (* (max: ${maxIterations}) *)
  diag_pieceLength : Z;         (* Piece length: ${piece.length} *)
  diag_minRank : MinRank;       (* Current minRank: rank=... index=... *)
  diag_partsCount : Z;          (* Parts count: ${parts.length} *)
  diag_firstParts : list Part;  (* First 10 parts: parts.slice(0, 10) *)
}.

Inductive JsError :=
| SingleByteNotInVocabulary (b : option byte) (key : jsstring)
| SequenceNotInVocabulary (slice : bytes) (key : jsstring) (from to : Z) (pieceLength : Z)
| MergeInfiniteLoop (d : LoopDiagnostic)
| DisallowedSpecialToken (token : jsstring)
| TokenNotInVocabulary
| InvalidTokenId (token : N)
| InvalidRegexPattern
| UndefinedPropertyAccess         (* TypeError: reading or writing a property of undefined *)
| InvalidCharacterError           (* DOMException of atob *)
| DecodeTypeError                 (* TypeError of a fatal TextDecoder *)
| ArgumentsRangeError             (* RangeError of a call with too many spread arguments *)
| NotATokenId                     (* not an exception: the value pushed to [tokens] is no number *)
| FuelExhausted.                  (* not an exception: the loop's fuel in this embedding ran out *)

Inductive result (A : Type) :=
| Ok (a : A)
| Throw (e : JsError).
Arguments Ok {A} a.
Arguments Throw {A} e.

#[global] Instance result_ret : MRet result := fun A a => Ok a.
#[global] Instance result_bind : MBind result := fun A B f m =>
  match m with Ok a => f a | Throw e => Throw e end.
#[global] Instance result_fmap : FMap result := fun A B f m =>
  match m with Ok a => Ok (f a) | Throw e => Throw e end.

Definition is_Ok {A} (m : result A) : Prop := exists a, m = Ok a.

(** *** The host engine *)

(** What the two files take from the JavaScript engine that runs them:
    [new RegExp(patStr, 'gu')], which is [None] when the pattern does not
    compile and otherwise the function from a text to the list of its
    matches; and the number of arguments that the engine passes in one
    call. ECMAScript sets no such number, every engine has one, and a call
    with argument spread that exceeds it throws a [RangeError]. *)
Record Engine := {
  RegExp_gu : jsstring -> option (jsstring -> list jsstring);
  max_arguments : N;
}.

(** The arguments of [f(...values)]. *)
Definition spread {A} (engine : Engine) (values : list A) : result (list A) :=
  if (N.of_nat (length values) <=? max_arguments engine)%N then Ok values
  else Throw ArgumentsRangeError.

(** *** Numbers *)

(** The double nearest to an integer, ties to even: integers up to [2^53]
    in absolute value are doubles, and beyond them the doubles are the
    multiples of the unit in the last place of their binade. (Integers from
    [2^1024] on, which round to [Infinity], do not occur.) *)
Definition nearest_double (z : Z) : Z :=
  let k := Z.log2 (Z.abs z) - 52 in
  if k <=? 0 then z
  else
    let ulp := 2 ^ k in
    let q := Z.abs z / ulp in
    let r := Z.abs z mod ulp in
    let q' := if (2 * r <? ulp) || ((2 * r =? ulp) && Z.even q) then q else q + 1 in
    Z.sgn z * (q' * ulp).

(** [x + y] on numbers that are integers. *)
Definition number_add (x y : Z) : Z := nearest_double (x + y).

(** *** Array and string indexing *)

(** Relative index of [slice] and [splice]: a negative index counts from the
    end, and the result is clamped to [0, len]. *)
Definition relative_index (len k : Z) : Z :=
  if k <? 0 then Z.max (len + k) 0 else Z.min k len.

(** [xs.slice(from, to)] on a typed array, an array or a string. *)
Definition slice {A} (xs : list A) (from to : Z) : list A :=
  let len := Z.of_nat (length xs) in
  let k := relative_index len from in
  let final := relative_index len to in
  take (Z.to_nat (final - k)) (drop (Z.to_nat k) xs).

(** [xs[i]]: [None] stands for [undefined]. *)
Definition index {A} (xs : list A) (i : Z) : option A :=
  if i <? 0 then None else xs !! Z.to_nat i.

(** [xs.splice(start, 1)]: removes the element at [start], when there is one. *)
Definition splice1 {A} (xs : list A) (start : Z) : list A :=
  delete (Z.to_nat (relative_index (Z.of_nat (length xs)) start)) xs.

(** *** btoa *)

(** The base64 alphabet, as code units. *)
Definition base64_char (sextet : N) : N :=
  (if sextet <? 26 then 65 + sextet
   else if sextet <? 52 then 97 + (sextet - 26)
   else if sextet <? 62 then 48 + (sextet - 52)
   else if sextet =? 62 then 43 else 47)%N.

Definition base64_pad : N := 61%N.

(** [btoa] on the binary string whose code units are the given bytes
    (RFC 4648 with padding). *)
Fixpoint btoa (data : bytes) : jsstring :=
  match data with
  | [] => []
  | [a] =>
      let n := Byte.to_N a in
      [base64_char (N.shiftr n 2); base64_char (N.shiftl (N.land n 3) 4);
       base64_pad; base64_pad]
  | [a; b] =>
      let n := Byte.to_N a in
      let m := Byte.to_N b in
      [base64_char (N.shiftr n 2);
       base64_char (N.lor (N.shiftl (N.land n 3) 4) (N.shiftr m 4));
       base64_char (N.shiftl (N.land m 15) 2);
       base64_pad]
  | a :: b :: c :: rest =>
      let n := Byte.to_N a in
      let m := Byte.to_N b in
      let k := Byte.to_N c in
      base64_char (N.shiftr n 2)
      :: base64_char (N.lor (N.shiftl (N.land n 3) 4) (N.shiftr m 4))
      :: base64_char (N.lor (N.shiftl (N.land m 15) 2) (N.shiftr k 6))
      :: base64_char (N.land k 63)
      :: btoa rest
  end.


(** *** String literals *)

(** The code units of an ASCII literal. *)
Definition js (s : string) : jsstring :=
  (fun a => N_of_ascii a) <$> list_ascii_of_string s.

(** [text.includes(token)] *)
Fixpoint includes (text token : jsstring) : bool :=
  bool_decide (token `prefix_of` text)
  || match text with
     | [] => false
     | _ :: rest => includes rest token
     end.

(** *** atob (forgiving-base64 decode of the Infra standard) *)

Definition to_uint8 (n : N) : byte :=
  default "000"%byte (Byte.of_N (n mod 256)).

Definition is_ascii_whitespace (c : N) : bool :=
  bool_decide (c ∈ [9; 10; 12; 13; 32]%N).

Definition base64_value (c : N) : option N :=
  (if (65 <=? c) && (c <=? 90) then Some (c - 65)
   else if (97 <=? c) && (c <=? 122) then Some (c - 97 + 26)
   else if (48 <=? c) && (c <=? 57) then Some (c - 48 + 52)
   else if c =? 43 then Some 62
   else if c =? 47 then Some 63
   else None)%N.

(** Step 2: when the length is a multiple of four, one or two trailing
    [=] are removed. *)
Definition strip_padding (data : jsstring) : jsstring :=
  if decide (length data `mod` 4 = 0)%nat then
    match reverse data with
    | c :: d :: rest =>
        if decide (c = base64_pad) then
          if decide (d = base64_pad) then reverse rest else reverse (d :: rest)
        else data
    | _ => data
    end
  else data.

(** Steps 5 to 9: the buffer is emptied every four sextets; twelve or
    eighteen leftover bits give one or two bytes. *)
Fixpoint decode_sextets (sextets : list N) : bytes :=
  match sextets with
  | [a; b] => [to_uint8 (N.shiftr (N.lor (N.shiftl a 6) b) 4)]
  | [a; b; c] =>
      let n := N.shiftr (N.lor (N.shiftl (N.lor (N.shiftl a 6) b) 6) c) 2 in
      [to_uint8 (N.shiftr n 8); to_uint8 n]
  | a :: b :: c :: d :: rest =>
      let n := N.lor (N.shiftl (N.lor (N.shiftl (N.lor (N.shiftl a 6) b) 6) c) 6) d in
      to_uint8 (N.shiftr n 16) :: to_uint8 (N.shiftr n 8) :: to_uint8 n
      :: decode_sextets rest
  | _ => []
  end.

(** [atob(data)], with the binary string it returns given as its bytes. *)
Definition atob (data : jsstring) : result bytes :=
  let data := filter (fun c => is_ascii_whitespace c = false) data in
  let data := strip_padding data in
  if decide (length data `mod` 4 = 1)%nat then Throw InvalidCharacterError
  else
    match mapM base64_value data with
    | None => Throw InvalidCharacterError
    | Some sextets => Ok (decode_sextets sextets)
    end.

(** *** TextEncoder (UTF-8 encoder of the Encoding standard) *)

Definition is_high_surrogate (c : N) : bool := ((0xD800 <=? c) && (c <=? 0xDBFF))%N.
Definition is_low_surrogate (c : N) : bool := ((0xDC00 <=? c) && (c <=? 0xDFFF))%N.

Definition replacement_character : N := 0xFFFD%N.

(** The scalar values of a string: a surrogate pair is one code point, a
    lone surrogate becomes U+FFFD. *)
Fixpoint scalar_values (s : jsstring) : list N :=
  match s with
  | [] => []
  | c :: rest =>
      if is_high_surrogate c then
        match rest with
        | d :: rest' =>
            if is_low_surrogate d
            then (0x10000 + N.shiftl (c - 0xD800) 10 + (d - 0xDC00))%N :: scalar_values rest'
            else replacement_character :: scalar_values rest
        | [] => [replacement_character]
        end
      else if is_low_surrogate c then replacement_character :: scalar_values rest
      else c :: scalar_values rest
  end.

(** [s.isWellFormed()]: every surrogate is part of a pair (and every element
    of the list is a 16-bit code unit). *)
Fixpoint isWellFormed (s : jsstring) : bool :=
  match s with
  | [] => true
  | c :: rest =>
      if is_high_surrogate c then
        match rest with
        | d :: rest' => is_low_surrogate d && isWellFormed rest'
        | [] => false
        end
      else negb (is_low_surrogate c) && (c <=? 0xFFFF)%N && isWellFormed rest
  end.

Definition utf8_continuation (cp : N) (shift : N) : byte :=
  to_uint8 (N.lor 0x80 (N.land (N.shiftr cp shift) 0x3F)).

Definition utf8_encode_code_point (cp : N) : bytes :=
  (if cp <=? 0x7F then [to_uint8 cp]
   else if cp <=? 0x7FF then
     [to_uint8 (N.shiftr cp 6 + 0xC0); utf8_continuation cp 0]
   else if cp <=? 0xFFFF then
     [to_uint8 (N.shiftr cp 12 + 0xE0); utf8_continuation cp 6; utf8_continuation cp 0]
   else
     [to_uint8 (N.shiftr cp 18 + 0xF0); utf8_continuation cp 12;
      utf8_continuation cp 6; utf8_continuation cp 0])%N.

(** [new TextEncoder().encode(s)] *)
Definition TextEncoder_encode (s : jsstring) : bytes :=
  scalar_values s ≫= utf8_encode_code_point.

(** *** TextDecoder (UTF-8 decoder of the Encoding standard) *)

Record Utf8Decoder := {
  code_point : N;
  bytes_seen : N;
  bytes_needed : N;
  lower_boundary : N;
  upper_boundary : N;
}.

Definition utf8_decoder_start : Utf8Decoder :=
  {| code_point := 0; bytes_seen := 0; bytes_needed := 0;
     lower_boundary := 0x80; upper_boundary := 0xBF |}.

Inductive HandlerResult :=
| Continue (d : Utf8Decoder)
| CodePoint (cp : N) (d : Utf8Decoder)
| DecodeError (d : Utf8Decoder)
| DecodeErrorRestore (d : Utf8Decoder).   (* error, and the byte goes back to the queue *)

(** The handler on a byte. *)
Definition utf8_handler (d : Utf8Decoder) (b : N) : HandlerResult :=
  (if bytes_needed d =? 0 then
     if b <=? 0x7F then CodePoint b d
     else if (0xC2 <=? b) && (b <=? 0xDF) then
       Continue {| code_point := N.land b 0x1F; bytes_seen := bytes_seen d; bytes_needed := 1;
                   lower_boundary := lower_boundary d; upper_boundary := upper_boundary d |}
     else if (0xE0 <=? b) && (b <=? 0xEF) then
       Continue {| code_point := N.land b 0xF; bytes_seen := bytes_seen d; bytes_needed := 2;
                   lower_boundary := if b =? 0xE0 then 0xA0 else lower_boundary d;
                   upper_boundary := if b =? 0xED then 0x9F else upper_boundary d |}
     else if (0xF0 <=? b) && (b <=? 0xF4) then
       Continue {| code_point := N.land b 0x7; bytes_seen := bytes_seen d; bytes_needed := 3;
                   lower_boundary := if b =? 0xF0 then 0x90 else lower_boundary d;
                   upper_boundary := if b =? 0xF4 then 0x8F else upper_boundary d |}
     else DecodeError d
   else if negb ((lower_boundary d <=? b) && (b <=? upper_boundary d)) then
     DecodeErrorRestore utf8_decoder_start
   else
     let cp := N.lor (N.shiftl (code_point d) 6) (N.land b 0x3F) in
     let seen := bytes_seen d + 1 in
     if negb (seen =? bytes_needed d) then
       Continue {| code_point := cp; bytes_seen := seen; bytes_needed := bytes_needed d;
                   lower_boundary := 0x80; upper_boundary := 0xBF |}
     else CodePoint cp utf8_decoder_start)%N.

(** Running the decoder over the queue, in replacement or in fatal mode. *)
Fixpoint utf8_decode (fatal : bool) (d : Utf8Decoder) (queue : bytes) : result (list N) :=
  match queue with
  | [] =>
      if (bytes_needed d =? 0)%N then Ok []
      else if fatal then Throw DecodeTypeError else Ok [replacement_character]
  | b :: rest =>
      let process (r : HandlerResult) : result (list N) :=
        match r with
        | Continue d' => utf8_decode fatal d' rest
        | CodePoint cp d' => cons cp <$> utf8_decode fatal d' rest
        | DecodeError d' | DecodeErrorRestore d' =>
            if fatal then Throw DecodeTypeError
            else cons replacement_character <$> utf8_decode fatal d' rest
        end in
      match utf8_handler d (Byte.to_N b) with
      | DecodeErrorRestore d' =>
          if fatal then Throw DecodeTypeError
          else cons replacement_character <$> process (utf8_handler d' (Byte.to_N b))
      | r => process r
      end
  end.

(** The code units of a code point. *)
Definition utf16_encode_code_point (cp : N) : jsstring :=
  (if cp <=? 0xFFFF then [cp]
   else [0xD800 + N.shiftr (cp - 0x10000) 10; 0xDC00 + N.land (cp - 0x10000) 0x3FF])%N.

(** [new TextDecoder('utf-8', {fatal, ignoreBOM: true}).decode(data)]: with
    [ignoreBOM] set, a leading byte order mark is kept. *)
Definition TextDecoder_decode (fatal : bool) (data : bytes) : result jsstring :=
  cps ← utf8_decode fatal utf8_decoder_start data;
  Ok (cps ≫= utf16_encode_code_point).

(** *** Plain objects *)

(** A plain object with string keys and number values, as the list of its
    own properties in enumeration order. *)
Abbreviation jsobject := (list (jsstring * N)).

Fixpoint own_property (obj : jsobject) (key : jsstring) : option N :=
  match obj with
  | [] => None
  | (k, v) :: rest => if decide (k = key) then Some v else own_property rest key
  end.

(** The properties every plain object inherits from [Object.prototype]. *)
Definition object_prototype_keys : list jsstring :=
  js <$> ["constructor"; "__defineGetter__"; "__defineSetter__"; "hasOwnProperty";
          "__lookupGetter__"; "__lookupSetter__"; "isPrototypeOf";
          "propertyIsEnumerable"; "toString"; "valueOf"; "__proto__";
          "toLocaleString"]%string.

(** The value of [obj[key]]. *)
Inductive PropertyValue :=
| NumberValue (n : N)
| InheritedValue (key : jsstring)
| UndefinedValue.

Definition get_property (obj : jsobject) (key : jsstring) : PropertyValue :=
  match own_property obj key with
  | Some n => NumberValue n
  | None =>
      if bool_decide (key ∈ object_prototype_keys) then InheritedValue key
      else UndefinedValue
  end.

(** *** Maps *)

(** A [Map] from strings to numbers, as the list of its entries in
    insertion order; [get] reads the table of these entries. *)
Abbreviation jsmap := (list (jsstring * N)).

Definition map_table (m : jsmap) : gmap jsstring N := list_to_map m.

(** ** src/core/bpe.js *)

Module BytePairEncoder.

(** [a < b] on ranks. *)
Definition rank_lt (a b : Rank) : bool :=
  match a, b with
  | Fin x, Fin y => (x <? y)%N
  | Fin _, Infinity => true
  | Infinity, _ => false
  end.

Definition noMin : MinRank := {| min_rank := Infinity; min_index := -1 |}.

(** [bytesToKey]: the loop builds the binary string with one code unit per
    byte, which [btoa] then encodes. *)
Definition bytesToKey (data : bytes) : jsstring := btoa data.

(** [keyToBytes]: the bytes of the binary string that [atob] returns. *)
Definition keyToBytes (key : jsstring) : result bytes := atob key.

(** [ranks.get(key)] followed by [rank !== undefined ? rank : Infinity]. *)
Definition rankOrInfinity (ranks : gmap jsstring N) (data : bytes) : Rank :=
  match ranks !! bytesToKey data with
  | Some r => Fin r
  | None => Infinity
  end.

(** [parts[i]] where the source reads a property of it. *)
Definition part_at (parts : list Part) (i : Z) : result Part :=
  match index parts i with
  | Some p => Ok p
  | None => Throw UndefinedPropertyAccess
  end.

(** [_getRank(ranks, piece, parts, i)] *)
Definition _getRank (ranks : gmap jsstring N) (piece : bytes)
    (parts : list Part) (i : Z) : result Rank :=
  if bool_decide (Z.of_nat (length parts) <= i + 3) then Ok Infinity
  else
    p ← part_at parts i;
    q ← part_at parts (i + 3);
    Ok (rankOrInfinity ranks (slice piece (pos p) (pos q))).

(** [parts[i].rank = r] *)
Definition set_rank (parts : list Part) (i : Z) (r : Rank) : result (list Part) :=
  p ← part_at parts i;
  Ok (<[Z.to_nat i := {| pos := pos p; rank := r |}]> parts).

(** The scan for the minimum: [for (let j = 0; j < parts.length - 1; j++)],
    keeping the first strictly lower rank. [scan_min ps j m] runs the loop
    body on the entries [ps], the first of which has index [j]. *)
Fixpoint scan_min (ps : list Part) (j : Z) (m : MinRank) : MinRank :=
  match ps with
  | [] => m
  | p :: ps' =>
      scan_min ps' (j + 1)
        (if rank_lt (rank p) (min_rank m)
         then {| min_rank := rank p; min_index := j |} else m)
  end.

Definition find_min (parts : list Part) : MinRank :=
  scan_min (take (length parts - 1) parts) 0 noMin.

(** Phase 1 of [_bytePairMerge]: one entry per adjacent byte pair. *)
Fixpoint init_pairs (ranks : gmap jsstring N) (piece : bytes) (count : nat) (i : Z)
    (parts : list Part) (minRank : MinRank) : list Part * MinRank :=
  match count with
  | O => (parts, minRank)
  | S count' =>
      let rankValue := rankOrInfinity ranks (slice piece i (i + 2)) in
      let minRank :=
        if rank_lt rankValue (min_rank minRank)
        then {| min_rank := rankValue; min_index := i |} else minRank in
      init_pairs ranks piece count' (i + 1)
        (parts ++ [{| pos := i; rank := rankValue |}]) minRank
  end.

Definition initial_state (ranks : gmap jsstring N) (piece : bytes) : list Part * MinRank :=
  let len := Z.of_nat (length piece) in
  let '(parts, minRank) := init_pairs ranks piece (length piece - 1) 0 [] noMin in
  (parts ++ [{| pos := len - 1; rank := Infinity |}; {| pos := len; rank := Infinity |}],
   minRank).

(** The body of the merge loop after the safety check, for the minimum at
    index [i]. *)
Definition merge_at (ranks : gmap jsstring N) (piece : bytes)
    (parts : list Part) (i : Z) : result (list Part * MinRank) :=
  parts ← (if bool_decide (0 < i)
           then r ← _getRank ranks piece parts (i - 1); set_rank parts (i - 1) r
           else Ok parts);
  r ← _getRank ranks piece parts i;
  parts ← set_rank parts i r;
  let parts := splice1 parts (i + 1) in
  Ok (parts, find_min parts).

Definition diagnostic (piece : bytes) (parts : list Part) (minRank : MinRank)
    (iterations : Z) : LoopDiagnostic :=
  {| diag_iterations := iterations;
     diag_maxIterations := Z.of_nat (length piece) * 2;
     diag_pieceLength := Z.of_nat (length piece);
     diag_minRank := minRank;
     diag_partsCount := Z.of_nat (length parts);
     diag_firstParts := slice parts 0 10 |}.

(** Phase 2: [while (minRank.rank !== Infinity)]. The result carries the
    final value of [iterations] next to the part list. *)
Fixpoint merge_loop (fuel : nat) (ranks : gmap jsstring N) (piece : bytes)
    (parts : list Part) (minRank : MinRank) (iterations : Z)
    : result (list Part * Z) :=
  match fuel with
  | O => Throw FuelExhausted
  | S fuel' =>
      if decide (min_rank minRank = Infinity) then Ok (parts, iterations)
      else
        let iterations := iterations + 1 in
        if bool_decide (Z.of_nat (length piece) * 2 < iterations)
        then Throw (MergeInfiniteLoop (diagnostic piece parts minRank iterations))
        else
          '(parts, minRank) ← merge_at ranks piece parts (min_index minRank);
          merge_loop fuel' ranks piece parts minRank iterations
  end.

(** [_bytePairMerge(ranks, piece)], with the number of iterations it ran. *)
Definition merge_run (ranks : gmap jsstring N) (piece : bytes) : result (list Part * Z) :=
  let '(parts, minRank) := initial_state ranks piece in
  merge_loop (S (2 * length piece)) ranks piece parts minRank 0.

Definition _bytePairMerge (ranks : gmap jsstring N) (piece : bytes) : result (list Part) :=
  fst <$> merge_run ranks piece.

(** The loop of [encode] over adjacent boundaries:
    [for (let i = 0; i < parts.length - 1; i++)]. *)
Fixpoint lookup_segments (ranks : gmap jsstring N) (piece : bytes)
    (parts : list Part) : result (list N) :=
  match parts with
  | p :: (q :: _) as rest =>
      let byteSlice := slice piece (pos p) (pos q) in
      let key := bytesToKey byteSlice in
      match ranks !! key with
      | None =>
          Throw (SequenceNotInVocabulary byteSlice key (pos p) (pos q)
                   (Z.of_nat (length piece)))
      | Some token => tokens ← lookup_segments ranks piece rest; Ok (token :: tokens)
      end
  | _ => Ok []
  end.

(** [encode(ranks, piece)] *)
Definition encode (ranks : gmap jsstring N) (piece : bytes) : result (list N) :=
  if decide (length piece = 1%nat) then
    let key := bytesToKey piece in
    match ranks !! key with
    | None => Throw (SingleByteNotInVocabulary (head piece) key)
    | Some token => Ok [token]
    end
  else
    parts ← _bytePairMerge ranks piece;
    lookup_segments ranks piece parts.

End BytePairEncoder.

(** ** The merge loop as the specification words it (section 4.1)

    A second definition of the merge loop, following the numbered steps of
    the specification rather than the source, against which
    [BytePairEncoder._bytePairMerge] is compared. *)

Module MergeSpec.
Import BytePairEncoder.

Section Spec.
Context (ranks : gmap jsstring N) (piece : bytes).

(** The byte slice [[a, b)] of the piece. *)
Definition bytes_between (a b : Z) : bytes :=
  take (Z.to_nat (b - a)) (drop (Z.to_nat a) piece).

(** Step 1: one entry per byte index of [0..len-1], ranked by the 2-byte
    slice that starts there, then the two sentinels at [len-1] and [len].
    The range is half-open: its indices are those at which a 2-byte slice
    starts, and the first sentinel is the entry of index [len-1]. *)
Definition pair_entry (i : nat) : Part :=
  {| pos := Z.of_nat i;
     rank := rankOrInfinity ranks (bytes_between (Z.of_nat i) (Z.of_nat i + 2)) |}.

Definition init : list Part :=
  (pair_entry <$> seq 0 (length piece - 1))
  ++ [{| pos := Z.of_nat (length piece) - 1; rank := Infinity |};
      {| pos := Z.of_nat (length piece); rank := Infinity |}].

(** Step 2: entry [i] holds the global minimum [r] of the finite ranks, and
    is the earliest entry that does. *)
Definition is_minimum (parts : list Part) (i : nat) (r : N) : Prop :=
  (exists p, parts !! i = Some p /\ rank p = Fin r) /\
  forall j q r', parts !! j = Some q -> rank q = Fin r' ->
    (r < r')%N \/ (r = r' /\ (i <= j)%nat).

Definition no_finite_rank (parts : list Part) : Prop :=
  forall p, p ∈ parts -> rank p = Infinity.

(** Steps 3b and 3c: the rank of the slice from boundary [j] to the boundary
    three positions ahead in the current list. *)
Definition span_rank (parts : list Part) (j : nat) : Rank :=
  match parts !! j, parts !! (j + 3)%nat with
  | Some p, Some q => rankOrInfinity ranks (bytes_between (pos p) (pos q))
  | _, _ => Infinity
  end.

Definition recompute (parts : list Part) (j : nat) : list Part :=
  match parts !! j with
  | Some p => <[j := {| pos := pos p; rank := span_rank parts j |}]> parts
  | None => parts
  end.

(** Steps 3b to 3d for the minimum at [i]. *)
Definition merge (parts : list Part) (i : nat) : list Part :=
  let parts :=
    match i with
    | O => parts
    | S before => recompute parts before
    end in
  let parts := recompute parts i in
  delete (S i) parts.

(** Steps 3 and 4: merge at the minimum until no finite rank remains. *)
Inductive run : list Part -> list Part -> Prop :=
| run_done parts :
    no_finite_rank parts -> run parts parts
| run_merge parts i r final :
    is_minimum parts i r -> run (merge parts i) final -> run parts final.

End Spec.
End MergeSpec.


(** ** src/core/encoding.js *)

(** The [Map] that the loader hands to the constructor for a rank table
    given as distinct byte sequences with their ranks: it is filled with
    [ranks.set(BytePairEncoder.bytesToKey(bytes), rank)]. *)
Definition keyed (table : list (bytes * N)) : jsmap :=
  (fun entry => (BytePairEncoder.bytesToKey entry.1, entry.2)) <$> table.

Module Encoding.

(** The value of the options [allowedSpecial] and [disallowedSpecial]: left
    out, the string ['all'], or a [Set] of strings (its elements in
    insertion order). *)
Inductive SpecialOption :=
| NotGiven
| AllSpecial
| SetOf (elements : list jsstring).

(** The fields of an [Encoding] instance. [_pattern] is the compiled
    pre-tokenization expression, held as the function from a text to the
    list of its matches that [text.match] computes with it ([null] being the
    empty list); [_specialPattern] is the alternation of the escaped
    special-token literals, held as the list of its alternatives. [_engine]
    is no field of the object: it is the engine that the instance lives
    on. *)
Record t := {
  name : jsstring;
  _patStr : jsstring;
  _mergeableRanks : jsmap;
  _specialTokens : jsobject;
  _decoder : gmap N bytes;
  _specialTokensDecoder : gmap N bytes;
  _pattern : jsstring -> list jsstring;
  _specialPattern : option (list jsstring);
  maxTokenValue : Z;
  _engine : Engine;
}.

(** [for (const [key, rank] of mergeableRanks) this._decoder.set(rank, keyToBytes(key))] *)
Fixpoint build_decoder (entries : jsmap) (decoder : gmap N bytes) : result (gmap N bytes) :=
  match entries with
  | [] => Ok decoder
  | (key, rank) :: rest =>
      data ← BytePairEncoder.keyToBytes key;
      build_decoder rest (<[rank := data]> decoder)
  end.

(** [for (const [token, rank] of Object.entries(specialTokens)) ...] *)
Fixpoint build_special_decoder (entries : jsobject) (decoder : gmap N bytes) : gmap N bytes :=
  match entries with
  | [] => decoder
  | (token, rank) :: rest =>
      build_special_decoder rest (<[rank := TextEncoder_encode token]> decoder)
  end.

(** [Math.max] of at least one number, all of them natural numbers: the
    fold starts below them all. (Of no number [Math.max] is [-Infinity];
    the code does not call it so.) *)
Definition Math_max (arguments : list N) : Z :=
  foldr (fun v acc => Z.max (Z.of_N v) acc) (-1) arguments.

(** [values.length > 0 ? Math.max(...values) : -1] *)
Definition max_or_minus_one (engine : Engine) (values : list N) : result Z :=
  if decide (0 < length values)%nat then
    arguments ← spread engine values;
    Ok (Math_max arguments)
  else Ok (-1).

(** [new Encoding(name, patStr, mergeableRanks, specialTokens)], on the
    engine [engine]. *)
Definition constructor (engine : Engine) (name patStr : jsstring) (mergeableRanks : jsmap)
    (specialTokens : jsobject) : result t :=
  decoder ← build_decoder mergeableRanks ∅;
  let specialTokensDecoder := build_special_decoder specialTokens ∅ in
  match RegExp_gu engine patStr with
  | None => Throw InvalidRegexPattern
  | Some pattern =>
      let specialPattern :=
        if decide (0 < length specialTokens)%nat then Some (fst <$> specialTokens)
        else None in
      maxMergeable ← max_or_minus_one engine (snd <$> mergeableRanks);
      maxSpecial ← max_or_minus_one engine (snd <$> specialTokens);
      Ok {| name := name;
            _patStr := patStr;
            _mergeableRanks := mergeableRanks;
            _specialTokens := specialTokens;
            _decoder := decoder;
            _specialTokensDecoder := specialTokensDecoder;
            _pattern := pattern;
            _specialPattern := specialPattern;
            maxTokenValue := Z.max maxMergeable maxSpecial;
            _engine := engine |}
  end.

(** *** Encoding methods *)

(** The body of the loop of [encodeOrdinary] for one match: the tokens
    that it pushes, [tokens.push(directToken)] or
    [tokens.push(...pieceTokens)]. *)
Definition encode_piece (enc : t) (match_ : jsstring) : result (list N) :=
  let piece := TextEncoder_encode match_ in
  let key := BytePairEncoder.bytesToKey piece in
  match map_table (_mergeableRanks enc) !! key with
  | Some directToken => Ok [directToken]
  | None =>
      pieceTokens ← BytePairEncoder.encode (map_table (_mergeableRanks enc)) piece;
      spread (_engine enc) pieceTokens
  end.

Fixpoint encode_pieces (enc : t) (matches : list jsstring) (tokens : list N)
    : result (list N) :=
  match matches with
  | [] => Ok tokens
  | match_ :: rest =>
      pieceTokens ← encode_piece enc match_;
      encode_pieces enc rest (tokens ++ pieceTokens)
  end.

(** [encodeOrdinary(text)] *)
Definition encodeOrdinary (enc : t) (text : jsstring) : result (list N) :=
  match text with
  | [] => Ok []
  | _ => encode_pieces enc (_pattern enc text) []
  end.

(** The arguments of [tokens.push(...this.encodeOrdinary(text))]. *)
Definition ordinary_arguments (enc : t) (text : jsstring) : result (list N) :=
  tokens ← encodeOrdinary enc text;
  spread (_engine enc) tokens.

(** [allowedSpecial.has(t)] on a [Set]. *)
Definition set_has (elements : list jsstring) (t : jsstring) : bool :=
  bool_decide (t ∈ elements).

(** [allowedSpecial !== 'all' && !allowedSpecial.has(t)] *)
Definition not_allowed (allowedSpecial : SpecialOption) (t : jsstring) : bool :=
  match allowedSpecial with
  | AllSpecial => false
  | SetOf allowed => negb (set_has allowed t)
  | NotGiven => true
  end.

(** [allowedSpecial !== 'all' && allowedSpecial.size === 0] *)
Definition is_empty_set (allowedSpecial : SpecialOption) : bool :=
  match allowedSpecial with
  | SetOf [] => true
  | _ => false
  end.

(** The set of special tokens that are actually disallowed, in iteration
    order. *)
Definition disallowed_set (enc : t) (allowedSpecial disallowedSpecial : SpecialOption)
    : list jsstring :=
  match disallowedSpecial with
  | AllSpecial =>
      filter (fun t => not_allowed allowedSpecial t = true) (fst <$> _specialTokens enc)
  | SetOf disallowed => disallowed
  | NotGiven => []
  end.

(** [text.matchAll(this._specialPattern)]: the matches of the alternation
    [alternatives] in [rest], which starts at index [i] of the text, as
    pairs of [match.index] and [match[0]]. At each index the first
    alternative that matches there wins; the search resumes after the match,
    one code unit further when the match is empty. [skip] counts the code
    units of the last match still to be passed. *)
Fixpoint matchAll (alternatives : list jsstring) (rest : jsstring) (i skip : nat)
    : list (nat * jsstring) :=
  match skip with
  | S skip' =>
      match rest with
      | [] => []
      | _ :: rest' => matchAll alternatives rest' (S i) skip'
      end
  | O =>
      match list_find (fun t => t `prefix_of` rest) alternatives with
      | Some (_, t) =>
          (i, t) ::
          match rest with
          | [] => []
          | _ :: rest' => matchAll alternatives rest' (S i) (length t - 1)
          end
      | None =>
          match rest with
          | [] => []
          | _ :: rest' => matchAll alternatives rest' (S i) 0
          end
      end
  end.

(** [allowedSpecial === 'all' || allowedSpecial.has(specialToken)] *)
Definition isAllowed (allowedSpecial : SpecialOption) (specialToken : jsstring) : bool :=
  match allowedSpecial with
  | AllSpecial => true
  | SetOf allowed => set_has allowed specialToken
  | NotGiven => false
  end.

(** The loop of [encode] over the matches of the special pattern, on the
    state [(tokens, lastEnd)]. A match is one of the keys the pattern was
    built from, so that [this._specialTokens[specialToken]] is a number in
    every instance the constructor built. *)
Fixpoint encode_matches (enc : t) (text : jsstring) (allowedSpecial : SpecialOption)
    (matches : list (nat * jsstring)) (tokens : list N) (lastEnd : Z)
    : result (list N * Z) :=
  match matches with
  | [] => Ok (tokens, lastEnd)
  | (index, specialToken) :: rest =>
      if isAllowed allowedSpecial specialToken then
        tokens ← (if bool_decide (lastEnd < Z.of_nat index)
                  then before ← ordinary_arguments enc (slice text lastEnd (Z.of_nat index));
                       Ok (tokens ++ before)
                  else Ok tokens);
        match get_property (_specialTokens enc) specialToken with
        | NumberValue id =>
            encode_matches enc text allowedSpecial rest (tokens ++ [id])
              (Z.of_nat index + Z.of_nat (length specialToken))
        | InheritedValue _ | UndefinedValue => Throw NotATokenId
        end
      else encode_matches enc text allowedSpecial rest tokens lastEnd
  end.

(** [encode(text, {allowedSpecial, disallowedSpecial})] *)
Definition encode (enc : t) (text : jsstring)
    (allowedSpecial disallowedSpecial : SpecialOption) : result (list N) :=
  match text with
  | [] => Ok []
  | _ =>
      let allowedSpecial :=
        match allowedSpecial with NotGiven => SetOf [] | given => given end in
      let disallowedSpecial :=
        match disallowedSpecial with NotGiven => AllSpecial | given => given end in
      let disallowedSet := disallowed_set enc allowedSpecial disallowedSpecial in
      match list_find (fun token => includes text token = true) disallowedSet with
      | Some (_, token) => Throw (DisallowedSpecialToken token)
      | None =>
          if is_empty_set allowedSpecial then encodeOrdinary enc text
          else
            match _specialPattern enc with
            | None => encodeOrdinary enc text
            | Some alternatives =>
                '(tokens, lastEnd) ←
                  encode_matches enc text allowedSpecial
                    (matchAll alternatives text 0 0) [] 0;
                if bool_decide (lastEnd < Z.of_nat (length text))
                then remaining ← ordinary_arguments enc (slice text lastEnd (Z.of_nat (length text)));
                     Ok (tokens ++ remaining)
                else Ok tokens
            end
      end
  end.

(** The value [encodeSingleToken] returns: a token id, or the property that
    the lookup in the special-token object found on [Object.prototype]. *)
Inductive SingleToken :=
| TokenId (id : N)
| PrototypeProperty (key : jsstring).

(** [encodeSingleToken(textOrBytes)] *)
Definition encodeSingleToken (enc : t) (textOrBytes : jsstring + bytes) : result SingleToken :=
  let lookup (data : bytes) : result SingleToken :=
    match map_table (_mergeableRanks enc) !! BytePairEncoder.bytesToKey data with
    | None => Throw TokenNotInVocabulary
    | Some token => Ok (TokenId token)
    end in
  match textOrBytes with
  | inl text =>
      match get_property (_specialTokens enc) text with
      | NumberValue specialToken => Ok (TokenId specialToken)
      | InheritedValue key => Ok (PrototypeProperty key)
      | UndefinedValue => lookup (TextEncoder_encode text)
      end
  | inr data => lookup data
  end.

(** *** Decoding methods *)

(** [this._decoder.get(token) || this._specialTokensDecoder.get(token)] *)
Definition token_bytes (enc : t) (token : N) : result bytes :=
  match _decoder enc !! token with
  | Some data => Ok data
  | None =>
      match _specialTokensDecoder enc !! token with
      | Some data => Ok data
      | None => Throw (InvalidTokenId token)
      end
  end.

(** [decodeBytes(tokens)] *)
Fixpoint decodeBytes (enc : t) (tokens : list N) : result bytes :=
  match tokens with
  | [] => Ok []
  | token :: rest =>
      data ← token_bytes enc token;
      others ← decodeBytes enc rest;
      Ok (data ++ others)
  end.

(** [decode(tokens, errors)]; the default of [errors] is ['replace']. *)
Definition decode (enc : t) (tokens : list N) (errors : jsstring) : result jsstring :=
  data ← decodeBytes enc tokens;
  let fatal := bool_decide (errors = js "strict") in
  match TextDecoder_decode fatal data with
  | Ok text => Ok text
  | Throw e =>
      if bool_decide (errors = js "ignore") then TextDecoder_decode fatal data
      else Throw e
  end.

(** *** Per-token decoding and utility methods *)

(** [decodeSingleTokenBytes(token)] *)
Definition decodeSingleTokenBytes (enc : t) (token : N) : result bytes :=
  match _decoder enc !! token with
  | Some data => Ok data
  | None =>
      match _specialTokensDecoder enc !! token with
      | Some data => Ok data
      | None => Throw (InvalidTokenId token)
      end
  end.

(** [decodeTokensBytes(tokens)]: [tokens.map] calls [decodeSingleTokenBytes]
    on the tokens from left to right, and the first throw ends it. *)
Fixpoint decodeTokensBytes (enc : t) (tokens : list N) : result (list bytes) :=
  match tokens with
  | [] => Ok []
  | token :: rest =>
      data ← decodeSingleTokenBytes enc token;
      others ← decodeTokensBytes enc rest;
      Ok (data :: others)
  end.

(** [get eotToken()] *)
Definition eotToken (enc : t) : PropertyValue :=
  get_property (_specialTokens enc) (js "<|endoftext|>").

(** [get specialTokensSet()]: the elements in the order of [Object.keys]. *)
Definition specialTokensSet (enc : t) : list jsstring :=
  fst <$> _specialTokens enc.

(** [isSpecialToken(token)] *)
Definition isSpecialToken (enc : t) (token : N) : bool :=
  bool_decide (is_Some (_specialTokensDecoder enc !! token)).

(** [get nVocab()] *)
Definition nVocab (enc : t) : Z := number_add (maxTokenValue enc) 1.

End Encoding.


(** ** Example data *)

Module Examples.
Import BytePairEncoder.

(** A small well-formed rank table: the 256 single bytes, ranked by their
    value, and the merges [ab], [bc] and [abc]. *)
Definition example_table : list (bytes * N) :=
  omap (fun n => b ← Byte.of_nat n; Some ([b], N.of_nat n)) (seq 0 256)
  ++ [(["a"%byte; "b"%byte], 256%N);
      (["b"%byte; "c"%byte], 257%N);
      (["a"%byte; "b"%byte; "c"%byte], 258%N)].

Definition example_ranks : jsmap := keyed example_table.

Definition example_specials : jsobject :=
  [(js "<|endoftext|>", 300%N); (js "<|fim_prefix|>", 301%N)].

(** An engine that accepts every pattern string and makes of every
    non-empty text one single piece, as [[\s\S]+] does, and that passes
    65535 arguments in one call. *)
Definition whole_text_engine : Engine :=
  {| RegExp_gu := fun patStr => Some (fun text => match text with [] => [] | _ => [text] end);
     max_arguments := 65535 |}.

(** An engine that compiles every pattern string to the expression [a],
    whose matches in a text are its letters [a]. *)
Definition letter_a_engine : Engine :=
  {| RegExp_gu := fun patStr =>
       Some (fun text => (fun c => [c]) <$> filter (fun c => c = 97%N) text);
     max_arguments := 65535 |}.

(** An engine that compiles every pattern string to the expression
    [[\s\S]*], whose matches in a text are the whole text and then the empty
    string at its end. *)
Definition any_text_engine : Engine :=
  {| RegExp_gu := fun patStr => Some (fun text => match text with [] => [[]] | _ => [text; []] end);
     max_arguments := 65535 |}.

Definition example_encoding : result Encoding.t :=
  Encoding.constructor whole_text_engine (js "example") (js "[\s\S]+")
    example_ranks example_specials.

(** Two special tokens that overlap in the text [abc]. *)
Definition overlapping_specials : jsobject :=
  [(js "ab", 300%N); (js "bc", 301%N)].

(** A rank table in which the byte sequences [a] and [b] share rank 0. *)
Definition duplicate_ranks : jsmap :=
  [(bytesToKey ["a"%byte], 0%N); (bytesToKey ["b"%byte], 0%N)].

End Examples.


(** * Invariants and readings of the specification *)

(** ** The part list of the merge loop *)

Module PartList.
Import BytePairEncoder MergeSpec.

Section PartList.
Context (ranks : gmap jsstring N) (piece : bytes).

(** The last two entries of the part list are unranked. *)
Definition ends_infinite (parts : list Part) : Prop :=
  forall j p, parts !! j = Some p -> (length parts <= j + 2)%nat -> rank p = Infinity.

(** Every boundary is an offset of the piece. *)
Definition in_range (parts : list Part) : Prop :=
  Forall (fun p => 0 <= pos p <= Z.of_nat (length piece)) parts.

(** The boundary held by entry [j]. *)
Definition pos_at (parts : list Part) (j : nat) : option Z := pos <$> parts !! j.

(** The rank of the slice between boundary [j] and the boundary [k] positions
    ahead; [span_rank] is the case [k = 3]. *)
Definition span (parts : list Part) (j k : nat) : Rank :=
  match pos_at parts j, pos_at parts (j + k) with
  | Some a, Some b => rankOrInfinity ranks (bytes_between piece a b)
  | _, _ => Infinity
  end.

(** Every entry is ranked by the slice that spans the two segments after its
    boundary. *)
Definition ranks_ok (parts : list Part) : Prop :=
  forall j p, parts !! j = Some p -> rank p = span parts j 2.

(** Every segment between adjacent boundaries is a key of the table. *)
Definition segments_known (parts : list Part) : Prop :=
  forall j a b, pos_at parts j = Some a -> pos_at parts (S j) = Some b ->
    is_Some (ranks !! bytesToKey (bytes_between piece a b)).

(** The boundaries increase strictly, from [0] to the length of the piece. *)
Definition boundaries_ok (parts : list Part) : Prop :=
  pos_at parts 0 = Some 0 /\
  pos_at parts (length parts - 1) = Some (Z.of_nat (length piece)) /\
  forall j a b, pos_at parts j = Some a -> pos_at parts (S j) = Some b -> a < b.

(** Every byte 0-255 is a length-1 key of the table. *)
Definition all_single_bytes : Prop :=
  forall b : byte, is_Some (ranks !! bytesToKey [b]).

(** The invariant of the merge loop. *)
Record part_list_ok (parts : list Part) : Prop := {
  ok_length : (2 <= length parts)%nat;
  ok_range : in_range parts;
  ok_ranks : ranks_ok parts;
  ok_segments : segments_known parts;
  ok_boundaries : boundaries_ok parts;
}.

(** The byte slices between adjacent boundaries. *)
Fixpoint segments (parts : list Part) : list bytes :=
  match parts with
  | p :: (q :: _) as rest => bytes_between piece (pos p) (pos q) :: segments rest
  | _ => []
  end.

End PartList.
End PartList.

(** ** Base64 *)

Module Base64.

(** The sextets that [btoa] writes, without the padding. *)
Fixpoint sextets (data : bytes) : list N :=
  match data with
  | [] => []
  | [a] =>
      let n := Byte.to_N a in
      [N.shiftr n 2; N.shiftl (N.land n 3) 4]
  | [a; b] =>
      let n := Byte.to_N a in
      let m := Byte.to_N b in
      [N.shiftr n 2; N.lor (N.shiftl (N.land n 3) 4) (N.shiftr m 4);
       N.shiftl (N.land m 15) 2]
  | a :: b :: c :: rest =>
      let n := Byte.to_N a in
      let m := Byte.to_N b in
      let k := Byte.to_N c in
      N.shiftr n 2
      :: N.lor (N.shiftl (N.land n 3) 4) (N.shiftr m 4)
      :: N.lor (N.shiftl (N.land m 15) 2) (N.shiftr k 6)
      :: N.land k 63
      :: sextets rest
  end.

(** The padding that [btoa] appends. *)
Definition padding (data : bytes) : jsstring :=
  match (length data mod 3)%nat with
  | 1%nat => [base64_pad; base64_pad]
  | 2%nat => [base64_pad]
  | _ => []
  end.

End Base64.

(** ** Readings of the claims *)

Module Readings.
Import BytePairEncoder.

(** A match of the special-token scan, moved [k] code units to the right. *)
Definition shift_match (k : nat) (m : nat * jsstring) : nat * jsstring :=
  ((k + m.1)%nat, m.2).

(** A Unicode scalar value: a code point that is not a surrogate. *)
Definition is_scalar (cp : N) : Prop :=
  (cp < 0xD800 \/ (0xDFFF < cp /\ cp <= 0x10FFFF))%N.

(** The decode table as the constructor's loop leaves it. *)
Definition decoder_of (table : list (bytes * N)) (decoder : gmap N bytes) : gmap N bytes :=
  foldl (fun d entry => <[entry.2 := entry.1]> d) decoder table.

(** [token] occurs as a plain substring of [text]. *)
Definition occurs_in (token text : jsstring) : Prop :=
  exists before after, text = before ++ token ++ after.

(** The reading of claim C10: the part list starts with [pieceLength + 1]
    entries, every iteration removes one entry of it, and the loop returns
    after at most [pieceLength - 1] iterations, a number strictly below the
    cap [2 * pieceLength]. *)
Definition iterations_below_cap (ranks : gmap jsstring N) (piece : bytes) : Prop :=
  let len := Z.of_nat (length piece) in
  let start := fst (initial_state ranks piece) in
  Z.of_nat (length start) = len + 1 /\
  exists final n,
    merge_run ranks piece = Ok (final, n) /\
    n = Z.of_nat (length start) - Z.of_nat (length final) /\
    n <= len - 1 /\ n < len * 2.

(** The reading of claim C5 on duplicate ranks: when two distinct keys of
    the rank table map to the same rank, construction throws. *)
Definition rejects_duplicate_ranks (engine : Engine)
    (name patStr : jsstring) (mergeableRanks : jsmap) (specialTokens : jsobject) : Prop :=
  (exists key key' rank,
     key <> key' /\
     map_table mergeableRanks !! key = Some rank /\
     map_table mergeableRanks !! key' = Some rank) ->
  exists e, Encoding.constructor engine name patStr mergeableRanks specialTokens = Throw e.

(** The reading of claim C2 at one string: [encodeOrdinary] returns, and
    [decode] of what it returns, under the default policy, is the string. *)
Definition round_trips (enc : Encoding.t) (s : jsstring) : Prop :=
  exists tokens,
    Encoding.encodeOrdinary enc s = Ok tokens /\
    Encoding.decode enc tokens (js "replace") = Ok s.

(** The effective disallowed set in the words of the specification:
    [disallowedSpecial] defaults to ['all'], and ['all'] means every
    registered special token that is not in [allowedSpecial], or no token
    when [allowedSpecial] is ['all']. *)
Definition effective_disallowed (specialTokens : jsobject)
    (allowedSpecial disallowedSpecial : Encoding.SpecialOption) : list jsstring :=
  match disallowedSpecial with
  | Encoding.SetOf strings => strings
  | Encoding.AllSpecial | Encoding.NotGiven =>
      match allowedSpecial with
      | Encoding.AllSpecial => []
      | Encoding.SetOf allowed => filter (fun t => t ∉ allowed) specialTokens.*1
      | Encoding.NotGiven => specialTokens.*1
      end
  end.

(** [token] is in [allowedSpecial]. *)
Definition allows (allowedSpecial : Encoding.SpecialOption) (token : jsstring) : Prop :=
  match allowedSpecial with
  | Encoding.AllSpecial => True
  | Encoding.SetOf allowed => token ∈ allowed
  | Encoding.NotGiven => False
  end.

(** The engine of the instance passes, in one call, at least as many
    arguments as [text] has UTF-8 bytes. *)
Definition within_arguments (enc : Encoding.t) (text : jsstring) : Prop :=
  (N.of_nat (length (TextEncoder_encode text)) <= max_arguments (Encoding._engine enc))%N.

(** No token is in [allowedSpecial]: the option is left out or it is an
    empty set. *)
Definition allows_nothing (allowedSpecial : Encoding.SpecialOption) : bool :=
  match allowedSpecial with
  | Encoding.NotGiven | Encoding.SetOf [] => true
  | _ => false
  end.

(** [allowedSpecial] with [token] included, as [Set.prototype.add] leaves
    the set. *)
Definition allow (token : jsstring) (allowedSpecial : Encoding.SpecialOption)
    : Encoding.SpecialOption :=
  match allowedSpecial with
  | Encoding.AllSpecial => Encoding.AllSpecial
  | Encoding.SetOf allowed =>
      if bool_decide (token ∈ allowed) then Encoding.SetOf allowed
      else Encoding.SetOf (allowed ++ [token])
  | Encoding.NotGiven => Encoding.SetOf [token]
  end.

(** What claim C3 says of one call of [encode], at the least: whenever a
    string of the effective disallowed set occurs in the text the call
    throws the disallowed-token error, and with that string, when it is a
    registered special token, included in [allowedSpecial], the same call
    succeeds and the token's id is among the tokens it returns. *)
Definition special_token_policy (enc : Encoding.t) (text : jsstring)
    (allowedSpecial disallowedSpecial : Encoding.SpecialOption) : Prop :=
  forall token,
    token ∈ effective_disallowed (Encoding._specialTokens enc) allowedSpecial disallowedSpecial ->
    occurs_in token text ->
    (exists offending,
       Encoding.encode enc text allowedSpecial disallowedSpecial
         = Throw (DisallowedSpecialToken offending)) /\
    (forall id,
       own_property (Encoding._specialTokens enc) token = Some id ->
       exists tokens,
         Encoding.encode enc text (allow token allowedSpecial) disallowedSpecial = Ok tokens /\
         id ∈ tokens).

(** The first match of the special-token pattern in the text that is an
    allowed token, with its index. *)
Definition first_allowed_match (specialTokens : jsobject)
    (allowedSpecial : Encoding.SpecialOption) (text : jsstring) : option (nat * jsstring) :=
  snd <$> list_find (fun m => Encoding.isAllowed allowedSpecial m.2 = true)
            (Encoding.matchAll specialTokens.*1 text 0 0).

(** The occurrence of [token] between [before] and [after] is the first
    occurrence of a registered special token in the text: no key occurs at
    an earlier index, and no key that comes before [token] in the
    enumeration order of the keys occurs at the same index. *)
Definition first_occurrence (keys : list jsstring) (before token after : jsstring) : Prop :=
  (forall p t, (p < length before)%nat -> t ∈ keys ->
     ~ t `prefix_of` drop p (before ++ token ++ after)) /\
  (exists k, keys !! k = Some token /\
     forall j t, keys !! j = Some t -> (j < k)%nat -> ~ t `prefix_of` (token ++ after)).

End Readings.


(** ** Notions used by the further properties *)

Module Notions.
Import BytePairEncoder.

(** A token id that one of the two decode tables of the instance holds. *)
Definition known_token (enc : Encoding.t) (token : N) : Prop :=
  is_Some (Encoding._decoder enc !! token) \/
  is_Some (Encoding._specialTokensDecoder enc !! token).

#[global] Instance known_token_dec enc token : Decision (known_token enc token).
Proof. unfold known_token. apply _. Defined.

(** The bytes that [encodeSingleToken] looks up in the rank table for its
    argument. *)
Definition input_bytes (textOrBytes : jsstring + bytes) : bytes :=
  match textOrBytes with
  | inl text => TextEncoder_encode text
  | inr data => data
  end.

(** A vocabulary gap: one of the two errors of [BytePairEncoder.encode],
    reporting a key that the rank table does not hold. *)
Definition vocabulary_gap (ranks : gmap jsstring N) (e : JsError) : Prop :=
  match e with
  | SingleByteNotInVocabulary _ key => ranks !! key = None
  | SequenceNotInVocabulary data key _ _ _ => key = bytesToKey data /\ ranks !! key = None
  | _ => False
  end.

(** The states that the UTF-8 decoder reaches from its start state, each
    with the bytes it has read since the last code point or error: none, or
    the lead byte of a sequence of two, three or four bytes followed by
    fewer continuation bytes than the sequence needs. *)
Inductive pending : Utf8Decoder -> bytes -> Prop :=
| pending_none : pending utf8_decoder_start []
| pending_two b q :
    Byte.to_N b = (0xC0 + q)%N -> (2 <= q <= 31)%N ->
    pending {| code_point := q; bytes_seen := 0; bytes_needed := 1;
               lower_boundary := 0x80; upper_boundary := 0xBF |} [b]
| pending_three b q :
    Byte.to_N b = (0xE0 + q)%N -> (q <= 15)%N ->
    pending {| code_point := q; bytes_seen := 0; bytes_needed := 2;
               lower_boundary := if (q =? 0)%N then 0xA0 else 0x80;
               upper_boundary := if (q =? 13)%N then 0x9F else 0xBF |} [b]
| pending_three_one b1 b2 q r :
    Byte.to_N b1 = (0xE0 + q)%N -> Byte.to_N b2 = (0x80 + r)%N ->
    (q <= 15)%N -> (r < 64)%N -> (q = 0%N -> (32 <= r)%N) -> (q = 13%N -> (r < 32)%N) ->
    pending {| code_point := q * 64 + r; bytes_seen := 1; bytes_needed := 2;
               lower_boundary := 0x80; upper_boundary := 0xBF |} [b1; b2]
| pending_four b q :
    Byte.to_N b = (0xF0 + q)%N -> (q <= 4)%N ->
    pending {| code_point := q; bytes_seen := 0; bytes_needed := 3;
               lower_boundary := if (q =? 0)%N then 0x90 else 0x80;
               upper_boundary := if (q =? 4)%N then 0x8F else 0xBF |} [b]
| pending_four_one b1 b2 q r :
    Byte.to_N b1 = (0xF0 + q)%N -> Byte.to_N b2 = (0x80 + r)%N ->
    (q <= 4)%N -> (r < 64)%N -> (q = 0%N -> (16 <= r)%N) -> (q = 4%N -> (r < 16)%N) ->
    pending {| code_point := q * 64 + r; bytes_seen := 1; bytes_needed := 3;
               lower_boundary := 0x80; upper_boundary := 0xBF |} [b1; b2]
| pending_four_two b1 b2 b3 q r s :
    Byte.to_N b1 = (0xF0 + q)%N -> Byte.to_N b2 = (0x80 + r)%N ->
    Byte.to_N b3 = (0x80 + s)%N ->
    (q <= 4)%N -> (r < 64)%N -> (s < 64)%N ->
    (q = 0%N -> (16 <= r)%N) -> (q = 4%N -> (r < 16)%N) ->
    pending {| code_point := (q * 64 + r) * 64 + s; bytes_seen := 2; bytes_needed := 3;
               lower_boundary := 0x80; upper_boundary := 0xBF |} [b1; b2; b3].

(** What the handler does in a reachable state: it reads on, or it emits a
    scalar value whose encoding is the bytes read, or it reports an error. *)
Definition step_ok (prefix : bytes) (b : byte) (r : HandlerResult) : Prop :=
  match r with
  | Continue d' => pending d' (prefix ++ [b])
  | CodePoint cp d' =>
      d' = utf8_decoder_start /\ Readings.is_scalar cp /\ utf8_encode_code_point cp = prefix ++ [b]
  | DecodeError d' | DecodeErrorRestore d' => d' = utf8_decoder_start
  end.

End Notions.

(** * Properties

    ** The merge loop *)

Module MergeFacts.
Import BytePairEncoder MergeSpec PartList.

Lemma slice_prefix {A} (xs : list A) (n : nat) :
  slice xs 0 (Z.of_nat n) = take n xs.
Proof.
  unfold slice, relative_index.
  destruct (Z.ltb_spec 0 0), (Z.ltb_spec (Z.of_nat n) 0); try lia.
  rewrite (Z.min_l 0) by lia. cbn [Z.to_nat drop]. rewrite Z.sub_0_r.
  destruct (decide (n <= length xs)%nat).
  - rewrite Z.min_l, Nat2Z.id by lia. reflexivity.
  - rewrite Z.min_r, Nat2Z.id by lia.
    rewrite (take_ge xs n) by lia. apply take_ge. lia.
Qed.

Lemma rank_lt_infinity a : rank_lt a Infinity = false -> a = Infinity.
Proof. destruct a; [discriminate | reflexivity]. Qed.

Lemma rank_lt_trans a b c : rank_lt a b = true -> rank_lt b c = true -> rank_lt a c = true.
Proof.
  destruct a, b, c; simpl; try congruence.
  rewrite !N.ltb_lt. lia.
Qed.

Lemma rank_lt_le_trans a b c : rank_lt a b = true -> rank_lt c b = false -> rank_lt a c = true.
Proof.
  destruct a, b, c; simpl; try congruence.
  rewrite !N.ltb_lt, N.ltb_ge. lia.
Qed.

Lemma rank_lt_asym a b : rank_lt a b = true -> rank_lt b a = false.
Proof.
  destruct a, b; simpl; try congruence.
  rewrite N.ltb_lt, N.ltb_ge. lia.
Qed.

Lemma rank_lt_irrefl a : rank_lt a a = false.
Proof. destruct a; simpl; [apply N.ltb_irrefl | reflexivity]. Qed.

(** What the left-to-right scan returns: the running minimum it started
    from, or the first entry strictly below it and below every entry before
    it, which no entry undercuts. *)
Lemma scan_min_cases ps j m :
  (scan_min ps j m = m /\
   forall p, p ∈ ps -> rank_lt (rank p) (min_rank m) = false) \/
  (exists k p, ps !! k = Some p /\
     scan_min ps j m = {| min_rank := rank p; min_index := j + Z.of_nat k |} /\
     rank_lt (rank p) (min_rank m) = true /\
     (forall k' q, ps !! k' = Some q -> rank_lt (rank q) (rank p) = false) /\
     (forall k' q, (k' < k)%nat -> ps !! k' = Some q -> rank_lt (rank p) (rank q) = true)).
Proof.
  revert j m. induction ps as [|p ps IH]; intros j m; simpl.
  - left. split; [reflexivity|]. intros p Hp. inversion Hp.
  - destruct (rank_lt (rank p) (min_rank m)) eqn:Hlt.
    + destruct (IH (j + 1) {| min_rank := rank p; min_index := j |})
        as [[Heq Hall] | (k & q & Hk & Heq & Hq & Hle & Hbefore)]; simpl in *.
      * right. exists 0%nat, p. rewrite Heq, Z.add_0_r. repeat split; auto.
        -- intros [|k'] q Hq; simpl in Hq.
           ++ injection Hq as <-. apply rank_lt_irrefl.
           ++ apply Hall. eapply list_elem_of_lookup_2; eauto.
        -- intros k' q Hk'. lia.
      * right. exists (S k), q. rewrite Heq. repeat split; auto.
        -- f_equal. lia.
        -- eapply rank_lt_trans; eauto.
        -- intros [|k'] q' Hq'; simpl in Hq'.
           ++ injection Hq' as <-. apply rank_lt_asym; auto.
           ++ eapply Hle; eauto.
        -- intros [|k'] q' Hlt' Hq'; simpl in Hq'.
           ++ injection Hq' as <-. auto.
           ++ eapply Hbefore; [|eauto]. lia.
    + destruct (IH (j + 1) m)
        as [[Heq Hall] | (k & q & Hk & Heq & Hq & Hle & Hbefore)].
      * left. split; auto. intros p' Hp'. apply elem_of_cons in Hp' as [->|Hp']; auto.
      * right. exists (S k), q. rewrite Heq. repeat split; auto.
        -- f_equal. lia.
        -- intros [|k'] q' Hq'; simpl in Hq'.
           ++ injection Hq' as <-. apply rank_lt_asym. eapply rank_lt_le_trans; eauto.
           ++ eapply Hle; eauto.
        -- intros [|k'] q' Hlt' Hq'; simpl in Hq'.
           ++ injection Hq' as <-. eapply rank_lt_le_trans; eauto.
           ++ eapply Hbefore; [|eauto]. lia.
Qed.

Lemma scan_min_app xs ys j m :
  scan_min (xs ++ ys) j m = scan_min ys (j + Z.of_nat (length xs)) (scan_min xs j m).
Proof.
  revert j m. induction xs as [|x xs IH]; intros j m; simpl.
  - f_equal. lia.
  - rewrite IH. f_equal. lia.
Qed.

Section Loop.
Context (ranks : gmap jsstring N) (piece : bytes).

#[local] Abbreviation in_range := (PartList.in_range piece).

Lemma slice_bytes_between a b :
  0 <= a <= Z.of_nat (length piece) -> 0 <= b <= Z.of_nat (length piece) ->
  slice piece a b = bytes_between piece a b.
Proof.
  intros Ha Hb. unfold slice, bytes_between, relative_index.
  destruct (Z.ltb_spec a 0), (Z.ltb_spec b 0); try lia.
  rewrite !Z.min_l by lia. reflexivity.
Qed.

Lemma find_min_finite parts r :
  ends_infinite parts -> min_rank (find_min parts) = Fin r ->
  exists i, min_index (find_min parts) = Z.of_nat i /\
            (i + 3 <= length parts)%nat /\ is_minimum parts i r.
Proof.
  intros Hend Hr. unfold find_min in *.
  destruct (scan_min_cases (take (length parts - 1) parts) 0 noMin)
    as [[Heq _] | (k & p & Hk & Heq & _ & Hle & Hbefore)].
  { rewrite Heq in Hr. discriminate. }
  rewrite Heq in Hr |- *. simpl in *.
  apply lookup_take_Some in Hk as [Hk Hklt].
  assert (Hlen : (k + 3 <= length parts)%nat).
  { destruct (decide (k + 3 <= length parts)%nat) as [|Hn]; [assumption|].
    rewrite (Hend k p Hk) in Hr by lia. discriminate. }
  exists k. split; [lia|]. split; [assumption|]. split; [eauto|].
  intros j q r' Hj Hq.
  assert (Hjlt : (j < length parts - 1)%nat).
  { destruct (decide (j < length parts - 1)%nat) as [|Hn]; [assumption|].
    rewrite (Hend j q Hj) in Hq by lia. discriminate. }
  assert (Hj' : take (length parts - 1) parts !! j = Some q).
  { apply lookup_take_Some. auto. }
  destruct (decide (j < k)%nat) as [Hjk|Hjk].
  - left. specialize (Hbefore j q Hjk Hj'). rewrite Hr, Hq in Hbefore.
    simpl in Hbefore. apply N.ltb_lt in Hbefore. assumption.
  - specialize (Hle j q Hj'). rewrite Hr, Hq in Hle. simpl in Hle.
    apply N.ltb_ge in Hle. destruct (decide (r = r')); [right|left]; lia.
Qed.

Lemma find_min_infinite parts :
  ends_infinite parts -> min_rank (find_min parts) = Infinity -> no_finite_rank parts.
Proof.
  intros Hend Hr p Hp. apply list_elem_of_lookup in Hp as [j Hj].
  destruct (decide (j < length parts - 1)%nat) as [Hlt|Hge].
  - unfold find_min in Hr.
    assert (Hj' : take (length parts - 1) parts !! j = Some p).
    { apply lookup_take_Some. auto. }
    destruct (scan_min_cases (take (length parts - 1) parts) 0 noMin)
      as [[_ Hall] | (k & q & Hk & Heq & Hq & _)].
    + apply rank_lt_infinity, Hall. eapply list_elem_of_lookup_2; eauto.
    + rewrite Heq in Hr. simpl in Hr. rewrite Hr in Hq. discriminate.
  - apply (Hend j p Hj). lia.
Qed.

Lemma is_minimum_unique parts i r i' r' :
  is_minimum parts i r -> is_minimum parts i' r' -> i = i' /\ r = r'.
Proof.
  intros [(p & Hp & Hr) Hmin] [(p' & Hp' & Hr') Hmin'].
  specialize (Hmin _ _ _ Hp' Hr'). specialize (Hmin' _ _ _ Hp Hr). lia.
Qed.

Lemma is_minimum_finite parts i r :
  is_minimum parts i r -> ~ no_finite_rank parts.
Proof.
  intros [(p & Hp & Hr) _] Hno.
  rewrite (Hno p) in Hr by (eapply list_elem_of_lookup_2; eauto). discriminate.
Qed.

Lemma run_deterministic parts final final' :
  run ranks piece parts final -> run ranks piece parts final' -> final = final'.
Proof.
  intros Hrun. revert final'.
  induction Hrun as [parts Hno | parts i r final Hmin _ IH]; intros final' Hrun'.
  - destruct Hrun' as [|parts i r final' Hmin _]; [reflexivity|].
    exfalso. eapply is_minimum_finite; eauto.
  - destruct Hrun' as [parts Hno | parts i' r' final' Hmin' Hrun'].
    + exfalso. eapply is_minimum_finite; eauto.
    + destruct (is_minimum_unique _ _ _ _ _ Hmin Hmin') as [<- <-]. auto.
Qed.

(** *** Phase 1 builds the initial part list of the specification *)

Lemma init_pairs_spec count i parts m :
  (i + count + 1 <= length piece)%nat \/ count = 0%nat ->
  init_pairs ranks piece count (Z.of_nat i) parts m =
    (parts ++ (pair_entry ranks piece <$> seq i count),
     scan_min (pair_entry ranks piece <$> seq i count) (Z.of_nat i) m).
Proof.
  revert i parts m. induction count as [|count IH]; intros i parts m Hlen.
  - simpl. rewrite app_nil_r. reflexivity.
  - cbn [init_pairs]. rewrite slice_bytes_between by lia.
    change (rankOrInfinity ranks (bytes_between piece (Z.of_nat i) (Z.of_nat i + 2)))
      with (rank (pair_entry ranks piece i)).
    change {| pos := Z.of_nat i; rank := rank (pair_entry ranks piece i) |}
      with (pair_entry ranks piece i).
    change (seq i (S count)) with (i :: seq (S i) count).
    rewrite fmap_cons. cbn [scan_min].
    replace (Z.of_nat i + 1) with (Z.of_nat (S i)) by lia.
    rewrite IH by lia. rewrite <- app_assoc. reflexivity.
Qed.

Lemma length_init : length (init ranks piece) = (length piece - 1 + 2)%nat.
Proof. unfold init. rewrite length_app, length_fmap, length_seq. reflexivity. Qed.

Lemma find_min_init :
  find_min (init ranks piece) =
    scan_min (pair_entry ranks piece <$> seq 0 (length piece - 1)) 0 noMin.
Proof.
  unfold find_min. rewrite length_init. unfold init.
  set (pairs := pair_entry ranks piece <$> seq 0 (length piece - 1)).
  assert (Hlen : length pairs = (length piece - 1)%nat).
  { unfold pairs. rewrite length_fmap, length_seq. reflexivity. }
  replace (length piece - 1 + 2 - 1)%nat with (length pairs + 1)%nat by lia.
  rewrite take_app_add. simpl.
  rewrite scan_min_app. simpl. reflexivity.
Qed.

Lemma initial_state_spec :
  initial_state ranks piece = (init ranks piece, find_min (init ranks piece)).
Proof.
  unfold initial_state.
  pose proof (init_pairs_spec (length piece - 1) 0 [] noMin ltac:(lia)) as Hpairs.
  change (Z.of_nat 0) with 0 in Hpairs. rewrite Hpairs.
  rewrite find_min_init. reflexivity.
Qed.

Lemma ends_infinite_init : ends_infinite (init ranks piece).
Proof.
  intros j p Hj Hlen. rewrite length_init in Hlen. unfold init in Hj.
  assert (Hpairs : length (pair_entry ranks piece <$> seq 0 (length piece - 1))
                   = (length piece - 1)%nat)
    by (rewrite length_fmap, length_seq; reflexivity).
  rewrite lookup_app_r in Hj by lia. rewrite Hpairs in Hj.
  destruct (j - (length piece - 1))%nat as [|[|n]]; simpl in Hj;
    [injection Hj as <-; reflexivity .. | discriminate].
Qed.

Lemma in_range_init : (1 <= length piece)%nat -> in_range (init ranks piece).
Proof.
  intros Hlen. unfold in_range, init. apply Forall_app. split.
  - apply Forall_fmap, Forall_forall. intros i Hi. apply elem_of_seq in Hi. simpl. lia.
  - repeat constructor; simpl; lia.
Qed.

(** *** One iteration of the source is one merge of the specification *)

Lemma bind_Ok {A B} (a : A) (f : A -> result B) : (Ok a ≫= f) = f a.
Proof. reflexivity. Qed.

Lemma bind_Throw {A B} (e : JsError) (f : A -> result B) : (Throw e ≫= f) = Throw e.
Proof. reflexivity. Qed.

Lemma part_at_lookup (parts : list Part) j p :
  parts !! j = Some p -> part_at parts (Z.of_nat j) = Ok p.
Proof.
  intros Hj. unfold part_at, index.
  destruct (Z.ltb_spec (Z.of_nat j) 0); [lia|]. rewrite Nat2Z.id, Hj. reflexivity.
Qed.

Lemma getRank_span parts j :
  in_range parts -> (j < length parts)%nat ->
  _getRank ranks piece parts (Z.of_nat j) = Ok (span_rank ranks piece parts j).
Proof.
  intros Hrange Hj. unfold _getRank, span_rank.
  destruct (lookup_lt_is_Some_2 parts j Hj) as [p Hp]. rewrite Hp.
  case_bool_decide as Hlen.
  - rewrite lookup_ge_None_2 by lia. reflexivity.
  - destruct (lookup_lt_is_Some_2 parts (j + 3)) as [q Hq]; [lia|]. rewrite Hq.
    rewrite (part_at_lookup _ _ _ Hp). simpl.
    replace (Z.of_nat j + 3) with (Z.of_nat (j + 3)) by lia.
    rewrite (part_at_lookup _ _ _ Hq). simpl.
    rewrite slice_bytes_between; [reflexivity| |].
    + exact (proj1 (Forall_lookup _ _) Hrange _ _ Hp).
    + exact (proj1 (Forall_lookup _ _) Hrange _ _ Hq).
Qed.

Lemma recompute_bind {B} parts j z (k : list Part -> result B) :
  z = Z.of_nat j -> in_range parts -> (j < length parts)%nat ->
  (r ← _getRank ranks piece parts z; parts' ← set_rank parts z r; k parts')
    = k (recompute ranks piece parts j).
Proof.
  intros -> Hrange Hj. rewrite getRank_span by assumption. rewrite bind_Ok.
  unfold set_rank, recompute.
  destruct (lookup_lt_is_Some_2 parts j Hj) as [p Hp]. rewrite Hp.
  rewrite (part_at_lookup _ _ _ Hp), !bind_Ok, Nat2Z.id. reflexivity.
Qed.

Lemma set_rank_recompute parts j z :
  z = Z.of_nat j -> in_range parts -> (j < length parts)%nat ->
  (r ← _getRank ranks piece parts z; set_rank parts z r)
    = Ok (recompute ranks piece parts j).
Proof.
  intros Hz Hrange Hj.
  rewrite <- (recompute_bind parts j z Ok Hz Hrange Hj).
  destruct (_getRank ranks piece parts z) as [r|]; [|reflexivity].
  rewrite !bind_Ok. destruct (set_rank parts z r); reflexivity.
Qed.

Lemma length_recompute parts j : length (recompute ranks piece parts j) = length parts.
Proof. unfold recompute. destruct (parts !! j); [apply length_insert | reflexivity]. Qed.

Lemma in_range_recompute parts j : in_range parts -> in_range (recompute ranks piece parts j).
Proof.
  intros Hrange. unfold recompute. destruct (parts !! j) as [p|] eqn:Hp; [|assumption].
  apply Forall_insert; [assumption|]. simpl.
  exact (proj1 (Forall_lookup _ _) Hrange _ _ Hp).
Qed.

Lemma lookup_recompute_ne parts j k :
  j <> k -> recompute ranks piece parts j !! k = parts !! k.
Proof.
  intros Hne. unfold recompute. destruct (parts !! j); [|reflexivity].
  apply list_lookup_insert_ne. assumption.
Qed.

Lemma lookup_recompute_eq parts j p :
  recompute ranks piece parts j !! j = Some p -> rank p = span_rank ranks piece parts j.
Proof.
  unfold recompute. destruct (parts !! j) as [q|] eqn:Hq.
  - rewrite list_lookup_insert_eq by (eapply lookup_lt_Some; eauto).
    intros [= <-]. reflexivity.
  - rewrite Hq. discriminate.
Qed.

Lemma span_rank_end parts j :
  (length parts <= j + 3)%nat -> span_rank ranks piece parts j = Infinity.
Proof.
  intros Hlen. unfold span_rank. rewrite (lookup_ge_None_2 parts (j + 3)) by lia.
  destruct (parts !! j); reflexivity.
Qed.

Lemma length_merge parts i :
  (i + 2 <= length parts)%nat -> length (merge ranks piece parts i) = (length parts - 1)%nat.
Proof.
  intros Hi. unfold merge. rewrite length_delete.
  - destruct i; rewrite ?length_recompute; reflexivity.
  - apply lookup_lt_is_Some_2. destruct i; rewrite ?length_recompute; lia.
Qed.

Lemma length_set_rank parts i r parts' :
  set_rank parts i r = Ok parts' -> length parts' = length parts.
Proof.
  unfold set_rank. destruct (part_at parts i) as [p|]; [|discriminate].
  intros [= <-]. apply length_insert.
Qed.

Lemma length_merge_at parts i parts' minRank :
  merge_at ranks piece parts i = Ok (parts', minRank) ->
  0 <= i -> i + 1 < Z.of_nat (length parts) ->
  length parts = S (length parts').
Proof.
  unfold merge_at. intros Hmerge Hi Hnext.
  destruct (if bool_decide (0 < i) then _ else _) as [parts1|] eqn:Hfirst; [|discriminate].
  assert (Hlen1 : length parts1 = length parts).
  { case_bool_decide; [|congruence].
    destruct (_getRank ranks piece parts (i - 1)) as [r|]; [|discriminate].
    eapply length_set_rank. exact Hfirst. }
  rewrite bind_Ok in Hmerge.
  destruct (_getRank ranks piece parts1 i) as [r|]; [|discriminate].
  rewrite bind_Ok in Hmerge.
  destruct (set_rank parts1 i r) as [parts2|] eqn:Hsecond; [|discriminate].
  apply length_set_rank in Hsecond. rewrite bind_Ok in Hmerge.
  injection Hmerge as <- _. unfold splice1, relative_index.
  destruct (Z.ltb_spec (i + 1) 0); [lia|].
  rewrite length_delete; [lia|].
  apply lookup_lt_is_Some_2. lia.
Qed.

Lemma in_range_merge parts i : in_range parts -> in_range (merge ranks piece parts i).
Proof.
  intros Hrange. unfold merge. apply Forall_delete. apply in_range_recompute.
  destruct i; [assumption|]. apply in_range_recompute. assumption.
Qed.

Lemma merge_at_spec parts i :
  in_range parts -> (i + 2 <= length parts)%nat ->
  merge_at ranks piece parts (Z.of_nat i) =
    Ok (merge ranks piece parts i, find_min (merge ranks piece parts i)).
Proof.
  intros Hrange Hi. unfold merge_at, merge.
  assert (Hsplice : forall ps : list Part, length ps = length parts ->
            splice1 ps (Z.of_nat i + 1) = delete (S i) ps).
  { intros ps Hps. unfold splice1, relative_index.
    destruct (Z.ltb_spec (Z.of_nat i + 1) 0); [lia|].
    rewrite Z.min_l by lia. f_equal. lia. }
  destruct i as [|before].
  - rewrite bool_decide_eq_false_2 by lia. rewrite bind_Ok.
    rewrite (recompute_bind parts 0) by (auto; lia).
    rewrite (Hsplice _ (length_recompute _ _)). reflexivity.
  - rewrite bool_decide_eq_true_2 by lia.
    rewrite (set_rank_recompute parts before) by (auto; lia). rewrite bind_Ok.
    rewrite (recompute_bind _ (S before))
      by (auto using in_range_recompute; rewrite length_recompute; lia).
    rewrite Hsplice by (rewrite !length_recompute; reflexivity). reflexivity.
Qed.

Lemma ends_infinite_merge parts i :
  ends_infinite parts -> (i + 3 <= length parts)%nat ->
  ends_infinite (merge ranks piece parts i).
Proof.
  intros Hend Hi j p Hj Hlen. rewrite length_merge in Hlen by lia.
  unfold merge in Hj.
  set (parts1 := match i with O => parts | S before => recompute ranks piece parts before end) in *.
  assert (Hlen1 : length parts1 = length parts).
  { unfold parts1. destruct i; rewrite ?length_recompute; reflexivity. }
  destruct (decide (j < S i)%nat) as [Hlt|Hge].
  - rewrite list_lookup_delete_lt in Hj by assumption.
    assert (j = i) as -> by lia.
    rewrite (lookup_recompute_eq _ _ _ Hj). apply span_rank_end. lia.
  - rewrite list_lookup_delete_ge in Hj by lia.
    rewrite lookup_recompute_ne in Hj by lia.
    assert (Hj' : parts !! S j = Some p).
    { unfold parts1 in Hj. destruct i; [assumption|].
      rewrite lookup_recompute_ne in Hj by lia. assumption. }
    apply (Hend _ _ Hj'). lia.
Qed.

(** *** The loop of the source runs the merges of the specification *)

Lemma init_range_or_done :
  in_range (init ranks piece) \/ no_finite_rank (init ranks piece).
Proof.
  destruct (decide (1 <= length piece)%nat) as [Hlen|Hlen].
  - left. apply in_range_init. assumption.
  - right. apply find_min_infinite; [apply ends_infinite_init|].
    rewrite find_min_init. replace (length piece - 1)%nat with 0%nat by lia.
    reflexivity.
Qed.

Lemma merge_loop_run fuel parts iterations :
  (2 <= length parts)%nat -> ends_infinite parts ->
  in_range parts \/ no_finite_rank parts ->
  (length parts <= fuel + 1)%nat ->
  iterations + Z.of_nat (length parts) <= Z.of_nat (length piece) * 2 + 2 ->
  exists final,
    merge_loop fuel ranks piece parts (find_min parts) iterations
      = Ok (final, iterations + Z.of_nat (length parts) - Z.of_nat (length final)) /\
    run ranks piece parts final /\ (2 <= length final <= length parts)%nat.
Proof.
  revert parts iterations.
  induction fuel as [|fuel IH]; intros parts iterations Hlen Hend Hrange Hfuel Hcap; [lia|].
  cbn [merge_loop]. destruct (decide (min_rank (find_min parts) = Infinity)) as [Hinf|Hfin].
  - exists parts. split; [f_equal; f_equal; lia|]. split; [|lia].
    apply run_done. apply find_min_infinite; assumption.
  - destruct (min_rank (find_min parts)) as [r|] eqn:Hr; [|congruence].
    destruct (find_min_finite parts r Hend Hr) as (i & Hi & Hi3 & Hmin).
    destruct Hrange as [Hrange|Hno];
      [|exfalso; eapply is_minimum_finite; eauto].
    rewrite bool_decide_eq_false_2 by lia.
    rewrite Hi, merge_at_spec by (auto; lia). rewrite bind_Ok.
    destruct (IH (merge ranks piece parts i) (iterations + 1)) as (final & Hloop & Hrun & Hfinal).
    + rewrite length_merge; lia.
    + apply ends_infinite_merge; assumption.
    + left. apply in_range_merge. assumption.
    + rewrite length_merge; lia.
    + rewrite length_merge by lia. lia.
    + exists final. rewrite Hloop. rewrite length_merge by lia.
      split; [f_equal; f_equal; lia|]. split; [eapply run_merge; eauto|].
      rewrite length_merge in Hfinal by lia. lia.
Qed.

Lemma merge_loop_init extra :
  exists final,
    merge_loop (S (2 * length piece) + extra) ranks piece
      (init ranks piece) (find_min (init ranks piece)) 0
      = Ok (final, Z.of_nat (length (init ranks piece)) - Z.of_nat (length final)) /\
    run ranks piece (init ranks piece) final /\
    (2 <= length final <= length (init ranks piece))%nat.
Proof.
  apply merge_loop_run.
  - rewrite length_init. lia.
  - apply ends_infinite_init.
  - apply init_range_or_done.
  - rewrite length_init. lia.
  - rewrite length_init. lia.
Qed.

Lemma merge_run_spec :
  exists final,
    merge_run ranks piece
      = Ok (final, Z.of_nat (length (init ranks piece)) - Z.of_nat (length final)) /\
    run ranks piece (init ranks piece) final /\
    (2 <= length final <= length (init ranks piece))%nat.
Proof.
  unfold merge_run. rewrite initial_state_spec.
  destruct (merge_loop_init 0) as (final & Hloop & Hrun & Hlen).
  rewrite Nat.add_0_r in Hloop. eauto.
Qed.

Lemma run_no_finite_rank parts final :
  run ranks piece parts final -> no_finite_rank final.
Proof. induction 1; assumption. Qed.

End Loop.
End MergeFacts.


(** ** What the part list means while the loop runs *)

Module SegmentFacts.
Import BytePairEncoder MergeSpec PartList MergeFacts.

Section Segments.
Context (ranks : gmap jsstring N) (piece : bytes).

#[local] Abbreviation span := (PartList.span ranks piece).
#[local] Abbreviation ranks_ok := (PartList.ranks_ok ranks piece).
#[local] Abbreviation segments_known := (PartList.segments_known ranks piece).
#[local] Abbreviation boundaries_ok := (PartList.boundaries_ok piece).
#[local] Abbreviation all_single_bytes := (PartList.all_single_bytes ranks).
#[local] Abbreviation part_list_ok := (PartList.part_list_ok ranks piece).
#[local] Abbreviation segments := (PartList.segments piece).

Lemma span_rank_span parts j : span_rank ranks piece parts j = span parts j 3.
Proof.
  unfold span_rank, span, pos_at.
  destruct (parts !! j), (parts !! (j + 3)%nat); reflexivity.
Qed.

Lemma span_ext parts parts' j j' k k' :
  pos_at parts j = pos_at parts' j' ->
  pos_at parts (j + k) = pos_at parts' (j' + k') ->
  span parts j k = span parts' j' k'.
Proof. unfold span. intros -> ->. reflexivity. Qed.

Lemma pos_at_recompute parts k j :
  pos_at (recompute ranks piece parts k) j = pos_at parts j.
Proof.
  unfold pos_at, recompute. destruct (parts !! k) as [p|] eqn:Hp; [|reflexivity].
  destruct (decide (k = j)) as [->|Hne].
  - rewrite list_lookup_insert_eq by (eapply lookup_lt_Some; eauto).
    rewrite Hp. reflexivity.
  - rewrite list_lookup_insert_ne by assumption. reflexivity.
Qed.

(** The boundaries after a merge at [i]: boundary [i + 1] is gone. *)
Lemma pos_at_merge parts i j :
  pos_at (merge ranks piece parts i) j
    = pos_at parts (if decide (j <= i)%nat then j else S j).
Proof.
  unfold merge, pos_at at 1. rewrite list_lookup_delete.
  fold (pos_at (recompute ranks piece
                  match i with O => parts | S before => recompute ranks piece parts before end i)
               (if decide (j < S i)%nat then j else S j)).
  rewrite pos_at_recompute.
  assert (Hidx : (if decide (j < S i)%nat then j else S j)
                 = (if decide (j <= i)%nat then j else S j))
    by (repeat case_decide; lia).
  rewrite Hidx. destruct i; [reflexivity|apply pos_at_recompute].
Qed.

(** The entries after a merge at [i]: the entries before and at [i] have
    the rank of their span of three boundaries, the others are unchanged. *)
Lemma lookup_merge parts i j p :
  merge ranks piece parts i !! j = Some p ->
  if decide (S j = i \/ j = i)
  then rank p = span parts j 3
  else parts !! (if decide (j <= i)%nat then j else S j) = Some p.
Proof.
  unfold merge. rewrite list_lookup_delete.
  set (parts1 := match i with O => parts | S before => recompute ranks piece parts before end).
  assert (Hpos : forall k, pos_at parts1 k = pos_at parts k).
  { intros k. unfold parts1. destruct i; [reflexivity|apply pos_at_recompute]. }
  intros Hp. destruct (decide (S j = i \/ j = i)) as [[Hj|Hj]|Hj].
  - rewrite decide_True in Hp by lia.
    rewrite lookup_recompute_ne in Hp by lia. subst i. unfold parts1 in Hp.
    rewrite (lookup_recompute_eq _ _ _ _ _ Hp). apply span_rank_span.
  - rewrite decide_True in Hp by lia. subst j.
    rewrite (lookup_recompute_eq _ _ _ _ _ Hp), span_rank_span.
    apply span_ext; apply Hpos.
  - assert (Hidx : (if decide (j < S i)%nat then j else S j)
                   = (if decide (j <= i)%nat then j else S j))
      by (repeat case_decide; lia).
    rewrite Hidx in Hp. rewrite lookup_recompute_ne in Hp by (case_decide; lia).
    unfold parts1 in Hp. destruct i; [assumption|].
    rewrite lookup_recompute_ne in Hp by (case_decide; lia). assumption.
Qed.

Lemma ranks_ok_merge parts i :
  ranks_ok parts -> ranks_ok (merge ranks piece parts i).
Proof.
  intros Hok j p Hp. apply lookup_merge in Hp.
  destruct (decide (S j = i \/ j = i)) as [Hj|Hj].
  - rewrite Hp. apply span_ext; rewrite pos_at_merge.
    + rewrite decide_True by lia. reflexivity.
    + rewrite decide_False by lia. f_equal. lia.
  - rewrite (Hok _ _ Hp). apply span_ext; rewrite pos_at_merge; [reflexivity|].
    repeat case_decide; try lia; f_equal; lia.
Qed.

Lemma ranks_ok_ends_infinite parts : ranks_ok parts -> ends_infinite parts.
Proof.
  intros Hok j p Hp Hlen. rewrite (Hok _ _ Hp). unfold span, pos_at.
  rewrite (lookup_ge_None_2 parts (j + 2)) by lia. rewrite Hp. reflexivity.
Qed.

Lemma segments_known_merge parts i r :
  ranks_ok parts -> is_minimum parts i r ->
  segments_known parts -> segments_known (merge ranks piece parts i).
Proof.
  intros Hok [(p & Hp & Hr) _] Hknown j a b. rewrite !pos_at_merge.
  destruct (decide (j = i)) as [->|Hne].
  - rewrite decide_True, decide_False by lia. intros Ha Hb.
    pose proof (Hok _ _ Hp) as Hspan. rewrite Hr in Hspan.
    unfold span in Hspan. replace (i + 2)%nat with (S (S i)) in Hspan by lia.
    rewrite Ha, Hb in Hspan. unfold rankOrInfinity in Hspan.
    destruct (ranks !! bytesToKey (bytes_between piece a b)); [eauto|discriminate].
  - intros Ha Hb. repeat case_decide; try lia; eapply Hknown; eauto.
Qed.

Lemma boundaries_ok_merge parts i :
  (i + 3 <= length parts)%nat ->
  boundaries_ok parts -> boundaries_ok (merge ranks piece parts i).
Proof.
  intros Hi (Hfirst & Hlast & Hsorted). split; [|split].
  - rewrite pos_at_merge, decide_True by lia. assumption.
  - rewrite pos_at_merge, length_merge, decide_False by lia.
    replace (S (length parts - 1 - 1)) with (length parts - 1)%nat by lia. assumption.
  - intros j a b. rewrite !pos_at_merge.
    destruct (decide (j = i)) as [->|Hne].
    + rewrite decide_True, decide_False by lia. intros Ha Hb.
      destruct (lookup_lt_is_Some_2 parts (S i)) as [q Hq]; [lia|].
      assert (Hmid : pos_at parts (S i) = Some (pos q)) by (unfold pos_at; rewrite Hq; reflexivity).
      pose proof (Hsorted _ _ _ Ha Hmid). pose proof (Hsorted _ _ _ Hmid Hb). lia.
    + intros Ha Hb. repeat case_decide; try lia; eapply Hsorted; eauto.
Qed.

(** *** The initial part list *)

Lemma pos_at_init j :
  (1 <= length piece)%nat ->
  pos_at (init ranks piece) j
    = if decide (j <= length piece)%nat then Some (Z.of_nat j) else None.
Proof.
  intros Hlen. unfold pos_at, init.
  assert (Hpairs : length (pair_entry ranks piece <$> seq 0 (length piece - 1))
                   = (length piece - 1)%nat)
    by (rewrite length_fmap, length_seq; reflexivity).
  destruct (decide (j < length piece - 1)%nat) as [Hj|Hj].
  - rewrite lookup_app_l by lia. rewrite list_lookup_fmap, lookup_seq_lt by lia.
    rewrite decide_True by lia. reflexivity.
  - rewrite lookup_app_r by lia. rewrite Hpairs.
    destruct (j - (length piece - 1))%nat as [|[|n]] eqn:Hd; cbn.
    + rewrite decide_True by lia. f_equal. lia.
    + rewrite decide_True by lia. f_equal. lia.
    + rewrite decide_False by lia. reflexivity.
Qed.

Lemma ranks_ok_init : (1 <= length piece)%nat -> ranks_ok (init ranks piece).
Proof.
  intros Hlen j p Hp. unfold span. rewrite !pos_at_init by assumption.
  assert (Hpairs : length (pair_entry ranks piece <$> seq 0 (length piece - 1))
                   = (length piece - 1)%nat)
    by (rewrite length_fmap, length_seq; reflexivity).
  pose proof (lookup_lt_Some _ _ _ Hp) as Hj. rewrite length_init in Hj.
  unfold init in Hp.
  destruct (decide (j < length piece - 1)%nat) as [Hlt|Hge].
  - rewrite lookup_app_l in Hp by lia.
    rewrite list_lookup_fmap, lookup_seq_lt in Hp by lia.
    injection Hp as <-. rewrite !decide_True by lia. cbn.
    do 2 f_equal. lia.
  - rewrite lookup_app_r in Hp by lia. rewrite Hpairs in Hp.
    rewrite decide_True, decide_False by lia.
    destruct (j - (length piece - 1))%nat as [|[|n]]; cbn in Hp;
      [injection Hp as <-; reflexivity .. | discriminate].
Qed.

Lemma bytes_between_single j x :
  piece !! j = Some x -> bytes_between piece (Z.of_nat j) (Z.of_nat (S j)) = [x].
Proof.
  intros Hx. unfold bytes_between.
  replace (Z.to_nat (Z.of_nat (S j) - Z.of_nat j)) with 1%nat by lia.
  rewrite Nat2Z.id. rewrite (drop_S _ _ _ Hx). reflexivity.
Qed.

Lemma segments_known_init :
  all_single_bytes -> (1 <= length piece)%nat -> segments_known (init ranks piece).
Proof.
  intros Hall Hlen j a b. rewrite !pos_at_init by assumption.
  repeat case_decide; try discriminate. intros [= <-] [= <-].
  destruct (lookup_lt_is_Some_2 piece j) as [x Hx]; [lia|].
  rewrite (bytes_between_single _ _ Hx). apply Hall.
Qed.

Lemma boundaries_ok_init : (1 <= length piece)%nat -> boundaries_ok (init ranks piece).
Proof.
  intros Hlen. unfold boundaries_ok. rewrite length_init, !pos_at_init by assumption.
  rewrite !decide_True by lia. split; [reflexivity|]. split; [f_equal; lia|].
  intros j a b. rewrite !pos_at_init by assumption.
  repeat case_decide; try discriminate. intros [= <-] [= <-]. lia.
Qed.

(** *** The invariant of the loop *)

Lemma is_minimum_index parts i r :
  ranks_ok parts -> is_minimum parts i r -> (i + 3 <= length parts)%nat.
Proof.
  intros Hok [(p & Hp & Hr) _].
  destruct (decide (i + 3 <= length parts)%nat) as [|Hn]; [assumption|].
  rewrite (ranks_ok_ends_infinite _ Hok _ _ Hp) in Hr by lia. discriminate.
Qed.

Lemma part_list_ok_init :
  all_single_bytes -> (1 <= length piece)%nat -> part_list_ok (init ranks piece).
Proof.
  intros Hall Hlen. split.
  - rewrite length_init. lia.
  - apply in_range_init. assumption.
  - apply ranks_ok_init. assumption.
  - apply segments_known_init; assumption.
  - apply boundaries_ok_init. assumption.
Qed.

Lemma part_list_ok_run parts final :
  run ranks piece parts final -> part_list_ok parts -> part_list_ok final.
Proof.
  induction 1 as [|parts i r final Hmin _ IH]; [auto|].
  intros [Hlen Hrange Hranks Hsegs Hbounds]. apply IH.
  pose proof (is_minimum_index _ _ _ Hranks Hmin) as Hi. split.
  - rewrite length_merge; lia.
  - apply in_range_merge. assumption.
  - apply ranks_ok_merge. assumption.
  - eapply segments_known_merge; eauto.
  - apply boundaries_ok_merge; assumption.
Qed.

(** *** Resolving the final segments *)

Lemma segments_cons p q rest :
  segments (p :: q :: rest) = bytes_between piece (pos p) (pos q) :: segments (q :: rest).
Proof. reflexivity. Qed.

Lemma lookup_segments_cons p q rest :
  lookup_segments ranks piece (p :: q :: rest) =
    match ranks !! bytesToKey (slice piece (pos p) (pos q)) with
    | None =>
        Throw (SequenceNotInVocabulary (slice piece (pos p) (pos q))
                 (bytesToKey (slice piece (pos p) (pos q))) (pos p) (pos q)
                 (Z.of_nat (length piece)))
    | Some token => tokens ← lookup_segments ranks piece (q :: rest); Ok (token :: tokens)
    end.
Proof. reflexivity. Qed.

Lemma length_segments parts : length (segments parts) = (length parts - 1)%nat.
Proof.
  induction parts as [|p [|q rest] IH]; [reflexivity..|].
  rewrite segments_cons. cbn [length] in *. rewrite IH. lia.
Qed.

Lemma segments_known_tail p parts : segments_known (p :: parts) -> segments_known parts.
Proof. intros Hknown j a b Ha Hb. apply (Hknown (S j) a b); assumption. Qed.

Lemma lookup_segments_spec parts tokens :
  in_range piece parts ->
  lookup_segments ranks piece parts = Ok tokens ->
  Forall2 (fun token seg => ranks !! bytesToKey seg = Some token) tokens (segments parts).
Proof.
  revert tokens. induction parts as [|p [|q rest] IH]; intros tokens Hrange Hres.
  - injection Hres as <-. constructor.
  - injection Hres as <-. constructor.
  - rewrite lookup_segments_cons in Hres. rewrite segments_cons.
    apply Forall_cons in Hrange as [Hp Hrange].
    pose proof (proj1 (Forall_cons _ _ _) Hrange) as [Hq _].
    rewrite slice_bytes_between in Hres by assumption.
    destruct (ranks !! bytesToKey (bytes_between piece (pos p) (pos q))) as [t|] eqn:Ht;
      [|discriminate].
    destruct (lookup_segments ranks piece (q :: rest)) as [ts|] eqn:Hts;
      [|rewrite bind_Throw in Hres; discriminate].
    rewrite bind_Ok in Hres. injection Hres as <-.
    constructor; [assumption|]. apply IH; auto.
Qed.

Lemma lookup_segments_ok parts :
  in_range piece parts -> segments_known parts ->
  exists tokens, lookup_segments ranks piece parts = Ok tokens.
Proof.
  induction parts as [|p [|q rest] IH]; intros Hrange Hknown; [eexists; reflexivity..|].
  rewrite lookup_segments_cons.
  apply Forall_cons in Hrange as [Hp Hrange].
  pose proof (proj1 (Forall_cons _ _ _) Hrange) as [Hq _].
  rewrite slice_bytes_between by assumption.
  destruct (Hknown 0%nat (pos p) (pos q) eq_refl eq_refl) as [t Ht]. rewrite Ht.
  destruct IH as [ts Hts]; [assumption|eapply segments_known_tail; eauto|].
  rewrite Hts, bind_Ok. eexists; reflexivity.
Qed.

Lemma bytes_between_app a b c :
  0 <= a <= b -> b <= c ->
  bytes_between piece a b ++ bytes_between piece b c = bytes_between piece a c.
Proof.
  intros Hab Hbc. unfold bytes_between.
  replace (Z.to_nat b) with (Z.to_nat a + Z.to_nat (b - a))%nat by lia.
  rewrite <- drop_drop, take_take_drop. f_equal. lia.
Qed.

Lemma last_cons {A} (q : A) rest p : List.last (q :: rest) p = List.last rest q.
Proof.
  revert q p. induction rest as [|x rest IH]; intros q p; [reflexivity|].
  change (List.last (q :: x :: rest) p) with (List.last (x :: rest) p).
  rewrite !IH. reflexivity.
Qed.

Lemma lookup_last {A} (p : A) rest q :
  (p :: rest) !! length rest = Some q -> List.last rest p = q.
Proof.
  revert p. induction rest as [|x rest IH]; intros p Hq.
  - injection Hq as <-. reflexivity.
  - rewrite last_cons. apply IH. exact Hq.
Qed.

Lemma concat_segments_from p rest :
  0 <= pos p ->
  (forall j a b, pos_at (p :: rest) j = Some a -> pos_at (p :: rest) (S j) = Some b -> a < b) ->
  pos p <= pos (List.last rest p) /\
  concat (segments (p :: rest)) = bytes_between piece (pos p) (pos (List.last rest p)).
Proof.
  revert p. induction rest as [|q rest IH]; intros p Hp Hsorted.
  - split; [cbn; lia|]. cbn. unfold bytes_between.
    rewrite Z.sub_diag. reflexivity.
  - pose proof (Hsorted 0%nat (pos p) (pos q) eq_refl eq_refl) as Hpq.
    destruct (IH q) as [Hle Hcat]; [lia| |].
    { intros j a b Ha Hb. apply (Hsorted (S j) a b); assumption. }
    pose proof (last_cons q rest p) as Hlast.
    rewrite Hlast. split; [lia|].
    rewrite segments_cons. cbn [concat]. rewrite Hcat. apply bytes_between_app; lia.
Qed.

Lemma concat_segments parts :
  boundaries_ok parts -> concat (segments parts) = piece.
Proof.
  intros (Hfirst & Hlast & Hsorted). destruct parts as [|p rest].
  { discriminate. }
  cbn in Hfirst. injection Hfirst as Hp.
  destruct (concat_segments_from p rest) as [_ Hcat]; [lia|assumption|].
  rewrite Hcat, Hp. unfold pos_at in Hlast.
  assert (Hend : pos (List.last rest p) = Z.of_nat (length piece)).
  { destruct ((p :: rest) !! (length (p :: rest) - 1)%nat) as [q|] eqn:Hq; [|discriminate].
    injection Hlast as Hlast. rewrite <- Hlast. f_equal.
    cbn [length] in Hq. rewrite Nat.sub_succ, Nat.sub_0_r in Hq.
    apply lookup_last. assumption. }
  rewrite Hend. unfold bytes_between. rewrite Z.sub_0_r, Nat2Z.id.
  cbn [Z.to_nat drop]. apply take_ge. lia.
Qed.

End Segments.
End SegmentFacts.


(** ** The segments that [encode] returns, for every rank table *)

Module PartitionFacts.
Import BytePairEncoder MergeSpec PartList Readings Notions MergeFacts SegmentFacts.

(** *** The part list that the loop returns, for every rank table *)

Section Partition.
Context (ranks : gmap jsstring N) (piece : bytes).

Lemma boundaries_run parts final :
  run ranks piece parts final ->
  (2 <= length parts)%nat -> in_range piece parts -> ranks_ok ranks piece parts ->
  boundaries_ok piece parts ->
  (2 <= length final)%nat /\ in_range piece final /\ ranks_ok ranks piece final /\
  boundaries_ok piece final.
Proof.
  induction 1 as [|parts i r final Hmin _ IH]; [auto|].
  intros Hlen Hrange Hranks Hbounds.
  pose proof (is_minimum_index _ _ _ _ _ Hranks Hmin) as Hi. apply IH.
  - rewrite length_merge; lia.
  - apply in_range_merge. assumption.
  - apply ranks_ok_merge. assumption.
  - apply boundaries_ok_merge; assumption.
Qed.

Lemma lookup_segments_list parts j :
  segments piece parts !! j
    = (a ← pos_at parts j; b ← pos_at parts (S j); Some (bytes_between piece a b)).
Proof.
  revert j. induction parts as [|p [|q rest] IH]; intros j.
  - reflexivity.
  - destruct j; reflexivity.
  - rewrite segments_cons. destruct j as [|j]; [reflexivity|].
    cbn [lookup list_lookup]. rewrite IH. reflexivity.
Qed.

Lemma bytes_between_nonempty a b :
  0 <= a -> a < b -> b <= Z.of_nat (length piece) -> bytes_between piece a b <> [].
Proof.
  intros Ha Hab Hb Hnil. apply (f_equal length) in Hnil.
  unfold bytes_between in Hnil. rewrite length_take, length_drop in Hnil.
  cbn [length] in Hnil. lia.
Qed.

Lemma segments_nonempty parts :
  in_range piece parts -> boundaries_ok piece parts ->
  Forall (fun seg => seg <> []) (segments piece parts).
Proof.
  intros Hrange (_ & _ & Hlt). apply Forall_lookup. intros j seg Hseg.
  rewrite lookup_segments_list in Hseg.
  destruct (pos_at parts j) as [a|] eqn:Ha; [|discriminate].
  destruct (pos_at parts (S j)) as [b|] eqn:Hb; [|discriminate].
  injection Hseg as <-. pose proof (Hlt _ _ _ Ha Hb).
  unfold pos_at in Ha, Hb.
  destruct (parts !! j) as [p|] eqn:Hp; [|discriminate].
  destruct (parts !! S j) as [q|] eqn:Hq; [|discriminate].
  injection Ha as <-. injection Hb as <-.
  pose proof (proj1 (Forall_lookup _ _) Hrange _ _ Hp).
  pose proof (proj1 (Forall_lookup _ _) Hrange _ _ Hq).
  cbn beta in *. apply bytes_between_nonempty; lia.
Qed.

Lemma lookup_segments_iff parts tokens :
  in_range piece parts ->
  lookup_segments ranks piece parts = Ok tokens <->
  Forall2 (fun token seg => ranks !! bytesToKey seg = Some token) tokens (segments piece parts).
Proof.
  intros Hrange. split; [apply lookup_segments_spec; assumption|].
  revert tokens. induction parts as [|p [|q rest] IH]; intros tokens.
  - intros H. inversion H. reflexivity.
  - intros H. inversion H. reflexivity.
  - rewrite segments_cons, lookup_segments_cons. intros H.
    inversion H as [|token seg tokens' segs Htoken Hrest]; subst.
    inversion Hrange as [|? ? Hp Hrange']; subst.
    inversion Hrange' as [|? ? Hq _]; subst.
    rewrite slice_bytes_between by assumption. rewrite Htoken.
    rewrite (IH Hrange' tokens' Hrest). reflexivity.
Qed.

Lemma merge_result :
  (1 <= length piece)%nat ->
  exists final,
    _bytePairMerge ranks piece = Ok final /\
    no_finite_rank final /\
    (2 <= length final)%nat /\ in_range piece final /\ ranks_ok ranks piece final /\
    boundaries_ok piece final.
Proof.
  intros Hlen. destruct (merge_run_spec ranks piece) as (final & Hrun & Hspec & _).
  exists final. unfold _bytePairMerge. rewrite Hrun. split; [reflexivity|].
  split; [eapply run_no_finite_rank; eauto|].
  apply (boundaries_run _ _ Hspec).
  - rewrite length_init. lia.
  - apply in_range_init. assumption.
  - apply ranks_ok_init. assumption.
  - apply boundaries_ok_init. assumption.
Qed.

End Partition.

Lemma length_two_or_more {A} (xs : list A) :
  xs <> [] -> length xs <> 1%nat -> (2 <= length xs)%nat.
Proof. destruct xs as [|x [|y xs]]; cbn; intros; [congruence|congruence|lia]. Qed.


Lemma encode_partition (ranks : gmap jsstring N) (piece : bytes) (tokens : list N) :
  piece <> [] ->
  encode ranks piece = Ok tokens ->
  exists segs : list bytes,
    concat segs = piece /\
    Forall (fun seg => seg <> []) segs /\
    Forall2 (fun token seg => ranks !! bytesToKey seg = Some token) tokens segs.
Proof.
  intros Hne. unfold encode. case_decide as Hone.
  - destruct (ranks !! bytesToKey piece) as [token|] eqn:Htoken; [|discriminate].
    intros [= <-]. exists [piece]. cbn [concat]. rewrite app_nil_r.
    split; [reflexivity|]. split; repeat constructor; assumption.
  - pose proof (length_two_or_more _ Hne Hone) as Hlen.
    destruct (merge_result ranks piece ltac:(lia))
      as (final & Hmerge & _ & _ & Hrange & _ & Hbounds).
    rewrite Hmerge, bind_Ok. intros Htokens.
    exists (segments piece final). split; [apply concat_segments; assumption|].
    split; [apply segments_nonempty; assumption|].
    apply lookup_segments_spec; assumption.
Qed.

Lemma length_concat_nonempty {A} (segs : list (list A)) :
  Forall (fun seg => seg <> []) segs -> (length segs <= length (concat segs))%nat.
Proof.
  induction 1 as [|seg segs Hseg _ IH]; [reflexivity|].
  cbn [concat length]. rewrite length_app. destruct seg; [congruence|]. cbn [length]. lia.
Qed.

(** On the empty piece the engine looks the empty key up. *)
Lemma encode_nil (ranks : gmap jsstring N) :
  encode ranks [] =
    match ranks !! [] with
    | Some token => Ok [token]
    | None => Throw (SequenceNotInVocabulary [] [] (-1) 0 0)
    end.
Proof.
  unfold encode. rewrite decide_False by discriminate.
  assert (Hmerge : _bytePairMerge ranks []
                   = Ok [{| pos := -1; rank := Infinity |}; {| pos := 0; rank := Infinity |}])
    by reflexivity.
  rewrite Hmerge, bind_Ok, lookup_segments_cons.
  change (slice [] (pos {| pos := -1; rank := Infinity |})
            (pos {| pos := 0; rank := Infinity |})) with (@nil byte).
  change (bytesToKey []) with (@nil N).
  destruct (ranks !! []); reflexivity.
Qed.

(** The number of tokens that [encode] returns for a non-empty piece. *)
Lemma encode_count (ranks : gmap jsstring N) (piece : bytes) (tokens : list N) :
  piece <> [] ->
  encode ranks piece = Ok tokens ->
  (1 <= length tokens <= length piece)%nat.
Proof.
  intros Hne Hencode.
  destruct (encode_partition _ _ _ Hne Hencode) as (segs & Hcat & Hsegs & Htokens).
  apply Forall2_length in Htokens. rewrite Htokens, <- Hcat.
  split; [|apply length_concat_nonempty; assumption].
  destruct segs; [|cbn [length]; lia]. cbn in Hcat. congruence.
Qed.

End PartitionFacts.

(** ** Base64 keys *)

Module Base64Facts.
Import Base64.

#[local] Open Scope N_scope.

Ltac Zify.zify_post_hook ::= Z.to_euclidean_division_equations.

Lemma land_low_high x k y : y < 2 ^ k -> N.land (x * 2 ^ k) y = 0.
Proof.
  intros Hy. apply N.bits_inj. intros m. rewrite N.land_spec, N.bits_0.
  destruct (N.lt_ge_cases m k) as [Hm|Hm].
  - rewrite N.mul_pow2_bits_low by assumption. reflexivity.
  - rewrite andb_comm.
    destruct (N.eq_dec y 0) as [->|Hy0]; [rewrite N.bits_0; reflexivity|].
    rewrite N.bits_above_log2; [reflexivity|].
    apply N.log2_lt_pow2; [lia|].
    eapply N.lt_le_trans; [exact Hy|]. apply N.pow_le_mono_r; lia.
Qed.

(** Or-ing into the low bits left free by a shift is an addition. *)
Lemma lor_shiftl_add x k y : y < 2 ^ k -> N.lor (N.shiftl x k) y = x * 2 ^ k + y.
Proof.
  intros Hy. rewrite N.shiftl_mul_pow2.
  rewrite <- N.lxor_lor, <- N.add_nocarry_lxor by (apply land_low_high; assumption).
  reflexivity.
Qed.

Lemma to_N_to_uint8 n : Byte.to_N (to_uint8 n) = n mod 256.
Proof.
  unfold to_uint8. destruct (Byte.of_N (n mod 256)) as [b|] eqn:Hb.
  - apply Byte.to_of_N in Hb. exact Hb.
  - apply Byte.of_N_None_iff in Hb. pose proof (N.mod_lt n 256). lia.
Qed.

Lemma base64_value_char s : s < 64 -> base64_value (base64_char s) = Some s.
Proof.
  intros Hs. unfold base64_char, base64_value.
  repeat match goal with
         | |- context [N.ltb ?a ?b] => destruct (N.ltb_spec a b)
         | |- context [N.leb ?a ?b] => destruct (N.leb_spec a b)
         | |- context [N.eqb ?a ?b] => destruct (N.eqb_spec a b)
         | |- _ => progress cbn [andb]
         end; try lia; f_equal; lia.
Qed.

Lemma base64_char_plain s : s < 64 ->
  is_ascii_whitespace (base64_char s) = false /\ base64_char s <> base64_pad.
Proof.
  intros Hs. unfold is_ascii_whitespace, base64_pad, base64_char.
  split.
  - apply bool_decide_eq_false. rewrite !elem_of_cons, elem_of_nil.
    repeat match goal with
           | |- context [N.ltb ?a ?b] => destruct (N.ltb_spec a b)
           | |- context [N.eqb ?a ?b] => destruct (N.eqb_spec a b)
           end; lia.
  - repeat match goal with
           | |- context [N.ltb ?a ?b] => destruct (N.ltb_spec a b)
           | |- context [N.eqb ?a ?b] => destruct (N.eqb_spec a b)
           end; lia.
Qed.

Lemma bytes_ind3 (P : bytes -> Prop) :
  P [] -> (forall a, P [a]) -> (forall a b, P [a; b]) ->
  (forall a b c rest, P rest -> P (a :: b :: c :: rest)) ->
  forall data, P data.
Proof.
  intros H0 H1 H2 H3.
  assert (Hall : forall data, P data /\ (forall a, P (a :: data)) /\ (forall a b, P (a :: b :: data))).
  { induction data as [|c rest (IH0 & IH1 & IH2)]; [auto|].
    split; [apply IH1|]. split; [intros a; apply IH2|]. intros a b. apply H3, IH0. }
  intros data. apply Hall.
Qed.

Lemma btoa_sextets data : btoa data = (base64_char <$> sextets data) ++ padding data.
Proof.
  induction data as [| a | a b | a b c rest IH] using bytes_ind3; [reflexivity..|].
  change (btoa (a :: b :: c :: rest)) with
    (base64_char (N.shiftr (Byte.to_N a) 2)
     :: base64_char (N.lor (N.shiftl (N.land (Byte.to_N a) 3) 4) (N.shiftr (Byte.to_N b) 4))
     :: base64_char (N.lor (N.shiftl (N.land (Byte.to_N b) 15) 2) (N.shiftr (Byte.to_N c) 6))
     :: base64_char (N.land (Byte.to_N c) 63)
     :: btoa rest).
  rewrite IH. unfold padding. cbn [length].
  replace (S (S (S (length rest))) mod 3)%nat with (length rest mod 3)%nat
    by (rewrite <- (Nat.Div0.mod_add (length rest) 1 3); f_equal; lia).
  reflexivity.
Qed.

Lemma to_uint8_eq n b : n mod 256 = Byte.to_N b -> to_uint8 n = b.
Proof.
  intros Hn. unfold to_uint8. rewrite Hn, Byte.of_to_N. reflexivity.
Qed.

Lemma land_mask n k : N.land n (2 ^ k - 1) = n mod 2 ^ k.
Proof. rewrite <- N.land_ones. f_equal. rewrite N.ones_equiv. lia. Qed.

Lemma land_3 n : N.land n 3 = n mod 4.
Proof. exact (land_mask n 2). Qed.

Lemma land_15 n : N.land n 15 = n mod 16.
Proof. exact (land_mask n 4). Qed.

Lemma land_63 n : N.land n 63 = n mod 64.
Proof. exact (land_mask n 6). Qed.

Lemma sextet_high n : N.shiftr n 2 = n / 4.
Proof. apply N.shiftr_div_pow2. Qed.

Lemma sextet_low n : N.shiftl (N.land n 3) 4 = n mod 4 * 16.
Proof. rewrite N.shiftl_mul_pow2. rewrite land_3. reflexivity. Qed.

Lemma sextet_second n m : m < 256 ->
  N.lor (N.shiftl (N.land n 3) 4) (N.shiftr m 4) = n mod 4 * 16 + m / 16.
Proof.
  intros Hm. rewrite lor_shiftl_add.
  - rewrite land_3, N.shiftr_div_pow2. reflexivity.
  - rewrite N.shiftr_div_pow2. change (2 ^ 4) with 16. lia.
Qed.

Lemma sextet_third_low m : N.shiftl (N.land m 15) 2 = m mod 16 * 4.
Proof. rewrite N.shiftl_mul_pow2. rewrite land_15. reflexivity. Qed.

Lemma sextet_third m k : k < 256 ->
  N.lor (N.shiftl (N.land m 15) 2) (N.shiftr k 6) = m mod 16 * 4 + k / 64.
Proof.
  intros Hk. rewrite lor_shiftl_add.
  - rewrite land_15, N.shiftr_div_pow2. reflexivity.
  - rewrite N.shiftr_div_pow2. change (2 ^ 6) with 64. change (2 ^ 2) with 4. lia.
Qed.

Lemma sextet_fourth k : N.land k 63 = k mod 64.
Proof. apply land_63. Qed.

Lemma sextets_bounded data : Forall (fun s => s < 64) (sextets data).
Proof.
  induction data as [| a | a b | a b c rest IH] using bytes_ind3; cbn [sextets].
  - constructor.
  - pose proof (Byte.to_N_bounded a).
    rewrite sextet_high, sextet_low. repeat constructor; lia.
  - pose proof (Byte.to_N_bounded a). pose proof (Byte.to_N_bounded b).
    rewrite sextet_high, sextet_second, sextet_third_low by lia.
    repeat constructor; lia.
  - pose proof (Byte.to_N_bounded a). pose proof (Byte.to_N_bounded b).
    pose proof (Byte.to_N_bounded c).
    rewrite sextet_high, sextet_second, sextet_third, sextet_fourth by lia.
    repeat (constructor; [lia|]). exact IH.
Qed.

(** Four sextets give back the three bytes they were cut from. *)
Lemma decode_group (a b c : byte) :
  let n := Byte.to_N a in
  let m := Byte.to_N b in
  let k := Byte.to_N c in
  let s1 := n / 4 in
  let s2 := n mod 4 * 16 + m / 16 in
  let s3 := m mod 16 * 4 + k / 64 in
  let s4 := k mod 64 in
  N.lor (N.shiftl (N.lor (N.shiftl (N.lor (N.shiftl s1 6) s2) 6) s3) 6) s4
    = n * 65536 + m * 256 + k.
Proof.
  intros n m k s1 s2 s3 s4.
  assert (n < 256 /\ m < 256 /\ k < 256) as (? & ? & ?).
  { pose proof (Byte.to_N_bounded a). pose proof (Byte.to_N_bounded b).
    pose proof (Byte.to_N_bounded c). subst n m k. lia. }
  clearbody n m k.
  assert (s1 < 64 /\ s2 < 64 /\ s3 < 64 /\ s4 < 64) as (? & ? & ? & ?)
    by (unfold s1, s2, s3, s4; lia).
  rewrite !lor_shiftl_add by (change (2 ^ 6) with 64; assumption).
  change (2 ^ 6) with 64. unfold s1, s2, s3, s4. lia.
Qed.

Lemma decode_sextets_sextets data : decode_sextets (sextets data) = data.
Proof.
  induction data as [| a | a b | a b c rest IH] using bytes_ind3.
  - reflexivity.
  - cbn [sextets decode_sextets]. pose proof (Byte.to_N_bounded a).
    rewrite sextet_high, sextet_low.
    rewrite lor_shiftl_add by (change (2 ^ 6) with 64; lia).
    rewrite N.shiftr_div_pow2. change (2 ^ 6) with 64. change (2 ^ 4) with 16.
    f_equal. apply to_uint8_eq. lia.
  - cbn [sextets decode_sextets].
    pose proof (Byte.to_N_bounded a). pose proof (Byte.to_N_bounded b).
    rewrite sextet_high, sextet_second, sextet_third_low by lia.
    rewrite !lor_shiftl_add by (change (2 ^ 6) with 64; lia).
    rewrite !N.shiftr_div_pow2.
    change (2 ^ 6) with 64. change (2 ^ 2) with 4. change (2 ^ 8) with 256.
    f_equal; [|f_equal]; apply to_uint8_eq; lia.
  - change (sextets (a :: b :: c :: rest)) with
      (N.shiftr (Byte.to_N a) 2
       :: N.lor (N.shiftl (N.land (Byte.to_N a) 3) 4) (N.shiftr (Byte.to_N b) 4)
       :: N.lor (N.shiftl (N.land (Byte.to_N b) 15) 2) (N.shiftr (Byte.to_N c) 6)
       :: N.land (Byte.to_N c) 63
       :: sextets rest).
    pose proof (Byte.to_N_bounded a). pose proof (Byte.to_N_bounded b).
    pose proof (Byte.to_N_bounded c).
    rewrite sextet_high, sextet_second, sextet_third, sextet_fourth by lia.
    cbn [decode_sextets]. rewrite IH.
    pose proof (decode_group a b c) as Hgroup. cbv zeta in Hgroup. rewrite Hgroup.
    rewrite !N.shiftr_div_pow2. change (2 ^ 16) with 65536. change (2 ^ 8) with 256.
    f_equal; [|f_equal; [|f_equal]]; apply to_uint8_eq; lia.
Qed.

Lemma length_sextets data :
  length (sextets data)
    = (4 * (length data / 3)
       + match length data mod 3 with 0 => 0 | 1 => 2 | _ => 3 end)%nat.
Proof.
  induction data as [| a | a b | a b c rest IH] using bytes_ind3; [reflexivity..|].
  change (sextets (a :: b :: c :: rest)) with
    (N.shiftr (Byte.to_N a) 2
     :: N.lor (N.shiftl (N.land (Byte.to_N a) 3) 4) (N.shiftr (Byte.to_N b) 4)
     :: N.lor (N.shiftl (N.land (Byte.to_N b) 15) 2) (N.shiftr (Byte.to_N c) 6)
     :: N.land (Byte.to_N c) 63
     :: sextets rest).
  cbn [length]. rewrite IH.
  replace (S (S (S (length rest)))) with (length rest + 1 * 3)%nat by lia.
  rewrite Nat.div_add, Nat.Div0.mod_add by lia. lia.
Qed.

Lemma filter_all {A} (P : A -> Prop) `{forall x, Decision (P x)} (l : list A) :
  Forall P l -> filter P l = l.
Proof.
  induction 1 as [|x l Hx _ IH]; [reflexivity|].
  rewrite filter_cons_True by assumption. rewrite IH. reflexivity.
Qed.

Lemma btoa_no_whitespace data :
  Forall (fun c => is_ascii_whitespace c = false) (btoa data).
Proof.
  rewrite btoa_sextets. apply Forall_app. split.
  - apply Forall_fmap. eapply Forall_impl; [apply sextets_bounded|].
    intros s Hs. apply base64_char_plain. assumption.
  - unfold padding. destruct (length data mod 3)%nat as [|[|[|]]]; repeat constructor.
Qed.

Lemma chars_not_pad data c : c ∈ base64_char <$> sextets data -> c <> base64_pad.
Proof.
  intros Hc. apply list_elem_of_fmap in Hc as (s & -> & Hs).
  apply base64_char_plain.
  exact (proj1 (Forall_forall _ _) (sextets_bounded data) s Hs).
Qed.

Lemma strip_padding_btoa data :
  strip_padding (btoa data) = base64_char <$> sextets data.
Proof.
  rewrite btoa_sextets. unfold strip_padding.
  set (chars := base64_char <$> sextets data).
  assert (Hlen : length chars = length (sextets data)) by apply length_fmap.
  pose proof (length_sextets data) as Hsext.
  pose proof (chars_not_pad data) as Hpad. fold chars in Hpad.
  rewrite length_app, Hlen, Hsext. unfold padding.
  pose proof (Nat.mod_upper_bound (length data) 3 ltac:(lia)) as Hmod.
  destruct (length data mod 3)%nat as [|[|[|n]]] eqn:Hrem; [| | |lia]; cbn [length].
  - rewrite app_nil_r. case_decide; [|reflexivity].
    destruct (reverse chars) as [|c [|d rest]] eqn:Hrev; [reflexivity..|].
    rewrite decide_False; [reflexivity|]. apply Hpad.
    apply elem_of_reverse. rewrite Hrev. left.
  - rewrite decide_True
      by (replace (4 * (length data / 3) + 2 + 2)%nat with ((1 + length data / 3) * 4)%nat by lia;
          apply Nat.Div0.mod_mul).
    change (chars ++ [base64_pad; base64_pad])
      with (chars ++ [base64_pad] ++ [base64_pad]).
    rewrite app_assoc, !reverse_snoc. rewrite !decide_True by reflexivity.
    apply reverse_involutive.
  - rewrite decide_True
      by (replace (4 * (length data / 3) + 3 + 1)%nat with ((1 + length data / 3) * 4)%nat by lia;
          apply Nat.Div0.mod_mul).
    rewrite reverse_snoc.
    destruct (reverse chars) as [|d rest] eqn:Hrev.
    { apply (f_equal length) in Hrev. rewrite length_reverse in Hrev. cbn in Hrev. lia. }
    rewrite decide_True by reflexivity. rewrite decide_False.
    + rewrite <- Hrev. apply reverse_involutive.
    + apply Hpad. apply elem_of_reverse. rewrite Hrev. left.
Qed.

(** [keyToBytes] inverts [bytesToKey]. *)
Lemma atob_btoa data : atob (btoa data) = Ok data.
Proof.
  unfold atob. rewrite filter_all by apply btoa_no_whitespace.
  rewrite strip_padding_btoa.
  rewrite decide_False.
  - rewrite (mapM_Some_2 _ _ (sextets data)).
    + rewrite decode_sextets_sextets. reflexivity.
    + apply Forall2_fmap_l. apply Forall_Forall2_diag.
      eapply Forall_impl; [apply sextets_bounded|].
      intros s Hs. apply base64_value_char. assumption.
  - rewrite length_fmap, length_sextets.
    pose proof (Nat.mod_upper_bound (length data) 3 ltac:(lia)).
    rewrite Nat.add_comm, Nat.mul_comm, Nat.Div0.mod_add.
    destruct (length data mod 3)%nat as [|[|[|n]]]; cbn; lia.
Qed.

Lemma btoa_inj data data' : btoa data = btoa data' -> data = data'.
Proof.
  intros Heq. pose proof (atob_btoa data) as Hdata.
  rewrite Heq, atob_btoa in Hdata. congruence.
Qed.

End Base64Facts.


(** ** The tokenizer *)

Module EncodingFacts.
Import BytePairEncoder Readings Base64Facts.

(** *** Argument spread *)

Lemma spread_within {A} engine (values : list A) :
  (N.of_nat (length values) <= max_arguments engine)%N -> spread engine values = Ok values.
Proof. intros Hle. unfold spread. rewrite (proj2 (N.leb_le _ _) Hle). reflexivity. Qed.

Lemma spread_nil {A} engine : spread engine (@nil A) = Ok [].
Proof. apply spread_within. cbn [length]. lia. Qed.

Lemma spread_Ok {A} engine (values arguments : list A) :
  spread engine values = Ok arguments ->
  arguments = values /\ (N.of_nat (length values) <= max_arguments engine)%N.
Proof.
  unfold spread. destruct (N.leb_spec (N.of_nat (length values)) (max_arguments engine));
    [|discriminate].
  intros [= <-]. auto.
Qed.

Lemma spread_Throw {A} engine (values : list A) e :
  spread engine values = Throw e ->
  e = ArgumentsRangeError /\ (max_arguments engine < N.of_nat (length values))%N.
Proof.
  unfold spread. destruct (N.leb_spec (N.of_nat (length values)) (max_arguments engine));
    [discriminate|].
  intros [= <-]. auto.
Qed.

Lemma ordinary_arguments_nil enc : Encoding.ordinary_arguments enc [] = Ok [].
Proof. unfold Encoding.ordinary_arguments. cbn. apply spread_nil. Qed.

(** *** Keys and the decode table *)

Lemma keyToBytes_bytesToKey data : keyToBytes (bytesToKey data) = Ok data.
Proof. apply atob_btoa. Qed.

Lemma bytesToKey_inj : Inj (=) (=) bytesToKey.
Proof. intros data data'. apply btoa_inj. Qed.

Lemma build_decoder_keyed table decoder :
  Encoding.build_decoder (keyed table) decoder = Ok (decoder_of table decoder).
Proof.
  revert decoder. induction table as [|[data rank] table IH]; intros decoder; [reflexivity|].
  cbn [keyed fmap list_fmap Encoding.build_decoder fst snd].
  rewrite keyToBytes_bytesToKey. cbn [mbind result_bind]. apply IH.
Qed.

Lemma decoder_of_lookup table decoder rank data :
  decoder_of table decoder !! rank = Some data ->
  (data, rank) ∈ table \/ decoder !! rank = Some data.
Proof.
  revert decoder. induction table as [|[data' rank'] table IH]; intros decoder Hlook.
  - right. exact Hlook.
  - cbn [decoder_of foldl] in Hlook. apply IH in Hlook as [Hin|Hlook].
    + left. right. exact Hin.
    + cbn [fst snd] in Hlook. destruct (decide (rank' = rank)) as [->|Hne].
      * rewrite lookup_insert_eq in Hlook. injection Hlook as ->. left. left.
      * rewrite lookup_insert_ne in Hlook by assumption. right. exact Hlook.
Qed.

Lemma decoder_of_fresh table decoder rank :
  rank ∉ table.*2 -> decoder_of table decoder !! rank = decoder !! rank.
Proof.
  revert decoder. induction table as [|[data' rank'] table IH]; intros decoder Hfresh.
  - reflexivity.
  - cbn [decoder_of foldl fst snd]. rewrite fmap_cons, not_elem_of_cons in Hfresh.
    destruct Hfresh as [Hne Hfresh]. cbn [snd] in Hne.
    unfold decoder_of in IH. rewrite IH by assumption.
    apply lookup_insert_ne. congruence.
Qed.

Lemma decoder_of_member table decoder rank data :
  NoDup table.*2 -> (data, rank) ∈ table ->
  decoder_of table decoder !! rank = Some data.
Proof.
  revert decoder. induction table as [|[data' rank'] table IH]; intros decoder Hnodup Hin.
  - inversion Hin.
  - rewrite fmap_cons in Hnodup. apply NoDup_cons in Hnodup as [Hfresh Hnodup].
    cbn [decoder_of foldl fst snd]. apply elem_of_cons in Hin as [[= -> ->]|Hin].
    + pose proof (decoder_of_fresh table (<[rank':=data']> decoder) rank' Hfresh) as Hlook.
      unfold decoder_of in Hlook. rewrite Hlook. apply lookup_insert_eq.
    + apply (IH _ Hnodup Hin).
Qed.

Lemma decoder_of_last table decoder rank :
  decoder_of table decoder !! rank
    = match last (filter (fun entry => entry.2 = rank) table) with
      | Some entry => Some entry.1
      | None => decoder !! rank
      end.
Proof.
  revert decoder. induction table as [|[data' rank'] table IH]; intros decoder; [reflexivity|].
  cbn [decoder_of foldl fst snd]. unfold decoder_of in IH. rewrite IH.
  destruct (decide (rank' = rank)) as [->|Hne].
  - rewrite filter_cons_True by reflexivity.
    destruct (filter _ table) as [|entry others]; [apply lookup_insert_eq|].
    rewrite last_cons_cons. destruct (last (entry :: others)) eqn:Hlast; [reflexivity|].
    apply last_None in Hlast. discriminate.
  - rewrite filter_cons_False by (cbn; congruence).
    destruct (last _); [reflexivity|]. apply lookup_insert_ne. assumption.
Qed.

Lemma max_or_minus_one_within engine values :
  (N.of_nat (length values) <= max_arguments engine)%N ->
  Encoding.max_or_minus_one engine values = Ok (Encoding.Math_max values).
Proof.
  intros Hle. unfold Encoding.max_or_minus_one. case_decide as Hsome.
  - rewrite spread_within by assumption. reflexivity.
  - destruct values; [reflexivity|cbn in Hsome; lia].
Qed.

Lemma max_or_minus_one_Ok engine values m :
  Encoding.max_or_minus_one engine values = Ok m -> m = Encoding.Math_max values.
Proof.
  unfold Encoding.max_or_minus_one. case_decide as Hsome.
  - destruct (spread engine values) as [arguments|] eqn:Hspread; [|discriminate].
    apply spread_Ok in Hspread as [-> _]. intros [= <-]. reflexivity.
  - intros [= <-]. destruct values; [reflexivity|cbn in Hsome; lia].
Qed.

Lemma keyed_lookup table data rank :
  NoDup table.*1 ->
  map_table (keyed table) !! bytesToKey data = Some rank <-> (data, rank) ∈ table.
Proof.
  intros Hnodup. unfold map_table.
  assert (Hkeys : NoDup (keyed table).*1).
  { unfold keyed. rewrite <- list_fmap_compose.
    change (NoDup ((bytesToKey ∘ fst) <$> table)). rewrite list_fmap_compose.
    apply NoDup_fmap_2; [apply bytesToKey_inj|assumption]. }
  rewrite <- (elem_of_list_to_map (M := gmap jsstring)) by assumption.
  unfold keyed. rewrite list_elem_of_fmap. split.
  - intros ([data' rank'] & [= Hkey ->] & Hin). cbn in Hkey.
    apply bytesToKey_inj in Hkey as ->. assumption.
  - intros Hin. exists (data, rank). split; [reflexivity|assumption].
Qed.

(** *** Substrings and the special-token scan *)

Lemma includes_spec text token : includes text token = true <-> occurs_in token text.
Proof.
  induction text as [|c text IH]; cbn [includes].
  - rewrite orb_false_r, bool_decide_eq_true. split.
    + intros [after ->]. exists [], after. reflexivity.
    + intros (before & after & Heq). symmetry in Heq.
      apply app_eq_nil in Heq as [-> Heq]. apply app_eq_nil in Heq as [-> ->].
      exists []. reflexivity.
  - rewrite orb_true_iff, bool_decide_eq_true, IH. split.
    + intros [[after ->]|(before & after & ->)].
      * exists [], after. reflexivity.
      * exists (c :: before), after. reflexivity.
    + intros ([|c' before] & after & Heq).
      * left. exists after. exact Heq.
      * right. injection Heq as -> ->. exists before, after. reflexivity.
Qed.

Section MatchAll.
Context (alternatives : list jsstring).

Lemma matchAll_skip passed rest i :
  Encoding.matchAll alternatives (passed ++ rest) i (length passed)
    = Encoding.matchAll alternatives rest (i + length passed) 0.
Proof.
  revert i. induction passed as [|c passed IH]; intros i.
  - cbn [app length]. rewrite Nat.add_0_r. reflexivity.
  - cbn [app length Encoding.matchAll]. rewrite IH. f_equal. lia.
Qed.

Lemma matchAll_split rest i skip before j t after :
  Encoding.matchAll alternatives rest i skip = before ++ (j, t) :: after ->
  t <> [] ->
  (i <= j)%nat /\
  t `prefix_of` drop (j - i) rest /\
  after = Encoding.matchAll alternatives (drop (j - i + length t) rest) (j + length t) 0.
Proof.
  intros Hsplit Hne. revert i skip before Hsplit.
  induction rest as [|c rest IH]; intros i skip before Hsplit.
  - destruct skip; cbn [Encoding.matchAll] in Hsplit; [|destruct before; discriminate].
    destruct (list_find _ _) as [[k u]|] eqn:Hfind; [|destruct before; discriminate].
    destruct before as [|m [|]]; try discriminate.
    apply list_find_Some in Hfind as (_ & [post Hpost] & _).
    injection Hsplit as -> -> <-. symmetry in Hpost. apply app_eq_nil in Hpost as [-> _].
    congruence.
  - assert (Hrest : forall skip' before',
              Encoding.matchAll alternatives rest (S i) skip' = before' ++ (j, t) :: after ->
              (i <= j)%nat /\
              t `prefix_of` drop (j - i) (c :: rest) /\
              after = Encoding.matchAll alternatives
                        (drop (j - i + length t) (c :: rest)) (j + length t) 0).
    { intros skip' before' H. destruct (IH _ _ _ H) as (Hle & Hpre & Hafter).
      replace (j - i)%nat with (S (j - S i)) by lia.
      split; [lia|]. split; assumption. }
    destruct skip; cbn [Encoding.matchAll] in Hsplit; [|eapply Hrest; eassumption].
    destruct (list_find _ _) as [[k u]|] eqn:Hfind; [|eapply Hrest; eassumption].
    destruct before as [|m before]; [|injection Hsplit as _ Hsplit; eapply Hrest; eassumption].
    injection Hsplit as -> -> Hafter.
    apply list_find_Some in Hfind as (_ & Hpre & _).
    rewrite Nat.sub_diag. split; [lia|]. split; [assumption|].
    destruct Hpre as [post Hpost]. destruct t as [|c' t]; [congruence|].
    injection Hpost as <- ->. rewrite <- Hafter. cbn [length Nat.add drop].
    rewrite Nat.sub_succ, Nat.sub_0_r, matchAll_skip, drop_app_length.
    f_equal. lia.
Qed.

End MatchAll.

Lemma slice_app_l {A} (xs ys : list A) :
  slice (xs ++ ys) 0 (Z.of_nat (length xs)) = xs.
Proof. rewrite MergeFacts.slice_prefix. apply take_app_length. Qed.

Lemma matchAll_shift alternatives rest i skip :
  Encoding.matchAll alternatives rest i skip
    = shift_match i <$> Encoding.matchAll alternatives rest 0 skip.
Proof.
  revert i skip. induction rest as [|c rest IH]; intros i skip.
  - destruct skip; cbn [Encoding.matchAll]; [|reflexivity].
    destruct (list_find _ _) as [[k t]|]; [|reflexivity].
    cbn. unfold shift_match. cbn. rewrite Nat.add_0_r. reflexivity.
  - destruct skip; cbn [Encoding.matchAll].
    + destruct (list_find _ _) as [[k t]|].
      * rewrite fmap_cons. unfold shift_match at 1. cbn [fst snd]. rewrite Nat.add_0_r.
        f_equal. rewrite (IH (S i)), (IH 1%nat), <- list_fmap_compose.
        apply list_fmap_ext. intros _ [j u] _. unfold shift_match. cbn. f_equal. lia.
      * rewrite (IH (S i)), (IH 1%nat), <- list_fmap_compose.
        apply list_fmap_ext. intros _ [j u] _. unfold shift_match. cbn. f_equal. lia.
    + rewrite (IH (S i)), (IH 1%nat), <- list_fmap_compose.
      apply list_fmap_ext. intros _ [j u] _. unfold shift_match. cbn. f_equal. lia.
Qed.

Lemma matchAll_elem alternatives rest i skip j t :
  (j, t) ∈ Encoding.matchAll alternatives rest i skip ->
  t ∈ alternatives /\ occurs_in t rest.
Proof.
  revert i skip. induction rest as [|c rest IH]; intros i skip.
  - destruct skip; cbn [Encoding.matchAll]; [|intros H; inversion H].
    destruct (list_find _ _) as [[k u]|] eqn:Hfind; [|intros H; inversion H].
    intros H. apply elem_of_cons in H as [[= -> ->]|H]; [|inversion H].
    apply list_find_Some in Hfind as (Hk & Hpre & _).
    split; [eapply list_elem_of_lookup_2; eauto|].
    destruct Hpre as [post Hpost]. exists [], post. exact Hpost.
  - assert (Hrest : forall i' skip', (j, t) ∈ Encoding.matchAll alternatives rest i' skip' ->
              t ∈ alternatives /\ occurs_in t (c :: rest)).
    { intros i' skip' H. destruct (IH _ _ H) as [Ht (pre & post & ->)].
      split; [assumption|]. exists (c :: pre), post. reflexivity. }
    destruct skip; cbn [Encoding.matchAll]; [|apply Hrest].
    destruct (list_find _ _) as [[k u]|] eqn:Hfind; [|apply Hrest].
    intros H. apply elem_of_cons in H as [[= -> ->]|H]; [|eapply Hrest; eauto].
    apply list_find_Some in Hfind as (Hk & Hpre & _).
    split; [eapply list_elem_of_lookup_2; eauto|].
    destruct Hpre as [post Hpost]. exists [], post. exact Hpost.
Qed.

Lemma slice_shift {A} (pre xs : list A) l j :
  0 <= l -> 0 <= j ->
  slice (pre ++ xs) (Z.of_nat (length pre) + l) (Z.of_nat (length pre) + j) = slice xs l j.
Proof.
  intros Hl Hj. unfold slice, relative_index. rewrite length_app.
  destruct (Z.ltb_spec (Z.of_nat (length pre) + l) 0),
           (Z.ltb_spec (Z.of_nat (length pre) + j) 0),
           (Z.ltb_spec l 0), (Z.ltb_spec j 0); try lia.
  replace (Z.to_nat (Z.min (Z.of_nat (length pre) + l) (Z.of_nat (length pre + length xs))))
    with (length pre + Z.to_nat (Z.min l (Z.of_nat (length xs))))%nat by lia.
  rewrite drop_app_add. f_equal. lia.
Qed.

Lemma isAllowed_allows allowedSpecial t :
  Encoding.isAllowed allowedSpecial t = true <-> allows allowedSpecial t.
Proof.
  destruct allowedSpecial; cbn; [split; [discriminate|tauto]|tauto|].
  unfold Encoding.set_has. apply bool_decide_eq_true.
Qed.

Lemma encode_matches_lastEnd enc text allowedSpecial matches tokens lastEnd tokens' final :
  0 <= lastEnd ->
  Encoding.encode_matches enc text allowedSpecial matches tokens lastEnd = Ok (tokens', final) ->
  0 <= final.
Proof.
  revert tokens lastEnd. induction matches as [|[i t] matches IH]; intros tokens lastEnd Hlast.
  - intros [= _ <-]. assumption.
  - cbn [Encoding.encode_matches].
    destruct (Encoding.isAllowed allowedSpecial t); [|apply IH; assumption].
    destruct (if bool_decide (lastEnd < Z.of_nat i) then _ else _) as [tokens1|e];
      [|discriminate].
    cbn [mbind result_bind]. destruct (get_property _ t); try discriminate.
    apply IH. lia.
Qed.

Lemma encode_matches_acc enc text allowedSpecial matches acc lastEnd :
  Encoding.encode_matches enc text allowedSpecial matches acc lastEnd
  = ('(tokens, final) ← Encoding.encode_matches enc text allowedSpecial matches [] lastEnd;
     Ok (acc ++ tokens, final)).
Proof.
  revert acc lastEnd. induction matches as [|[i t] matches IH]; intros acc lastEnd.
  - cbn. rewrite app_nil_r. reflexivity.
  - cbn [Encoding.encode_matches].
    destruct (Encoding.isAllowed allowedSpecial t); [|apply IH].
    case_bool_decide.
    + destruct (Encoding.ordinary_arguments enc _) as [before|e]; [|reflexivity].
      cbn [mbind result_bind].
      destruct (get_property _ t); try reflexivity.
      rewrite IH. rewrite (IH (([] ++ before) ++ [n])).
      destruct (Encoding.encode_matches enc text allowedSpecial matches [] _) as [[r e]|e];
        [|reflexivity].
      cbn. rewrite <- !app_assoc. reflexivity.
    + cbn [mbind result_bind].
      destruct (get_property _ t); try reflexivity.
      rewrite IH. rewrite (IH ([] ++ [n])).
      destruct (Encoding.encode_matches enc text allowedSpecial matches [] _) as [[r e]|e];
        [|reflexivity].
      cbn. rewrite <- !app_assoc. reflexivity.
Qed.

Lemma encode_matches_shift enc pre rest allowedSpecial matches tokens lastEnd :
  0 <= lastEnd ->
  Encoding.encode_matches enc (pre ++ rest) allowedSpecial (shift_match (length pre) <$> matches)
    tokens (Z.of_nat (length pre) + lastEnd)
  = ('(tokens, final) ← Encoding.encode_matches enc rest allowedSpecial matches tokens lastEnd;
     Ok (tokens, Z.of_nat (length pre) + final)).
Proof.
  revert tokens lastEnd. induction matches as [|[i t] matches IH]; intros tokens lastEnd Hlast.
  - reflexivity.
  - rewrite fmap_cons. unfold shift_match at 1. cbn [fst snd Encoding.encode_matches].
    destruct (Encoding.isAllowed allowedSpecial t); [|apply IH; assumption].
    replace (Z.of_nat (length pre + i)) with (Z.of_nat (length pre) + Z.of_nat i) by lia.
    rewrite slice_shift by lia.
    rewrite (bool_decide_ext (Z.of_nat (length pre) + lastEnd < Z.of_nat (length pre) + Z.of_nat i)
               (lastEnd < Z.of_nat i)) by lia.
    destruct (if bool_decide (lastEnd < Z.of_nat i)
              then before ← Encoding.ordinary_arguments enc (slice rest lastEnd (Z.of_nat i));
                   Ok (tokens ++ before)
              else Ok tokens) as [tokens'|e]; [|reflexivity].
    cbn [mbind result_bind].
    destruct (get_property _ t); try reflexivity.
    rewrite <- Z.add_assoc. apply IH. lia.
Qed.

Lemma own_property_key obj key id : own_property obj key = Some id -> key ∈ obj.*1.
Proof.
  induction obj as [|[k v] obj IH]; [discriminate|]. cbn [own_property].
  case_decide as Hk.
  - intros _. subst k. left.
  - intros Hrest. right. apply IH. assumption.
Qed.

Lemma constructor_fields engine name patStr mergeableRanks specialTokens enc :
  Encoding.constructor engine name patStr mergeableRanks specialTokens = Ok enc ->
  Encoding._mergeableRanks enc = mergeableRanks /\
  Encoding._specialTokens enc = specialTokens /\
  Encoding._specialPattern enc
    = (if decide (0 < length specialTokens)%nat then Some specialTokens.*1 else None) /\
  (exists pattern, RegExp_gu engine patStr = Some pattern /\ Encoding._pattern enc = pattern) /\
  Encoding.build_decoder mergeableRanks ∅ = Ok (Encoding._decoder enc).
Proof.
  unfold Encoding.constructor.
  destruct (Encoding.build_decoder mergeableRanks ∅) as [decoder|]; [|discriminate].
  cbn [mbind result_bind]. destruct (RegExp_gu engine patStr) as [pattern|]; [|discriminate].
  destruct (Encoding.max_or_minus_one engine mergeableRanks.*2); [|discriminate].
  cbn [mbind result_bind].
  destruct (Encoding.max_or_minus_one engine specialTokens.*2); [|discriminate].
  intros [= <-]. cbn. eauto 10.
Qed.

Lemma constructor_engine engine name patStr mergeableRanks specialTokens enc :
  Encoding.constructor engine name patStr mergeableRanks specialTokens = Ok enc ->
  Encoding._engine enc = engine.
Proof.
  unfold Encoding.constructor.
  destruct (Encoding.build_decoder mergeableRanks ∅) as [decoder|]; [|discriminate].
  cbn [mbind result_bind]. destruct (RegExp_gu engine patStr) as [pattern|]; [|discriminate].
  destruct (Encoding.max_or_minus_one engine mergeableRanks.*2); [|discriminate].
  cbn [mbind result_bind].
  destruct (Encoding.max_or_minus_one engine specialTokens.*2); [|discriminate].
  intros [= <-]. reflexivity.
Qed.

(** Above the engine's limit the spread of the ranks into [Math.max]
    throws, whatever the table. *)
Lemma constructor_above_limit engine name patStr pattern table specialTokens :
  RegExp_gu engine patStr = Some pattern ->
  (max_arguments engine < N.of_nat (length table))%N ->
  Encoding.constructor engine name patStr (keyed table) specialTokens
    = Throw ArgumentsRangeError.
Proof.
  intros Hpattern Hmany. unfold Encoding.constructor.
  rewrite build_decoder_keyed, Hpattern. cbn [mbind result_bind].
  assert (Hlength : length (keyed table).*2 = length table)
    by (unfold keyed; rewrite !length_fmap; reflexivity).
  assert (Hsome : (0 < length (keyed table).*2)%nat).
  { rewrite Hlength. destruct table; [cbn in Hmany; lia|cbn [length]; lia]. }
  assert (Hthrows : Encoding.max_or_minus_one engine (keyed table).*2
                    = Throw ArgumentsRangeError).
  { unfold Encoding.max_or_minus_one. rewrite (decide_True _ _ Hsome).
    unfold spread. rewrite Hlength, (proj2 (N.leb_gt _ _) Hmany). reflexivity. }
  rewrite Hthrows. reflexivity.
Qed.

Lemma encode_matches_app enc text allowedSpecial skipped matches tokens lastEnd :
  Forall (fun m => Encoding.isAllowed allowedSpecial m.2 = false) skipped ->
  Encoding.encode_matches enc text allowedSpecial (skipped ++ matches) tokens lastEnd
  = Encoding.encode_matches enc text allowedSpecial matches tokens lastEnd.
Proof.
  induction 1 as [|[i t] skipped Ht _ IH]; [reflexivity|].
  cbn [app Encoding.encode_matches]. cbn [snd] in Ht. rewrite Ht. exact IH.
Qed.

Lemma isAllowed_default allowedSpecial t :
  Encoding.isAllowed
    match allowedSpecial with Encoding.NotGiven => Encoding.SetOf [] | given => given end t
  = Encoding.isAllowed allowedSpecial t.
Proof. destruct allowedSpecial; reflexivity. Qed.

Lemma is_empty_set_isAllowed allowedSpecial t :
  Encoding.is_empty_set allowedSpecial = true -> Encoding.isAllowed allowedSpecial t = false.
Proof. destruct allowedSpecial as [| |[|u allowed]]; try discriminate. reflexivity. Qed.

Lemma disallowed_set_effective enc allowedSpecial disallowedSpecial :
  Encoding.disallowed_set enc
    match allowedSpecial with Encoding.NotGiven => Encoding.SetOf [] | given => given end
    match disallowedSpecial with Encoding.NotGiven => Encoding.AllSpecial | given => given end
  = effective_disallowed (Encoding._specialTokens enc) allowedSpecial disallowedSpecial.
Proof.
  assert (Hall : forall keys : list jsstring,
            filter (fun t => Encoding.not_allowed Encoding.AllSpecial t = true) keys = []).
  { intros keys. induction keys as [|t keys IH]; [reflexivity|].
    rewrite filter_cons_False by (cbn; discriminate). exact IH. }
  assert (Hset : forall allowed (keys : list jsstring),
            filter (fun t => Encoding.not_allowed (Encoding.SetOf allowed) t = true) keys
            = filter (fun t => t ∉ allowed) keys).
  { intros allowed keys. apply list_filter_iff. intros t.
    cbn [Encoding.not_allowed]. unfold Encoding.set_has.
    rewrite negb_true_iff, bool_decide_eq_false. reflexivity. }
  assert (Hempty : forall keys : list jsstring,
            filter (fun t => Encoding.not_allowed (Encoding.SetOf []) t = true) keys = keys).
  { intros keys. rewrite Hset. apply Base64Facts.filter_all.
    apply Forall_forall. intros t _. apply not_elem_of_nil. }
  destruct allowedSpecial, disallowedSpecial;
    cbn [Encoding.disallowed_set effective_disallowed]; auto.
Qed.

Lemma find_disallowed_none (disallowed : list jsstring) text :
  (forall t, t ∈ disallowed -> ~ occurs_in t text) ->
  list_find (fun token => includes text token = true) disallowed = None.
Proof.
  intros Hclean. apply list_find_None, Forall_forall. intros t Ht Hincl.
  apply (Hclean t Ht), includes_spec, Hincl.
Qed.

Lemma slice_all {A} (xs : list A) : slice xs 0 (Z.of_nat (length xs)) = xs.
Proof. rewrite MergeFacts.slice_prefix. apply firstn_all. Qed.

Lemma encode_disallowed enc text allowedSpecial disallowedSpecial token :
  text <> [] ->
  token ∈ effective_disallowed (Encoding._specialTokens enc) allowedSpecial disallowedSpecial ->
  occurs_in token text ->
  exists k offending,
    effective_disallowed (Encoding._specialTokens enc) allowedSpecial disallowedSpecial !! k
      = Some offending /\
    occurs_in offending text /\
    (forall j t,
       effective_disallowed (Encoding._specialTokens enc) allowedSpecial disallowedSpecial !! j
         = Some t ->
       (j < k)%nat -> ~ occurs_in t text) /\
    Encoding.encode enc text allowedSpecial disallowedSpecial
      = Throw (DisallowedSpecialToken offending).
Proof.
  intros Htext Hin Hoccurs. unfold Encoding.encode.
  destruct text as [|c text]; [congruence|].
  rewrite disallowed_set_effective.
  destruct (list_find _ _) as [[k offending]|] eqn:Hfind.
  - apply list_find_Some in Hfind as (Hk & Hincl & Hfirst).
    exists k, offending. split; [assumption|].
    split; [apply includes_spec; assumption|]. split; [|reflexivity].
    intros j t Hj Hlt Hocc. apply (Hfirst j t Hj Hlt). apply includes_spec. assumption.
  - apply list_find_None in Hfind.
    pose proof (proj1 (Forall_forall _ _) Hfind token Hin) as Hnot.
    exfalso. apply Hnot. apply includes_spec. assumption.
Qed.

Lemma first_allowed_match_none specialTokens allowedSpecial text :
  (forall t, t ∈ specialTokens.*1 -> allows allowedSpecial t -> ~ occurs_in t text) ->
  first_allowed_match specialTokens allowedSpecial text = None.
Proof.
  intros Hnone. unfold first_allowed_match. apply fmap_None, list_find_None, Forall_forall.
  intros [i t] Hin Hallowed. cbn [snd] in Hallowed.
  apply matchAll_elem in Hin as [Hkey Hoccurs].
  apply (Hnone t Hkey); [apply isAllowed_allows|]; assumption.
Qed.

Lemma encode_ordinary_only engine name patStr mergeableRanks specialTokens enc
    text allowedSpecial disallowedSpecial :
  Encoding.constructor engine name patStr mergeableRanks specialTokens = Ok enc ->
  (forall t, t ∈ effective_disallowed specialTokens allowedSpecial disallowedSpecial ->
     ~ occurs_in t text) ->
  first_allowed_match specialTokens allowedSpecial text = None ->
  Encoding.encode enc text allowedSpecial disallowedSpecial
    = if allows_nothing allowedSpecial || bool_decide (specialTokens = [])
      then Encoding.encodeOrdinary enc text
      else Encoding.ordinary_arguments enc text.
Proof.
  intros Hbuilt Hclean Hnone.
  destruct (constructor_fields _ _ _ _ _ _ Hbuilt) as (_ & Hspecials & Hpattern & _).
  unfold Encoding.encode. destruct text as [|c rest] eqn:Hshape.
  { rewrite ordinary_arguments_nil. destruct (_ || _); reflexivity. }
  rewrite <- Hshape in *.
  rewrite disallowed_set_effective, Hspecials, find_disallowed_none by assumption.
  assert (Hset : Encoding.is_empty_set
                   match allowedSpecial with
                   | Encoding.NotGiven => Encoding.SetOf []
                   | given => given
                   end = allows_nothing allowedSpecial)
    by (destruct allowedSpecial as [| |[|u allowed]]; reflexivity).
  rewrite Hset. destruct (allows_nothing allowedSpecial); [reflexivity|]. cbn [orb].
  rewrite Hpattern. case_decide as Hsome.
  - rewrite bool_decide_eq_false_2 by (intros ->; cbn in Hsome; lia).
    unfold first_allowed_match in Hnone. apply fmap_None, list_find_None in Hnone.
    rewrite <- (app_nil_r (Encoding.matchAll _ _ _ _)), encode_matches_app.
    + cbn [Encoding.encode_matches mbind result_bind].
      rewrite bool_decide_eq_true_2 by (rewrite Hshape; cbn [length]; lia).
      rewrite slice_all. destruct (Encoding.ordinary_arguments enc text); reflexivity.
    + eapply Forall_impl; [exact Hnone|]. intros [i t] Ht. cbn [snd] in *.
      rewrite isAllowed_default. apply not_true_is_false. exact Ht.
  - rewrite bool_decide_eq_true_2; [reflexivity|].
    destruct specialTokens; [reflexivity|cbn in Hsome; lia].
Qed.

Lemma encode_first_allowed engine name patStr mergeableRanks specialTokens enc
    text allowedSpecial disallowedSpecial token id before after :
  Encoding.constructor engine name patStr mergeableRanks specialTokens = Ok enc ->
  (forall t, t ∈ effective_disallowed specialTokens allowedSpecial disallowedSpecial ->
     ~ occurs_in t text) ->
  [] ∉ specialTokens.*1 ->
  own_property specialTokens token = Some id ->
  text = before ++ token ++ after ->
  first_allowed_match specialTokens allowedSpecial text = Some (length before, token) ->
  Encoding.encode enc text allowedSpecial disallowedSpecial
    = (tokensBefore ← Encoding.ordinary_arguments enc before;
       tokensAfter ← Encoding.encode enc after allowedSpecial disallowedSpecial;
       Ok (tokensBefore ++ [id] ++ tokensAfter)).
Proof.
  intros Hbuilt Hclean Hempty Hid Heq Hfirst.
  destruct (constructor_fields _ _ _ _ _ _ Hbuilt) as (_ & Hspecials & Hpattern & _).
  pose proof (own_property_key _ _ _ Hid) as Hkey.
  assert (Htoken : token <> []) by (intros ->; contradiction).
  assert (Hsome : Encoding._specialPattern enc = Some specialTokens.*1).
  { rewrite Hpattern. rewrite decide_True; [reflexivity|].
    destruct specialTokens; [inversion Hkey|cbn; lia]. }
  (* the scan: skipped matches, this match, the matches of [after] *)
  unfold first_allowed_match in Hfirst.
  apply fmap_Some in Hfirst as ([n m] & Hfind & Hm). cbn [snd] in Hm. subst m.
  apply list_find_Some in Hfind as (Hn & Hallowed & Hskipped). cbn [snd] in Hallowed.
  pose proof (take_drop_middle _ _ _ Hn) as Hsplit. symmetry in Hsplit.
  destruct (matchAll_split _ _ _ _ _ _ _ _ Hsplit Htoken) as (_ & _ & Hafter).
  assert (Hdrop : drop (length before + length token) text = after).
  { rewrite Heq, app_assoc, <- length_app. apply drop_app_length. }
  rewrite Nat.sub_0_r, Hdrop, (matchAll_shift _ after) in Hafter. clear Hdrop.
  assert (Hskip : Forall (fun m => Encoding.isAllowed
                    match allowedSpecial with
                    | Encoding.NotGiven => Encoding.SetOf []
                    | given => given
                    end m.2 = false)
                    (take n (Encoding.matchAll specialTokens.*1 text 0 0))).
  { apply Forall_forall. intros m Hin. rewrite isAllowed_default.
    apply list_elem_of_lookup_1 in Hin as [j Hj].
    pose proof (lookup_lt_Some _ _ _ Hj) as Hlt. rewrite length_take in Hlt.
    rewrite lookup_take_lt in Hj by lia.
    apply not_true_is_false. apply (Hskipped j m Hj). lia. }
  assert (Hnonempty : Encoding.is_empty_set
                        match allowedSpecial with
                        | Encoding.NotGiven => Encoding.SetOf []
                        | given => given
                        end = false).
  { destruct (Encoding.is_empty_set _) eqn:Hset; [|reflexivity].
    apply (is_empty_set_isAllowed _ token) in Hset.
    rewrite isAllowed_default in Hset. congruence. }
  (* the call on the text *)
  unfold Encoding.encode at 1. destruct text as [|c rest] eqn:Hshape.
  { symmetry in Heq. apply app_eq_nil in Heq as [_ Heq].
    apply app_eq_nil in Heq as [Heq _]. congruence. }
  rewrite <- Hshape in *.
  rewrite disallowed_set_effective, Hspecials, find_disallowed_none by assumption.
  rewrite Hnonempty, Hsome, Hsplit, encode_matches_app by assumption.
  cbn [Encoding.encode_matches]. rewrite isAllowed_default, Hallowed.
  unfold get_property. rewrite Hspecials, Hid.
  assert (Hbefore : (if bool_decide (0 < Z.of_nat (length before))
                     then tokens ← Encoding.ordinary_arguments enc
                                      (slice text 0 (Z.of_nat (length before)));
                          Ok ([] ++ tokens)
                     else Ok [])
                    = Encoding.ordinary_arguments enc before).
  { destruct before as [|b before'] eqn:Hb; [rewrite ordinary_arguments_nil; reflexivity|].
    rewrite bool_decide_eq_true_2 by (cbn [length]; lia).
    rewrite Heq, slice_app_l.
    destruct (Encoding.ordinary_arguments enc (b :: before')); reflexivity. }
  rewrite Hbefore. clear Hbefore.
  destruct (Encoding.ordinary_arguments enc before) as [tokensBefore|e]; [|reflexivity].
  cbn [mbind result_bind]. rewrite Hafter. clear Hshape Hsplit Hn Hskipped Hskip Hafter.
  subst text. rewrite !(app_assoc before token after).
  replace (length before + length token)%nat with (length (before ++ token))
    by (rewrite length_app; reflexivity).
  replace (Z.of_nat (length before) + Z.of_nat (length token))
    with (Z.of_nat (length (before ++ token)) + 0) by (rewrite length_app; lia).
  set (pre := before ++ token) in *.
  rewrite encode_matches_shift, encode_matches_acc by lia.
  assert (Hclean' : forall t,
            t ∈ effective_disallowed specialTokens allowedSpecial disallowedSpecial ->
            ~ occurs_in t after).
  { intros t Ht (l & r & ->). apply (Hclean t Ht). exists ((before ++ token) ++ l), r.
    rewrite <- !app_assoc. reflexivity. }
  unfold Encoding.encode. destruct after as [|a after'] eqn:Hshape.
  - cbn [Encoding.matchAll].
    rewrite (proj2 (list_find_None _ _)).
    2:{ apply Forall_forall. intros t Ht [post Hpost]. symmetry in Hpost.
        apply app_eq_nil in Hpost as [-> _]. contradiction. }
    cbn [Encoding.encode_matches mbind result_bind].
    rewrite bool_decide_eq_false_2 by (rewrite app_nil_r; lia).
    rewrite !app_nil_r. reflexivity.
  - rewrite <- Hshape in *.
    rewrite disallowed_set_effective, Hspecials, find_disallowed_none by assumption.
    rewrite Hnonempty, Hsome.
    destruct (Encoding.encode_matches enc after _ _ [] 0) as [[tokens final]|e] eqn:Hloop;
      [|reflexivity].
    cbn [mbind result_bind].
    apply encode_matches_lastEnd in Hloop; [|lia].
    rewrite length_app, Nat2Z.inj_add, slice_shift by lia.
    rewrite (bool_decide_ext (Z.of_nat (length pre) + final
                                < Z.of_nat (length pre) + Z.of_nat (length after))
               (final < Z.of_nat (length after))) by lia.
    case_bool_decide.
    + destruct (Encoding.ordinary_arguments enc _) as [remaining|e]; [|reflexivity].
      cbn [mbind result_bind]. rewrite <- !app_assoc. reflexivity.
    + cbn [mbind result_bind]. rewrite <- !app_assoc. reflexivity.
Qed.

(** *** From an occurrence to a match *)

Lemma matchAll_first_occurrence keys before token after i :
  first_occurrence keys before token after ->
  exists rest,
    Encoding.matchAll keys (before ++ token ++ after) i 0 = (i + length before, token)%nat :: rest.
Proof.
  revert i. induction before as [|c before IH]; intros i [Hearlier (k & Hk & Horder)].
  - cbn [app length]. rewrite Nat.add_0_r.
    assert (Hfind : list_find (fun t => t `prefix_of` token ++ after) keys = Some (k, token)).
    { apply list_find_Some. split; [assumption|]. split; [apply prefix_app_r; reflexivity|].
      intros j t Hj Hlt. apply (Horder j t Hj Hlt). }
    destruct (token ++ after) as [|d rest] eqn:Hrest; cbn [Encoding.matchAll];
      rewrite Hfind; eauto.
  - cbn [app length Encoding.matchAll].
    assert (Hfind : list_find (fun t => t `prefix_of` c :: before ++ token ++ after) keys = None).
    { apply list_find_None, Forall_forall. intros t Ht.
      apply (Hearlier 0%nat t); [cbn [length]; lia|assumption]. }
    rewrite Hfind. destruct (IH (S i)) as [rest Hrest].
    + split; [|eauto]. intros p t Hp Ht. apply (Hearlier (S p) t); [cbn [length]; lia|assumption].
    + exists rest. rewrite Hrest. do 2 f_equal. lia.
Qed.

Lemma first_allowed_match_occurrence specialTokens allowedSpecial before token after :
  first_occurrence specialTokens.*1 before token after ->
  allows allowedSpecial token ->
  first_allowed_match specialTokens allowedSpecial (before ++ token ++ after)
    = Some (length before, token).
Proof.
  intros Hfirst Hallowed. unfold first_allowed_match.
  destruct (matchAll_first_occurrence _ _ _ _ 0%nat Hfirst) as [rest ->].
  cbn [list_find]. rewrite decide_True; [reflexivity|].
  cbn [snd]. apply isAllowed_allows. assumption.
Qed.

Lemma first_allowed_match_some specialTokens allowedSpecial text i token :
  [] ∉ specialTokens.*1 ->
  first_allowed_match specialTokens allowedSpecial text = Some (i, token) ->
  token ∈ specialTokens.*1 /\
  exists before after, text = before ++ token ++ after /\ length before = i.
Proof.
  intros Hempty Hfirst. unfold first_allowed_match in Hfirst.
  apply fmap_Some in Hfirst as ([n m] & Hfind & Hm). cbn [snd] in Hm. subst m.
  apply list_find_Some in Hfind as (Hn & _ & _).
  assert (Hkey : token ∈ specialTokens.*1).
  { apply list_elem_of_lookup_2 in Hn. apply matchAll_elem in Hn as [Hkey _]. exact Hkey. }
  split; [exact Hkey|].
  assert (Htoken : token <> []) by (intros ->; contradiction).
  pose proof (take_drop_middle _ _ _ Hn) as Hsplit. symmetry in Hsplit.
  destruct (matchAll_split _ _ _ _ _ _ _ _ Hsplit Htoken) as (_ & [after Hafter] & _).
  rewrite Nat.sub_0_r in Hafter.
  exists (take i text), after. split.
  - rewrite <- Hafter. symmetry. apply take_drop.
  - apply length_take_le.
    destruct (decide (i <= length text)%nat) as [|Hlong]; [assumption|].
    rewrite drop_ge in Hafter by lia. destruct token; [congruence|discriminate].
Qed.

(** *** When [encode] returns *)

Lemma ordinary_arguments_Ok enc text tokens :
  Encoding.ordinary_arguments enc text = Ok tokens ->
  Encoding.encodeOrdinary enc text = Ok tokens.
Proof.
  unfold Encoding.ordinary_arguments.
  destruct (Encoding.encodeOrdinary enc text) as [tokens'|]; [|discriminate].
  cbn [mbind result_bind]. intros Hspread. apply spread_Ok in Hspread as [-> _]. reflexivity.
Qed.

Lemma encode_returns engine name patStr mergeableRanks specialTokens enc
    text allowedSpecial disallowedSpecial :
  Encoding.constructor engine name patStr mergeableRanks specialTokens = Ok enc ->
  [] ∉ specialTokens.*1 ->
  (forall s, occurs_in s text -> is_Ok (Encoding.ordinary_arguments enc s)) ->
  forall s, occurs_in s text ->
    (forall t, t ∈ effective_disallowed specialTokens allowedSpecial disallowedSpecial ->
       ~ occurs_in t s) ->
    is_Ok (Encoding.encode enc s allowedSpecial disallowedSpecial).
Proof.
  intros Hbuilt Hempty Hparts s.
  remember (length s) as n eqn:Hlen. revert s Hlen.
  induction n as [n IH] using lt_wf_ind. intros s Hlen Hin Hclean.
  destruct (first_allowed_match specialTokens allowedSpecial s) as [[i token]|] eqn:Hfirst.
  - destruct (first_allowed_match_some _ _ _ _ _ Hempty Hfirst)
      as (Hkey & before & after & Heq & Hi).
    subst i.
    assert (Hid : exists id, own_property specialTokens token = Some id).
    { clear -Hkey. induction specialTokens as [|[k v] obj IHobj]; [inversion Hkey|].
      cbn [own_property]. case_decide as Hk; [eauto|].
      cbn in Hkey. apply elem_of_cons in Hkey as [->|Hkey]; [contradiction|]. auto. }
    destruct Hid as [id Hid].
    rewrite (encode_first_allowed _ _ _ _ _ _ _ _ _ _ _ _ _ Hbuilt Hclean Hempty Hid Heq Hfirst).
    destruct Hin as (l & r & Htext).
    destruct (Hparts before) as [tokensBefore ->].
    { exists l, (token ++ after ++ r). rewrite Htext, Heq, <- !app_assoc. reflexivity. }
    destruct (IH (length after)) with (s := after) as [tokensAfter ->]; try reflexivity.
    { rewrite Hlen, Heq, !length_app.
      destruct token; [contradiction Hempty; assumption|cbn [length]; lia]. }
    { exists (l ++ before ++ token), r. rewrite Htext, Heq, <- !app_assoc. reflexivity. }
    { intros t Ht (l' & r' & ->). apply (Hclean t Ht).
      exists (before ++ token ++ l'), r'. rewrite Heq, <- !app_assoc. reflexivity. }
    cbn [mbind result_bind]. eexists. reflexivity.
  - rewrite (encode_ordinary_only _ _ _ _ _ _ _ _ _ Hbuilt Hclean Hfirst).
    destruct (Hparts s Hin) as [tokens Htokens].
    destruct (_ || _); [|eauto]. exists tokens. apply ordinary_arguments_Ok. assumption.
Qed.

End EncodingFacts.


(** ** UTF-8 and UTF-16 *)

Module UtfFacts.
Import Readings Base64Facts.

#[local] Open Scope N_scope.

Ltac split_compare :=
  repeat match goal with
         | |- context [N.ltb ?a ?b] => destruct (N.ltb_spec a b)
         | |- context [N.leb ?a ?b] => destruct (N.leb_spec a b)
         | |- context [N.eqb ?a ?b] => destruct (N.eqb_spec a b)
         | |- _ => progress cbn [andb negb]
         end.

Lemma land_31 b : N.land b 0x1F = b mod 32.
Proof. exact (land_mask b 5). Qed.

Lemma land_7 b : N.land b 0x7 = b mod 8.
Proof. exact (land_mask b 3). Qed.

Lemma land_1023 b : N.land b 0x3FF = b mod 1024.
Proof. exact (land_mask b 10). Qed.

(** *** The handler, case by case *)

Lemma handler_ascii b :
  b <= 0x7F -> utf8_handler utf8_decoder_start b = CodePoint b utf8_decoder_start.
Proof. intros Hb. unfold utf8_handler. cbn. split_compare; try lia. reflexivity. Qed.

Lemma handler_lead2 b :
  0xC2 <= b <= 0xDF ->
  utf8_handler utf8_decoder_start b =
    Continue {| code_point := b mod 32; bytes_seen := 0; bytes_needed := 1;
                lower_boundary := 0x80; upper_boundary := 0xBF |}.
Proof.
  intros Hb. unfold utf8_handler. cbn. rewrite land_31.
  split_compare; try lia. reflexivity.
Qed.

Lemma handler_lead3 b :
  0xE0 <= b <= 0xEF ->
  utf8_handler utf8_decoder_start b =
    Continue {| code_point := b mod 16; bytes_seen := 0; bytes_needed := 2;
                lower_boundary := if b =? 0xE0 then 0xA0 else 0x80;
                upper_boundary := if b =? 0xED then 0x9F else 0xBF |}.
Proof.
  intros Hb. unfold utf8_handler. cbn. rewrite land_15.
  destruct (N.leb_spec b 0x7F); [lia|].
  destruct (N.leb_spec 0xC2 b); [|lia]. destruct (N.leb_spec b 0xDF); [lia|].
  destruct (N.leb_spec 0xE0 b); [|lia]. destruct (N.leb_spec b 0xEF); [|lia].
  reflexivity.
Qed.

Lemma handler_lead4 b :
  0xF0 <= b <= 0xF4 ->
  utf8_handler utf8_decoder_start b =
    Continue {| code_point := b mod 8; bytes_seen := 0; bytes_needed := 3;
                lower_boundary := if b =? 0xF0 then 0x90 else 0x80;
                upper_boundary := if b =? 0xF4 then 0x8F else 0xBF |}.
Proof.
  intros Hb. unfold utf8_handler. cbn. rewrite land_7.
  destruct (N.leb_spec b 0x7F); [lia|].
  destruct (N.leb_spec 0xC2 b); [|lia]. destruct (N.leb_spec b 0xDF); [lia|].
  destruct (N.leb_spec 0xE0 b); [|lia]. destruct (N.leb_spec b 0xEF); [lia|].
  destruct (N.leb_spec 0xF0 b); [|lia]. destruct (N.leb_spec b 0xF4); [|lia].
  reflexivity.
Qed.

Lemma handler_continuation d r :
  bytes_needed d <> 0 -> r < 64 ->
  lower_boundary d <= 0x80 + r <= upper_boundary d ->
  utf8_handler d (0x80 + r) =
    if bytes_seen d + 1 =? bytes_needed d
    then CodePoint (code_point d * 64 + r) utf8_decoder_start
    else Continue {| code_point := code_point d * 64 + r;
                     bytes_seen := bytes_seen d + 1;
                     bytes_needed := bytes_needed d;
                     lower_boundary := 0x80; upper_boundary := 0xBF |}.
Proof.
  intros Hneeded Hr Hbounds. unfold utf8_handler.
  destruct (N.eqb_spec (bytes_needed d) 0); [congruence|].
  destruct (N.leb_spec (lower_boundary d) (0x80 + r)); [|lia].
  destruct (N.leb_spec (0x80 + r) (upper_boundary d)); [|lia].
  cbn [andb negb].
  assert (Hcp : N.lor (N.shiftl (code_point d) 6) (N.land (0x80 + r) 0x3F)
                = code_point d * 64 + r).
  { rewrite land_63. replace ((0x80 + r) mod 64) with r by lia.
    rewrite lor_shiftl_add by (change (2 ^ 6) with 64; lia). reflexivity. }
  rewrite Hcp. destruct (bytes_seen d + 1 =? bytes_needed d); reflexivity.
Qed.

(** *** The bytes of the encoder *)

Lemma continuation_value cp k :
  Byte.to_N (utf8_continuation cp k) = 0x80 + (cp / 2 ^ k) mod 64.
Proof.
  unfold utf8_continuation. rewrite to_N_to_uint8, land_63, N.shiftr_div_pow2.
  set (r := (cp / 2 ^ k) mod 64).
  assert (Hr : r < 64) by (apply N.mod_lt; discriminate). clearbody r.
  replace (N.lor 0x80 r) with (0x80 + r).
  - apply N.mod_small. lia.
  - symmetry. apply (lor_shiftl_add 2 6 r). exact Hr.
Qed.

(** *** Decoding the bytes of one scalar value *)

Section Decode.
Context (fatal : bool).

Lemma decode_continue d d' b rest :
  utf8_handler d (Byte.to_N b) = Continue d' ->
  utf8_decode fatal d (b :: rest) = utf8_decode fatal d' rest.
Proof. intros Hstep. cbn [utf8_decode]. rewrite Hstep. reflexivity. Qed.

Lemma decode_code_point d d' b cp rest :
  utf8_handler d (Byte.to_N b) = CodePoint cp d' ->
  utf8_decode fatal d (b :: rest) = cons cp <$> utf8_decode fatal d' rest.
Proof. intros Hstep. cbn [utf8_decode]. rewrite Hstep. reflexivity. Qed.

Lemma handler_lead2_value q :
  2 <= q <= 31 ->
  utf8_handler utf8_decoder_start (0xC0 + q) =
    Continue {| code_point := q; bytes_seen := 0; bytes_needed := 1;
                lower_boundary := 0x80; upper_boundary := 0xBF |}.
Proof.
  intros Hq. rewrite handler_lead2 by lia.
  replace ((0xC0 + q) mod 32) with q; [reflexivity|].
  apply (N.mod_unique _ _ 6); lia.
Qed.

Lemma handler_lead3_value q :
  q <= 15 ->
  utf8_handler utf8_decoder_start (0xE0 + q) =
    Continue {| code_point := q; bytes_seen := 0; bytes_needed := 2;
                lower_boundary := if q =? 0 then 0xA0 else 0x80;
                upper_boundary := if q =? 13 then 0x9F else 0xBF |}.
Proof.
  intros Hq. rewrite handler_lead3 by lia.
  replace ((0xE0 + q) mod 16) with q by (apply (N.mod_unique _ _ 14); lia).
  destruct (N.eqb_spec (0xE0 + q) 0xE0), (N.eqb_spec q 0); try lia;
    destruct (N.eqb_spec (0xE0 + q) 0xED), (N.eqb_spec q 13); try lia; reflexivity.
Qed.

Lemma handler_lead4_value q :
  q <= 4 ->
  utf8_handler utf8_decoder_start (0xF0 + q) =
    Continue {| code_point := q; bytes_seen := 0; bytes_needed := 3;
                lower_boundary := if q =? 0 then 0x90 else 0x80;
                upper_boundary := if q =? 4 then 0x8F else 0xBF |}.
Proof.
  intros Hq. rewrite handler_lead4 by lia.
  replace ((0xF0 + q) mod 8) with q by (apply (N.mod_unique _ _ 30); lia).
  destruct (N.eqb_spec (0xF0 + q) 0xF0), (N.eqb_spec q 0); try lia;
    destruct (N.eqb_spec (0xF0 + q) 0xF4), (N.eqb_spec q 4); try lia; reflexivity.
Qed.

(** Decoding bytes whose values are given. *)
Lemma decode_two_values b1 b2 q r rest :
  Byte.to_N b1 = 0xC0 + q -> Byte.to_N b2 = 0x80 + r ->
  2 <= q <= 31 -> r < 64 ->
  utf8_decode fatal utf8_decoder_start (b1 :: b2 :: rest)
    = cons (q * 64 + r) <$> utf8_decode fatal utf8_decoder_start rest.
Proof.
  intros Hb1 Hb2 Hq Hr.
  rewrite (decode_continue _ _ _ _ (eq_trans (f_equal _ Hb1) (handler_lead2_value q Hq))).
  apply decode_code_point. rewrite Hb2.
  rewrite handler_continuation; cbn; [reflexivity|discriminate|assumption|lia].
Qed.

Lemma decode_three_values b1 b2 b3 q r2 r1 rest :
  Byte.to_N b1 = 0xE0 + q -> Byte.to_N b2 = 0x80 + r2 -> Byte.to_N b3 = 0x80 + r1 ->
  q <= 15 -> r2 < 64 -> r1 < 64 ->
  (q = 0 -> 32 <= r2) -> (q = 13 -> r2 < 32) ->
  utf8_decode fatal utf8_decoder_start (b1 :: b2 :: b3 :: rest)
    = cons ((q * 64 + r2) * 64 + r1) <$> utf8_decode fatal utf8_decoder_start rest.
Proof.
  intros Hb1 Hb2 Hb3 Hq Hr2 Hr1 Hlow Hhigh.
  rewrite (decode_continue _ _ _ _ (eq_trans (f_equal _ Hb1) (handler_lead3_value q Hq))).
  erewrite decode_continue; cycle 1.
  { rewrite Hb2. rewrite handler_continuation;
      cbn [bytes_needed bytes_seen code_point lower_boundary upper_boundary];
      [reflexivity|discriminate|assumption|].
    destruct (N.eqb_spec q 0), (N.eqb_spec q 13); lia. }
  apply decode_code_point. rewrite Hb3.
  rewrite handler_continuation; cbn; [reflexivity|discriminate|assumption|lia].
Qed.

Lemma decode_four_values b1 b2 b3 b4 q r3 r2 r1 rest :
  Byte.to_N b1 = 0xF0 + q -> Byte.to_N b2 = 0x80 + r3 ->
  Byte.to_N b3 = 0x80 + r2 -> Byte.to_N b4 = 0x80 + r1 ->
  q <= 4 -> r3 < 64 -> r2 < 64 -> r1 < 64 ->
  (q = 0 -> 16 <= r3) -> (q = 4 -> r3 < 16) ->
  utf8_decode fatal utf8_decoder_start (b1 :: b2 :: b3 :: b4 :: rest)
    = cons (((q * 64 + r3) * 64 + r2) * 64 + r1)
        <$> utf8_decode fatal utf8_decoder_start rest.
Proof.
  intros Hb1 Hb2 Hb3 Hb4 Hq Hr3 Hr2 Hr1 Hlow Hhigh.
  rewrite (decode_continue _ _ _ _ (eq_trans (f_equal _ Hb1) (handler_lead4_value q Hq))).
  erewrite decode_continue; cycle 1.
  { rewrite Hb2. rewrite handler_continuation;
      cbn [bytes_needed bytes_seen code_point lower_boundary upper_boundary];
      [reflexivity|discriminate|assumption|].
    destruct (N.eqb_spec q 0), (N.eqb_spec q 4); lia. }
  erewrite decode_continue; cycle 1.
  { rewrite Hb3. rewrite handler_continuation; cbn; [reflexivity|discriminate|assumption|lia]. }
  apply decode_code_point. rewrite Hb4.
  rewrite handler_continuation; cbn; [reflexivity|discriminate|assumption|lia].
Qed.

(** The values of the bytes that the encoder writes. *)
Lemma lead_value cp k offset q :
  cp / 2 ^ k = q -> q + offset < 256 ->
  Byte.to_N (to_uint8 (N.shiftr cp k + offset)) = offset + q.
Proof.
  intros Hq Hlt. rewrite to_N_to_uint8, N.shiftr_div_pow2, Hq.
  rewrite N.mod_small by assumption. apply N.add_comm.
Qed.

Lemma continuation_value_of cp k q r :
  cp / 2 ^ k = q -> q mod 64 = r ->
  Byte.to_N (utf8_continuation cp k) = 0x80 + r.
Proof. intros Hq Hr. rewrite continuation_value, Hq, Hr. reflexivity. Qed.

Lemma decode_one_byte cp rest :
  cp <= 0x7F ->
  utf8_decode fatal utf8_decoder_start (utf8_encode_code_point cp ++ rest)
    = cons cp <$> utf8_decode fatal utf8_decoder_start rest.
Proof.
  intros Hcp. unfold utf8_encode_code_point.
  destruct (N.leb_spec cp 0x7F); [|lia]. cbn [app].
  apply decode_code_point. rewrite to_N_to_uint8, N.mod_small by lia.
  apply handler_ascii. assumption.
Qed.

Lemma decode_two_bytes cp rest :
  0x7F < cp <= 0x7FF ->
  utf8_decode fatal utf8_decoder_start (utf8_encode_code_point cp ++ rest)
    = cons cp <$> utf8_decode fatal utf8_decoder_start rest.
Proof.
  intros Hcp. unfold utf8_encode_code_point.
  destruct (N.leb_spec cp 0x7F); [lia|]. destruct (N.leb_spec cp 0x7FF); [|lia].
  cbn [app].
  pose proof (N.div_mod cp 64 ltac:(discriminate)) as Hcp1.
  pose proof (N.mod_lt cp 64 ltac:(discriminate)) as Hr1.
  assert (Hv1 : cp / 2 ^ 6 = cp / 64) by reflexivity.
  assert (Hv0 : cp / 2 ^ 0 = cp) by apply N.div_1_r.
  set (q1 := cp / 64) in *. set (r1 := cp mod 64) in *. clearbody q1 r1.
  rewrite (decode_two_values _ _ q1 r1).
  - do 2 f_equal. lia.
  - apply (lead_value _ _ _ _ Hv1). lia.
  - apply (continuation_value_of _ _ _ _ Hv0). rewrite Hcp1.
    symmetry. apply (N.mod_unique _ _ q1); lia.
  - lia.
  - assumption.
Qed.

Lemma decode_three_bytes cp rest :
  0x7FF < cp <= 0xFFFF -> is_scalar cp ->
  utf8_decode fatal utf8_decoder_start (utf8_encode_code_point cp ++ rest)
    = cons cp <$> utf8_decode fatal utf8_decoder_start rest.
Proof.
  intros Hcp Hscalar. unfold utf8_encode_code_point.
  destruct (N.leb_spec cp 0x7F); [lia|]. destruct (N.leb_spec cp 0x7FF); [lia|].
  destruct (N.leb_spec cp 0xFFFF); [|lia]. cbn [app].
  pose proof (N.div_mod cp 64 ltac:(discriminate)) as Hcp1.
  pose proof (N.mod_lt cp 64 ltac:(discriminate)) as Hr1.
  pose proof (N.div_mod (cp / 64) 64 ltac:(discriminate)) as Hcp2.
  pose proof (N.mod_lt (cp / 64) 64 ltac:(discriminate)) as Hr2.
  assert (Hv2 : cp / 2 ^ 12 = cp / 64 / 64) by (rewrite N.Div0.div_div; reflexivity).
  assert (Hv1 : cp / 2 ^ 6 = cp / 64) by reflexivity.
  assert (Hv0 : cp / 2 ^ 0 = cp) by apply N.div_1_r.
  set (q1 := cp / 64) in *. set (r1 := cp mod 64) in *.
  set (q2 := q1 / 64) in *. set (r2 := q1 mod 64) in *.
  assert (Hm1 : q1 mod 64 = r2) by reflexivity.
  clearbody q2 r2. clearbody q1 r1.
  unfold is_scalar in Hscalar.
  rewrite (decode_three_values _ _ _ q2 r2 r1).
  - do 2 f_equal. lia.
  - apply (lead_value _ _ _ _ Hv2). lia.
  - apply (continuation_value_of _ _ _ _ Hv1). exact Hm1.
  - apply (continuation_value_of _ _ _ _ Hv0). rewrite Hcp1.
    symmetry. apply (N.mod_unique _ _ q1); lia.
  - lia.
  - assumption.
  - assumption.
  - lia.
  - lia.
Qed.

Lemma decode_four_bytes cp rest :
  0xFFFF < cp <= 0x10FFFF ->
  utf8_decode fatal utf8_decoder_start (utf8_encode_code_point cp ++ rest)
    = cons cp <$> utf8_decode fatal utf8_decoder_start rest.
Proof.
  intros Hcp. unfold utf8_encode_code_point.
  destruct (N.leb_spec cp 0x7F); [lia|]. destruct (N.leb_spec cp 0x7FF); [lia|].
  destruct (N.leb_spec cp 0xFFFF); [lia|]. cbn [app].
  pose proof (N.div_mod cp 64 ltac:(discriminate)) as Hcp1.
  pose proof (N.mod_lt cp 64 ltac:(discriminate)) as Hr1.
  pose proof (N.div_mod (cp / 64) 64 ltac:(discriminate)) as Hcp2.
  pose proof (N.mod_lt (cp / 64) 64 ltac:(discriminate)) as Hr2.
  pose proof (N.div_mod (cp / 64 / 64) 64 ltac:(discriminate)) as Hcp3.
  pose proof (N.mod_lt (cp / 64 / 64) 64 ltac:(discriminate)) as Hr3.
  assert (Hv3 : cp / 2 ^ 18 = cp / 64 / 64 / 64) by (rewrite !N.Div0.div_div; reflexivity).
  assert (Hv2 : cp / 2 ^ 12 = cp / 64 / 64) by (rewrite N.Div0.div_div; reflexivity).
  assert (Hv1 : cp / 2 ^ 6 = cp / 64) by reflexivity.
  assert (Hv0 : cp / 2 ^ 0 = cp) by apply N.div_1_r.
  set (q1 := cp / 64) in *. set (r1 := cp mod 64) in *.
  set (q2 := q1 / 64) in *. set (r2 := q1 mod 64) in *.
  set (q3 := q2 / 64) in *. set (r3 := q2 mod 64) in *.
  assert (Hm2 : q2 mod 64 = r3) by reflexivity.
  assert (Hm1 : q1 mod 64 = r2) by reflexivity.
  clearbody q3 r3. clearbody q2 r2. clearbody q1 r1.
  rewrite (decode_four_values _ _ _ _ q3 r3 r2 r1).
  - do 2 f_equal. lia.
  - apply (lead_value _ _ _ _ Hv3). lia.
  - apply (continuation_value_of _ _ _ _ Hv2). exact Hm2.
  - apply (continuation_value_of _ _ _ _ Hv1). exact Hm1.
  - apply (continuation_value_of _ _ _ _ Hv0). rewrite Hcp1.
    symmetry. apply (N.mod_unique _ _ q1); lia.
  - lia.
  - assumption.
  - assumption.
  - assumption.
  - lia.
  - lia.
Qed.

Lemma utf8_decode_encode cp rest :
  is_scalar cp ->
  utf8_decode fatal utf8_decoder_start (utf8_encode_code_point cp ++ rest)
    = cons cp <$> utf8_decode fatal utf8_decoder_start rest.
Proof.
  intros Hscalar.
  destruct (N.le_gt_cases cp 0x7F); [apply decode_one_byte; assumption|].
  destruct (N.le_gt_cases cp 0x7FF); [apply decode_two_bytes; lia|].
  destruct (N.le_gt_cases cp 0xFFFF); [apply decode_three_bytes; [lia|assumption]|].
  apply decode_four_bytes. destruct Hscalar; lia.
Qed.
Lemma utf8_decode_encode_all cps :
  Forall is_scalar cps ->
  utf8_decode fatal utf8_decoder_start (cps ≫= utf8_encode_code_point) = Ok cps.
Proof.
  induction 1 as [|cp cps Hcp _ IH]; [reflexivity|].
  rewrite bind_cons, utf8_decode_encode by assumption. rewrite IH. reflexivity.
Qed.

End Decode.

(** *** Well-formed strings *)

Lemma well_formed_ind (P : jsstring -> Prop) :
  P [] ->
  (forall c rest,
     is_high_surrogate c = false -> is_low_surrogate c = false -> c <= 0xFFFF ->
     isWellFormed rest = true -> P rest -> P (c :: rest)) ->
  (forall c d rest,
     is_high_surrogate c = true -> is_low_surrogate d = true ->
     isWellFormed rest = true -> P rest -> P (c :: d :: rest)) ->
  forall s, isWellFormed s = true -> P s.
Proof.
  intros Hnil Hunit Hpair.
  assert (Hall : forall n s, (length s <= n)%nat -> isWellFormed s = true -> P s).
  { induction n as [|n IH]; intros s Hlen Hwf.
    - destruct s; [exact Hnil|cbn in Hlen; lia].
    - destruct s as [|c rest]; [exact Hnil|]. cbn [isWellFormed] in Hwf.
      destruct (is_high_surrogate c) eqn:Hhigh.
      + destruct rest as [|d rest]; [discriminate|].
        apply andb_true_iff in Hwf as [Hlow Hwf].
        apply Hpair; auto. apply IH; [cbn in *; lia|assumption].
      + apply andb_true_iff in Hwf as [Hwf Hrest].
        apply andb_true_iff in Hwf as [Hlow Hmax].
        apply negb_true_iff in Hlow. apply N.leb_le in Hmax.
        apply Hunit; auto. apply IH; [cbn in *; lia|assumption]. }
  intros s. apply (Hall (length s)). lia.
Qed.

Lemma scalar_values_unit c rest :
  is_high_surrogate c = false -> is_low_surrogate c = false ->
  scalar_values (c :: rest) = c :: scalar_values rest.
Proof. intros Hhigh Hlow. cbn [scalar_values]. rewrite Hhigh, Hlow. reflexivity. Qed.

Lemma scalar_values_pair c d rest :
  is_high_surrogate c = true -> is_low_surrogate d = true ->
  scalar_values (c :: d :: rest)
    = 0x10000 + N.shiftl (c - 0xD800) 10 + (d - 0xDC00) :: scalar_values rest.
Proof. intros Hhigh Hlow. cbn [scalar_values]. rewrite Hhigh, Hlow. reflexivity. Qed.

Lemma surrogate_bounds c d :
  is_high_surrogate c = true -> is_low_surrogate d = true ->
  0xD800 <= c <= 0xDBFF /\ 0xDC00 <= d <= 0xDFFF.
Proof.
  unfold is_high_surrogate, is_low_surrogate.
  rewrite !andb_true_iff, !N.leb_le. tauto.
Qed.

Lemma not_surrogate c :
  is_high_surrogate c = false -> is_low_surrogate c = false ->
  c < 0xD800 \/ 0xDFFF < c.
Proof.
  unfold is_high_surrogate, is_low_surrogate.
  rewrite !andb_false_iff, !N.leb_gt. lia.
Qed.

Lemma scalar_values_scalar s :
  isWellFormed s = true -> Forall is_scalar (scalar_values s).
Proof.
  revert s. apply (well_formed_ind (fun s => Forall is_scalar (scalar_values s)));
    [|intros c rest Hhigh Hlow Hmax _ IH|intros c d rest Hhigh Hlow _ IH].
  - constructor.
  - rewrite scalar_values_unit by assumption. constructor; [|assumption].
    unfold is_scalar. destruct (not_surrogate c Hhigh Hlow); lia.
  - rewrite scalar_values_pair by assumption. constructor; [|assumption].
    destruct (surrogate_bounds c d Hhigh Hlow). unfold is_scalar.
    rewrite N.shiftl_mul_pow2. change (2 ^ 10) with 1024. lia.
Qed.

Lemma utf16_decode_encode s :
  isWellFormed s = true -> scalar_values s ≫= utf16_encode_code_point = s.
Proof.
  revert s.
  apply (well_formed_ind (fun s => scalar_values s ≫= utf16_encode_code_point = s));
    [|intros c rest Hhigh Hlow Hmax _ IH|intros c d rest Hhigh Hlow _ IH].
  - reflexivity.
  - rewrite scalar_values_unit, bind_cons, IH by assumption.
    unfold utf16_encode_code_point. destruct (N.leb_spec c 0xFFFF); [reflexivity|lia].
  - rewrite scalar_values_pair, bind_cons, IH by assumption.
    destruct (surrogate_bounds c d Hhigh Hlow).
    unfold utf16_encode_code_point. rewrite N.shiftl_mul_pow2, N.shiftr_div_pow2, land_1023.
    change (2 ^ 10) with 1024.
    destruct (N.leb_spec (0x10000 + (c - 0xD800) * 1024 + (d - 0xDC00)) 0xFFFF); [lia|].
    cbn [app]. f_equal; [|f_equal]; lia.
Qed.

Lemma scalar_values_app s s' :
  isWellFormed s = true ->
  scalar_values (s ++ s') = scalar_values s ++ scalar_values s'.
Proof.
  revert s.
  apply (well_formed_ind
           (fun s => scalar_values (s ++ s') = scalar_values s ++ scalar_values s'));
    [|intros c rest Hhigh Hlow Hmax _ IH|intros c d rest Hhigh Hlow _ IH].
  - reflexivity.
  - cbn [app]. rewrite !scalar_values_unit, IH by assumption. reflexivity.
  - cbn [app]. rewrite !scalar_values_pair, IH by assumption. reflexivity.
Qed.

(** The text decoder, fatal or not, inverts the text encoder on well-formed
    strings. *)
Lemma TextDecoder_TextEncoder fatal s :
  isWellFormed s = true -> TextDecoder_decode fatal (TextEncoder_encode s) = Ok s.
Proof.
  intros Hwf. unfold TextDecoder_decode, TextEncoder_encode.
  rewrite utf8_decode_encode_all by (apply scalar_values_scalar; assumption).
  cbn [mbind result_bind]. rewrite utf16_decode_encode by assumption. reflexivity.
Qed.

Lemma TextEncoder_app s s' :
  isWellFormed s = true ->
  TextEncoder_encode (s ++ s') = TextEncoder_encode s ++ TextEncoder_encode s'.
Proof.
  intros Hwf. unfold TextEncoder_encode.
  rewrite scalar_values_app by assumption. apply bind_app.
Qed.

Lemma TextEncoder_concat pieces :
  Forall (fun piece => isWellFormed piece = true) pieces ->
  TextEncoder_encode (concat pieces) = concat (TextEncoder_encode <$> pieces).
Proof.
  induction 1 as [|piece pieces Hwf _ IH]; [reflexivity|].
  cbn [concat fmap list_fmap]. rewrite TextEncoder_app, IH by assumption. reflexivity.
Qed.

Lemma utf8_encode_nonempty cp : utf8_encode_code_point cp <> [].
Proof. unfold utf8_encode_code_point. split_compare; discriminate. Qed.

Lemma TextEncoder_nonempty s : s <> [] -> TextEncoder_encode s <> [].
Proof.
  intros Hs. unfold TextEncoder_encode.
  assert (Hcps : scalar_values s <> []).
  { destruct s as [|c rest]; [congruence|]. cbn [scalar_values].
    destruct (is_high_surrogate c); [destruct rest as [|d rest]|];
      repeat match goal with |- context [if ?b then _ else _] => destruct b end;
      discriminate. }
  destruct (scalar_values s) as [|cp cps]; [congruence|].
  rewrite bind_cons. pose proof (utf8_encode_nonempty cp).
  destruct (utf8_encode_code_point cp); [congruence|discriminate].
Qed.

Lemma length_scalar_values s : (length (scalar_values s) <= length s)%nat.
Proof.
  assert (Hall : forall n s, (length s <= n)%nat ->
                             (length (scalar_values s) <= length s)%nat).
  { clear s. induction n as [|n IH]; intros s Hlen.
    - destruct s; [reflexivity|cbn in Hlen; lia].
    - destruct s as [|c rest]; [reflexivity|]. cbn [scalar_values].
      cbn [length] in Hlen.
      pose proof (IH rest ltac:(lia)) as Hrest.
      destruct (is_high_surrogate c).
      + destruct rest as [|d rest']; [cbn; lia|].
        cbn [length] in *. pose proof (IH rest' ltac:(lia)) as Hrest'.
        destruct (is_low_surrogate d); cbn [length] in *; lia.
      + destruct (is_low_surrogate c); cbn [length]; lia. }
  apply (Hall (length s)). lia.
Qed.

Lemma length_TextEncoder_encode s : (length (TextEncoder_encode s) <= 4 * length s)%nat.
Proof.
  unfold TextEncoder_encode. pose proof (length_scalar_values s) as Hcps.
  assert (Hbytes : forall cps : list N,
            (length (cps ≫= utf8_encode_code_point) <= 4 * length cps)%nat).
  { induction cps as [|cp cps IH]; [cbn; lia|].
    rewrite bind_cons, length_app. cbn [length].
    assert (length (utf8_encode_code_point cp) <= 4)%nat; [|lia].
    unfold utf8_encode_code_point. split_compare; cbn [length]; lia. }
  specialize (Hbytes (scalar_values s)). lia.
Qed.

End UtfFacts.


(** ** Round trip *)

Module RoundTripFacts.
Import BytePairEncoder MergeSpec PartList Readings MergeFacts SegmentFacts PartitionFacts.
Import Base64Facts UtfFacts EncodingFacts Examples.

(** *** Decoding what the encoder produced *)

Lemma decodeBytes_app enc tokens tokens' :
  Encoding.decodeBytes enc (tokens ++ tokens')
    = (data ← Encoding.decodeBytes enc tokens;
       data' ← Encoding.decodeBytes enc tokens';
       Ok (data ++ data')).
Proof.
  induction tokens as [|token tokens IH].
  - cbn. destruct (Encoding.decodeBytes enc tokens'); reflexivity.
  - cbn [app Encoding.decodeBytes]. rewrite IH.
    destruct (Encoding.token_bytes enc token) as [data0|]; [|reflexivity].
    cbn [mbind result_bind].
    destruct (Encoding.decodeBytes enc tokens) as [data|]; [|reflexivity].
    cbn [mbind result_bind].
    destruct (Encoding.decodeBytes enc tokens') as [data'|]; [|reflexivity].
    cbn [mbind result_bind]. rewrite app_assoc. reflexivity.
Qed.

Lemma decodeBytes_segments enc tokens segs :
  Forall2 (fun token seg => Encoding._decoder enc !! token = Some seg) tokens segs ->
  Encoding.decodeBytes enc tokens = Ok (concat segs).
Proof.
  induction 1 as [|token seg tokens segs Htoken _ IH]; [reflexivity|].
  cbn [Encoding.decodeBytes concat]. unfold Encoding.token_bytes.
  rewrite Htoken, IH. reflexivity.
Qed.

(** With every single byte in the table, the merge engine cuts a non-empty
    piece into segments that are keys of the table, and returns their
    ranks. *)
Lemma encode_segments (ranks : gmap jsstring N) (piece : bytes) :
  all_single_bytes ranks -> piece <> [] ->
  exists tokens segs,
    encode ranks piece = Ok tokens /\
    Forall2 (fun token seg => ranks !! bytesToKey seg = Some token) tokens segs /\
    concat segs = piece.
Proof.
  intros Hall Hne. unfold encode.
  destruct (decide (length piece = 1%nat)) as [Hone|Hmany].
  - destruct piece as [|b [|]]; try discriminate.
    destruct (Hall b) as [token Htoken]. rewrite Htoken.
    exists [token], [[b]]. split; [reflexivity|]. split; [|reflexivity].
    repeat constructor. assumption.
  - assert (Hlen : (1 <= length piece)%nat) by (destruct piece; [congruence|cbn; lia]).
    destruct (merge_run_spec ranks piece) as (final & Hrun & Hspec & Hfinal).
    unfold _bytePairMerge. rewrite Hrun. cbn [fmap result_fmap fst]. rewrite bind_Ok.
    pose proof (part_list_ok_run _ _ _ _ Hspec (part_list_ok_init ranks piece Hall Hlen))
      as [_ Hrange _ Hknown Hbounds].
    destruct (lookup_segments_ok _ _ _ Hrange Hknown) as [tokens Htokens].
    exists tokens, (segments piece final). split; [assumption|]. split.
    + apply lookup_segments_spec; assumption.
    + apply concat_segments. assumption.
Qed.

Section RoundTrip.
Context (enc : Encoding.t).

(** The encoding is built on a well-formed rank table. *)
Hypothesis Hsingle : all_single_bytes (map_table (Encoding._mergeableRanks enc)).
Hypothesis Hinverse : forall token data,
  map_table (Encoding._mergeableRanks enc) !! bytesToKey data = Some token ->
  Encoding._decoder enc !! token = Some data.

Lemma encode_piece_decodes piece :
  piece <> [] -> within_arguments enc piece ->
  exists tokens,
    Encoding.encode_piece enc piece = Ok tokens /\
    Encoding.decodeBytes enc tokens = Ok (TextEncoder_encode piece) /\
    (1 <= length tokens <= length (TextEncoder_encode piece))%nat.
Proof.
  intros Hne Hwithin. unfold Encoding.encode_piece.
  pose proof (TextEncoder_nonempty _ Hne) as Hbytes.
  destruct (map_table (Encoding._mergeableRanks enc) !! bytesToKey (TextEncoder_encode piece))
    as [directToken|] eqn:Hdirect.
  - exists [directToken]. split; [reflexivity|]. split.
    + cbn [Encoding.decodeBytes]. unfold Encoding.token_bytes.
      rewrite (Hinverse _ _ Hdirect). cbn [mbind result_bind]. rewrite app_nil_r. reflexivity.
    + cbn [length]. destruct (TextEncoder_encode piece); [congruence|cbn [length]; lia].
  - destruct (encode_segments _ (TextEncoder_encode piece) Hsingle Hbytes)
      as (tokens & segs & Hencode & Hsegs & Hcat).
    pose proof (encode_count _ _ _ Hbytes Hencode) as Hcount.
    exists tokens. rewrite Hencode. cbn [mbind result_bind].
    rewrite spread_within by (unfold within_arguments in Hwithin; lia).
    split; [reflexivity|]. split; [|assumption]. rewrite <- Hcat.
    apply decodeBytes_segments.
    eapply Forall2_impl; [exact Hsegs|]. intros token seg. apply Hinverse.
Qed.

Lemma encode_pieces_decode matches acc :
  Forall (fun piece => piece <> [] /\ within_arguments enc piece) matches ->
  exists tokens,
    Encoding.encode_pieces enc matches acc = Ok (acc ++ tokens) /\
    Encoding.decodeBytes enc tokens = Ok (concat (TextEncoder_encode <$> matches)) /\
    (length matches <= length tokens <= length (concat (TextEncoder_encode <$> matches)))%nat.
Proof.
  intros Hne. revert acc.
  induction Hne as [|piece matches [Hpiece Hwithin] _ IH]; intros acc.
  - exists []. rewrite app_nil_r. repeat split; reflexivity.
  - destruct (encode_piece_decodes piece Hpiece Hwithin) as (tokens & Hencode & Hdecode & Hcount).
    destruct (IH (acc ++ tokens)) as (tokens' & Hrest & Hdecode' & Hcount').
    exists (tokens ++ tokens'). cbn [Encoding.encode_pieces].
    rewrite Hencode. cbn [mbind result_bind]. rewrite Hrest, app_assoc.
    split; [reflexivity|]. split.
    + rewrite decodeBytes_app, Hdecode, Hdecode'. reflexivity.
    + cbn [fmap list_fmap concat length]. rewrite !length_app. lia.
Qed.

Lemma encodeOrdinary_decodes s :
  isWellFormed s = true ->
  concat (Encoding._pattern enc s) = s ->
  Forall (fun piece => piece <> [] /\ isWellFormed piece = true) (Encoding._pattern enc s) ->
  Forall (within_arguments enc) (Encoding._pattern enc s) ->
  exists tokens,
    Encoding.encodeOrdinary enc s = Ok tokens /\
    Encoding.decode enc tokens (js "replace") = Ok s.
Proof.
  intros Hwf Hcat Hpieces Hwithin.
  assert (Hstrict : bool_decide (js "replace" = js "strict") = false)
    by (vm_compute; reflexivity).
  destruct s as [|c rest].
  { exists []. split; reflexivity. }
  set (s := c :: rest) in *. unfold Encoding.encodeOrdinary.
  change (match s with [] => Ok [] | _ :: _ => Encoding.encode_pieces enc (Encoding._pattern enc s) [] end)
    with (Encoding.encode_pieces enc (Encoding._pattern enc s) []).
  destruct (encode_pieces_decode (Encoding._pattern enc s) [])
    as (tokens & Hencode & Hdecode & _).
  { apply Forall_and. split; [|assumption].
    eapply Forall_impl; [exact Hpieces|]. intros piece [Hne _]. exact Hne. }
  exists tokens. split; [exact Hencode|].
  unfold Encoding.decode. rewrite Hdecode. cbn [mbind result_bind].
  rewrite Hstrict, <- TextEncoder_concat, Hcat.
  - rewrite TextDecoder_TextEncoder by assumption. reflexivity.
  - eapply Forall_impl; [exact Hpieces|]. intros piece [_ Hpiece]. exact Hpiece.
Qed.

(** The ordinary encoding of [s] as arguments of one call: it has no more
    tokens than the pieces have bytes. *)
Lemma ordinary_arguments_decodes s :
  Forall (fun piece => piece <> []) (Encoding._pattern enc s) ->
  (N.of_nat (length (concat (TextEncoder_encode <$> Encoding._pattern enc s)))
   <= max_arguments (Encoding._engine enc))%N ->
  exists tokens,
    Encoding.ordinary_arguments enc s = Ok tokens /\
    Encoding.decodeBytes enc tokens
      = Ok (concat (TextEncoder_encode <$> match s with [] => [] | _ => Encoding._pattern enc s end)) /\
    (length tokens <= length (concat (TextEncoder_encode <$> Encoding._pattern enc s)))%nat.
Proof.
  intros Hpieces Htotal. unfold Encoding.ordinary_arguments, Encoding.encodeOrdinary.
  destruct s as [|c rest] eqn:Hshape.
  { exists []. cbn [mbind result_bind]. rewrite spread_nil.
    split; [reflexivity|]. split; [reflexivity|]. cbn [length]. lia. }
  rewrite <- Hshape in *.
  destruct (encode_pieces_decode (Encoding._pattern enc s) [])
    as (tokens & Hencode & Hdecode & Hcount).
  { revert Htotal. unfold within_arguments.
    generalize (max_arguments (Encoding._engine enc)).
    induction Hpieces as [|piece pieces Hpiece _ IH]; intros limit Htotal; [constructor|].
    cbn [fmap list_fmap concat] in Htotal. rewrite length_app in Htotal.
    constructor; [split; [assumption|lia]|]. apply IH. lia. }
  exists tokens. rewrite Hencode. cbn [mbind result_bind app].
  rewrite spread_within by lia. split; [reflexivity|]. split; [assumption|lia].
Qed.

End RoundTrip.

(** The same on an instance that the constructor built on distinct byte
    sequences with distinct ranks that hold all single bytes. *)
Lemma built_inverse engine name patStr table specialTokens enc :
  Encoding.constructor engine name patStr (keyed table) specialTokens = Ok enc ->
  NoDup table.*1 -> NoDup table.*2 ->
  forall token data,
    map_table (Encoding._mergeableRanks enc) !! bytesToKey data = Some token ->
    Encoding._decoder enc !! token = Some data.
Proof.
  intros Hbuilt Hkeys Hranks token data Hlook.
  destruct (constructor_fields _ _ _ _ _ _ Hbuilt) as (Htable & _ & _ & _ & Hdecoder).
  rewrite build_decoder_keyed in Hdecoder. injection Hdecoder as Hdecoder.
  rewrite Htable in Hlook. apply keyed_lookup in Hlook; [|assumption].
  rewrite <- Hdecoder. apply decoder_of_member; assumption.
Qed.

Lemma ordinary_arguments_built engine name patStr table specialTokens enc s :
  Encoding.constructor engine name patStr (keyed table) specialTokens = Ok enc ->
  NoDup table.*1 -> NoDup table.*2 ->
  all_single_bytes (map_table (keyed table)) ->
  Forall (fun piece => piece <> []) (Encoding._pattern enc s) ->
  (N.of_nat (length (concat (TextEncoder_encode <$> Encoding._pattern enc s)))
   <= max_arguments engine)%N ->
  exists tokens,
    Encoding.ordinary_arguments enc s = Ok tokens /\
    Encoding.decodeBytes enc tokens
      = Ok (concat (TextEncoder_encode <$> match s with [] => [] | _ => Encoding._pattern enc s end)) /\
    (length tokens <= length (concat (TextEncoder_encode <$> Encoding._pattern enc s)))%nat.
Proof.
  intros Hbuilt Hkeys Hranks Hsingle Hpieces Htotal.
  destruct (constructor_fields _ _ _ _ _ _ Hbuilt) as (Htable & _).
  apply ordinary_arguments_decodes; try assumption.
  - rewrite Htable. assumption.
  - eapply built_inverse; eauto.
  - rewrite (constructor_engine _ _ _ _ _ _ Hbuilt). assumption.
Qed.
Lemma example_ranks_single_bytes : all_single_bytes (map_table (keyed example_table)).
Proof. intros b. destruct b; vm_compute; eexists; reflexivity. Qed.

End RoundTripFacts.


(** ** Claims about the pair-merge engine *)

Module MergeClaims.
Import BytePairEncoder MergeSpec PartList Readings MergeFacts SegmentFacts.

(** C1. On every rank table and every piece (those of at least two bytes
    among them), phase 1 of [_bytePairMerge] builds the initial part list
    of the specification (one pair-rank entry per byte index of [0..len-1],
    unranked pairs infinite, then the two infinite sentinels), and the
    function returns the part list that the specification's loop reaches
    from it: merge at the leftmost global minimum of the finite ranks,
    recomputing the ranks before and at the minimum from the boundary three
    positions ahead and removing the boundary after it, until no finite
    rank remains. That final list is the only one the specification's loop
    can reach. *)
Theorem bytePairMerge_follows_spec (ranks : gmap jsstring N) (piece : bytes) :
  fst (initial_state ranks piece) = MergeSpec.init ranks piece /\
  exists final,
    _bytePairMerge ranks piece = Ok final /\
    MergeSpec.run ranks piece (MergeSpec.init ranks piece) final /\
    MergeSpec.no_finite_rank final /\
    forall other,
      MergeSpec.run ranks piece (MergeSpec.init ranks piece) other -> other = final.
Proof.
  split; [rewrite initial_state_spec; reflexivity|].
  destruct (merge_run_spec ranks piece) as (final & Hrun & Hspec & _).
  exists final. unfold _bytePairMerge. rewrite Hrun. split; [reflexivity|].
  split; [assumption|]. split; [eapply run_no_finite_rank; eauto|].
  intros other Hother. eapply run_deterministic; eauto.
Qed.

(** C7. For every rank table and every byte [b]: when the one-byte sequence
    [[b]] is a key of the table, [encode] returns exactly its rank; when it
    is not, [encode] throws the single-byte vocabulary error. *)
Theorem encode_single_byte (ranks : gmap jsstring N) (b : byte) :
  match ranks !! bytesToKey [b] with
  | Some token => encode ranks [b] = Ok [token]
  | None =>
      encode ranks [b] = Throw (SingleByteNotInVocabulary (Some b) (bytesToKey [b]))
  end.
Proof.
  unfold encode. cbn [length]. rewrite decide_True by reflexivity. cbn [head].
  destruct (ranks !! bytesToKey [b]); reflexivity.
Qed.

(** C9. The merge loop terminates on every rank table and piece: with the
    fuel [2 * pieceLength + 1], and with any larger fuel, it returns the
    same part list after at most [2 * pieceLength] iterations and never
    runs out of fuel. Entered with a finite minimum when the counter has
    reached the cap, the loop body throws at once the diagnostic error that
    reports the iteration count, the cap, the piece length, the minimum, the
    number of parts and the first ten parts. *)
Theorem merge_loop_terminates_within_cap (ranks : gmap jsstring N) (piece : bytes) :
  (exists final n,
     merge_run ranks piece = Ok (final, n) /\
     0 <= n <= Z.of_nat (length piece) * 2 /\
     forall extra,
       merge_loop (S (2 * length piece) + extra) ranks piece
         (fst (initial_state ranks piece)) (snd (initial_state ranks piece)) 0
       = Ok (final, n)) /\
  (forall fuel parts r i over,
     merge_loop (S fuel) ranks piece parts {| min_rank := Fin r; min_index := i |}
       (Z.of_nat (length piece) * 2 + Z.of_nat over)
     = Throw (MergeInfiniteLoop
         {| diag_iterations := Z.of_nat (length piece) * 2 + Z.of_nat over + 1;
            diag_maxIterations := Z.of_nat (length piece) * 2;
            diag_pieceLength := Z.of_nat (length piece);
            diag_minRank := {| min_rank := Fin r; min_index := i |};
            diag_partsCount := Z.of_nat (length parts);
            diag_firstParts := take 10 parts |})).
Proof.
  split.
  - destruct (merge_run_spec ranks piece) as (final & Hrun & Hspec & Hlen).
    exists final, (Z.of_nat (length (init ranks piece)) - Z.of_nat (length final)).
    split; [assumption|]. split.
    + rewrite length_init in *. lia.
    + intros extra. rewrite initial_state_spec. cbn [fst snd].
      destruct (merge_loop_init ranks piece extra) as (final' & Hloop & Hrun' & _).
      rewrite (run_deterministic _ _ _ _ _ Hspec Hrun'). assumption.
  - intros fuel parts r i over. cbn [merge_loop min_rank].
    rewrite decide_False by discriminate.
    rewrite bool_decide_eq_true_2 by lia. unfold diagnostic.
    pose proof (slice_prefix parts 10) as Hslice.
    change (Z.of_nat 10) with 10 in Hslice. rewrite Hslice. reflexivity.
Qed.

(** C10, as stated, fails on the empty piece: its part list starts with the
    two sentinels, not with [0 + 1] entries, and the zero iterations it runs
    are not strictly below the cap [2 * 0]. *)
Lemma iterations_below_cap_empty_piece :
  merge_run (map_table (keyed Examples.example_table)) []
    = Ok ([{| pos := -1; rank := Infinity |}; {| pos := 0; rank := Infinity |}], 0) /\
  ~ iterations_below_cap (map_table (keyed Examples.example_table)) [].
Proof.
  split; [reflexivity|].
  intros [Hstart _]. cbn in Hstart. discriminate.
Qed.

(** C10, amended. On every rank table and every piece the loop never throws
    the iteration-cap error; every iteration, merging at an index that has
    an entry after it, removes exactly one entry of the part list; and on
    every non-empty piece the part list starts with [pieceLength + 1]
    entries and the loop returns after at most [pieceLength - 1] iterations,
    strictly below the cap. *)
Theorem iteration_cap_unreachable (ranks : gmap jsstring N) (piece : bytes) :
  (forall d, merge_run ranks piece <> Throw (MergeInfiniteLoop d)) /\
  (forall parts i parts' minRank,
     merge_at ranks piece parts i = Ok (parts', minRank) ->
     0 <= i -> i + 1 < Z.of_nat (length parts) ->
     length parts = S (length parts')) /\
  (piece <> [] -> iterations_below_cap ranks piece).
Proof.
  destruct (merge_run_spec ranks piece) as (final & Hrun & Hspec & Hlen).
  split; [intros d; rewrite Hrun; discriminate|]. split.
  - intros parts i parts' minRank. apply length_merge_at.
  - intros Hne. assert (1 <= length piece)%nat by (destruct piece; [congruence|simpl; lia]).
    unfold iterations_below_cap. rewrite initial_state_spec. cbn [fst].
    rewrite length_init in *. split; [lia|].
    eexists final, _. split; [exact Hrun|]. lia.
Qed.

(** The amended claim at a two-byte piece with its pair in the table. *)
Lemma iteration_cap_unreachable_witness :
  iterations_below_cap {[ bytesToKey ["a"%byte; "b"%byte] := 7%N ]} ["a"%byte; "b"%byte].
Proof.
  apply (iteration_cap_unreachable {[ bytesToKey ["a"%byte; "b"%byte] := 7%N ]}
           ["a"%byte; "b"%byte]).
  discriminate.
Defined.

(** C8. For every rank table that holds all 256 single-byte keys and every
    non-empty piece, [encode] succeeds and returns between 1 and
    [pieceLength] tokens. *)
Theorem encode_token_count (ranks : gmap jsstring N) (piece : bytes) :
  all_single_bytes ranks -> piece <> [] ->
  exists tokens,
    encode ranks piece = Ok tokens /\ (1 <= length tokens <= length piece)%nat.
Proof.
  intros Hall Hne. unfold encode.
  destruct (decide (length piece = 1%nat)) as [Hone|Hmany].
  - destruct piece as [|b [|]]; try discriminate.
    destruct (Hall b) as [token Htoken]. rewrite Htoken.
    exists [token]. split; [reflexivity|]. cbn. lia.
  - assert (Hlen : (2 <= length piece)%nat).
    { destruct piece as [|b [|c rest]]; [congruence|cbn in Hmany; congruence|cbn; lia]. }
    destruct (merge_run_spec ranks piece) as (final & Hrun & Hspec & Hfinal).
    unfold _bytePairMerge. rewrite Hrun. cbn [fmap result_fmap fst]. rewrite bind_Ok.
    pose proof (part_list_ok_run _ _ _ _ Hspec
                  (part_list_ok_init ranks piece Hall ltac:(lia))) as [_ Hrange _ Hknown _].
    destruct (lookup_segments_ok _ _ _ Hrange Hknown) as [tokens Htokens].
    exists tokens. split; [assumption|].
    apply lookup_segments_spec in Htokens; [|assumption].
    apply Forall2_length in Htokens.
    rewrite Htokens, length_segments. rewrite length_init in Hfinal. lia.
Qed.

Lemma encode_token_count_witness :
  exists tokens,
    encode (map_table (keyed Examples.example_table))
      ["a"%byte; "b"%byte; "c"%byte; "b"%byte] = Ok tokens /\
    (1 <= length tokens <= 4)%nat.
Proof.
  apply (encode_token_count (map_table (keyed Examples.example_table))
           ["a"%byte; "b"%byte; "c"%byte; "b"%byte]).
  - exact RoundTripFacts.example_ranks_single_bytes.
  - discriminate.
Defined.
End MergeClaims.


(** ** Claims about the tokenizer *)

Module EncodingClaims.
Import BytePairEncoder PartList Readings SegmentFacts EncodingFacts RoundTripFacts Examples.

(** *** Construction *)

(** C5, as stated, fails: the constructor makes no duplicate-rank check, and
    the table in which [a] and [b] share rank 0 is accepted. *)
Lemma duplicate_ranks_accepted :
  ~ rejects_duplicate_ranks whole_text_engine (js "example") (js "[\s\S]+")
      duplicate_ranks [].
Proof.
  intros Hrejects. destruct Hrejects as [e He].
  - exists (bytesToKey ["a"%byte]), (bytesToKey ["b"%byte]), 0%N.
    split; [vm_compute; discriminate|]. split; reflexivity.
  - vm_compute in He. discriminate.
Qed.

(** C5, amended. On an engine that passes, in one call, as many arguments
    as the rank table has entries and as there are special tokens, for every
    rank table given as distinct byte sequences with their ranks and every
    pattern that compiles, construction succeeds, whether or not two byte
    sequences share a rank. The decode table it builds maps every rank to
    the byte sequence of the last entry of the rank table with that rank, a
    later entry overwriting an earlier one, and holds no other id; so every
    entry of the decode table is an entry of the rank table read backwards,
    and when all ranks are distinct the decode table is the inverse mapping
    of the rank table. *)
Theorem constructor_builds_inverse_decoder
    (engine : Engine)
    (name patStr : jsstring) (pattern : jsstring -> list jsstring)
    (table : list (bytes * N)) (specialTokens : jsobject) :
  RegExp_gu engine patStr = Some pattern -> NoDup table.*1 ->
  (N.of_nat (length table) <= max_arguments engine)%N ->
  (N.of_nat (length specialTokens) <= max_arguments engine)%N ->
  exists enc,
    Encoding.constructor engine name patStr (keyed table) specialTokens = Ok enc /\
    (forall rank,
       Encoding._decoder enc !! rank
         = fst <$> last (filter (fun entry => entry.2 = rank) table)) /\
    (forall rank data,
       Encoding._decoder enc !! rank = Some data ->
       map_table (keyed table) !! bytesToKey data = Some rank) /\
    (NoDup table.*2 ->
     forall rank data,
       Encoding._decoder enc !! rank = Some data <->
       map_table (keyed table) !! bytesToKey data = Some rank).
Proof.
  intros Hpattern Hkeys Htable Hspecials. unfold Encoding.constructor.
  rewrite build_decoder_keyed, Hpattern. cbn [mbind result_bind].
  rewrite !max_or_minus_one_within
    by (rewrite length_fmap; try (unfold keyed; rewrite length_fmap); assumption).
  cbn [mbind result_bind].
  eexists. split; [reflexivity|]. cbn [Encoding._decoder].
  assert (Hback : forall rank data,
            decoder_of table ∅ !! rank = Some data ->
            map_table (keyed table) !! bytesToKey data = Some rank).
  { intros rank data Hlook. apply keyed_lookup; [assumption|].
    apply decoder_of_lookup in Hlook as [Hin|Hempty]; [assumption|].
    rewrite lookup_empty in Hempty. discriminate. }
  split; [|split; [exact Hback|]].
  - intros rank. rewrite decoder_of_last.
    destruct (last _); [reflexivity|apply lookup_empty].
  - intros Hranks rank data. split; [apply Hback|].
    intros Hlook. apply keyed_lookup in Hlook; [|assumption].
    apply decoder_of_member; assumption.
Qed.

Lemma constructor_builds_inverse_decoder_witness :
  exists enc,
    Encoding.constructor whole_text_engine (js "example") (js "[\s\S]+")
      (keyed example_table) example_specials = Ok enc /\
    (forall rank,
       Encoding._decoder enc !! rank
         = fst <$> last (filter (fun entry => entry.2 = rank) example_table)) /\
    (forall rank data,
       Encoding._decoder enc !! rank = Some data ->
       map_table (keyed example_table) !! bytesToKey data = Some rank) /\
    (NoDup example_table.*2 ->
     forall rank data,
       Encoding._decoder enc !! rank = Some data <->
       map_table (keyed example_table) !! bytesToKey data = Some rank).
Proof.
  apply (constructor_builds_inverse_decoder whole_text_engine (js "example")
           (js "[\s\S]+") (fun text => match text with [] => [] | _ => [text] end)
           example_table example_specials).
  - reflexivity.
  - apply (bool_decide_unpack (NoDup example_table.*1)). vm_compute. exact I.
  - vm_compute. discriminate.
  - vm_compute. discriminate.
Defined.

(** *** Round trip *)

(** C2, as stated, fails, for four reasons. The constructor accepts the
    table in which [a] and [b] share rank 0, and there [a] comes back as
    [b]. It accepts a table without the single byte [b], and there
    [encodeOrdinary] throws on [b]. It accepts a pattern, here the
    expression [a], whose matches do not make up the text: of [b] nothing
    is encoded, and the empty string comes back. And it accepts a pattern,
    here [[\s\S]*], with an empty match: on [a] the empty piece that follows
    the text is no entry of the example table, and [encodeOrdinary]
    throws. *)
Lemma round_trip_fails :
  (exists enc,
     Encoding.constructor whole_text_engine (js "example") (js "[\s\S]+")
       duplicate_ranks [] = Ok enc /\
     isWellFormed (js "a") = true /\ ~ round_trips enc (js "a")) /\
  (exists enc,
     Encoding.constructor whole_text_engine (js "example") (js "[\s\S]+")
       (keyed [(["a"%byte], 0%N)]) [] = Ok enc /\
     isWellFormed (js "b") = true /\ ~ round_trips enc (js "b")) /\
  (exists enc,
     Encoding.constructor letter_a_engine (js "example") (js "a")
       example_ranks [] = Ok enc /\
     isWellFormed (js "b") = true /\ ~ round_trips enc (js "b")) /\
  (exists enc,
     Encoding.constructor any_text_engine (js "example") (js "[\s\S]*")
       example_ranks [] = Ok enc /\
     isWellFormed (js "a") = true /\ ~ round_trips enc (js "a")).
Proof.
  split; [|split; [|split]]; (eexists; split; [reflexivity|]; split; [reflexivity|]);
    intros (tokens & Hencode & Hdecode); vm_compute in Hencode;
    try discriminate Hencode; injection Hencode as <-;
    vm_compute in Hdecode; discriminate Hdecode.
Qed.

(** C2, amended. For every encoding built on a well-formed bundle (a rank
    table of distinct byte sequences with distinct ranks that holds all 256
    single bytes, and a pattern whose matches on [s] are non-empty
    well-formed pieces that make up [s], none with more UTF-8 bytes than the
    engine passes arguments in one call) and every well-formed string [s],
    that is every string that has a UTF-8 encoding, [encodeOrdinary]
    succeeds and [decode] under the default policy gives [s] back. *)
Theorem decode_encodeOrdinary_round_trip
    (engine : Engine)
    (name patStr : jsstring) (table : list (bytes * N)) (specialTokens : jsobject)
    (enc : Encoding.t) (s : jsstring) :
  Encoding.constructor engine name patStr (keyed table) specialTokens = Ok enc ->
  NoDup table.*1 -> NoDup table.*2 ->
  all_single_bytes (map_table (keyed table)) ->
  isWellFormed s = true ->
  concat (Encoding._pattern enc s) = s ->
  Forall (fun piece => piece <> [] /\ isWellFormed piece = true) (Encoding._pattern enc s) ->
  Forall (within_arguments enc) (Encoding._pattern enc s) ->
  round_trips enc s.
Proof.
  intros Hbuilt Hkeys Hranks Hsingle Hwf Hcat Hpieces Hwithin.
  destruct (constructor_fields _ _ _ _ _ _ Hbuilt) as (Htable & _ & _ & _ & Hdecoder).
  rewrite build_decoder_keyed in Hdecoder. injection Hdecoder as Hdecoder.
  apply encodeOrdinary_decodes; try assumption.
  - rewrite Htable. assumption.
  - intros token data Hlook. rewrite Htable in Hlook.
    apply keyed_lookup in Hlook; [|assumption].
    rewrite <- Hdecoder. apply decoder_of_member; assumption.
Qed.

(** The round trip of the string [abc], [e] acute, and an emoji written as
    a surrogate pair, on the example encoding. *)
Lemma decode_encodeOrdinary_round_trip_witness :
  exists enc,
    example_encoding = Ok enc /\
    round_trips enc (js "abc" ++ [0xE9; 0xD83D; 0xDE00]%N).
Proof.
  eexists. split; [reflexivity|].
  apply (decode_encodeOrdinary_round_trip whole_text_engine (js "example")
           (js "[\s\S]+") example_table example_specials _
           (js "abc" ++ [0xE9; 0xD83D; 0xDE00]%N) eq_refl).
  - apply (bool_decide_unpack (NoDup example_table.*1)). vm_compute. exact I.
  - apply (bool_decide_unpack (NoDup example_table.*2)). vm_compute. exact I.
  - exact example_ranks_single_bytes.
  - reflexivity.
  - reflexivity.
  - repeat constructor. discriminate.
  - repeat constructor. vm_compute. discriminate.
Defined.

(** *** Single tokens *)

(** [encodeSingleToken] on bytes is the exact lookup in the rank table. *)
Lemma encodeSingleToken_bytes enc data :
  Encoding.encodeSingleToken enc (inr data) =
    match map_table (Encoding._mergeableRanks enc) !! bytesToKey data with
    | Some token => Ok (Encoding.TokenId token)
    | None => Throw TokenNotInVocabulary
    end.
Proof. unfold Encoding.encodeSingleToken. destruct (_ !! _); reflexivity. Qed.

(** On a string that names no property of [Object.prototype], it is the
    lookup in the special-token table, then the exact lookup of the UTF-8
    bytes in the rank table. *)
Lemma encodeSingleToken_text enc text :
  text ∉ object_prototype_keys ->
  Encoding.encodeSingleToken enc (inl text) =
    match own_property (Encoding._specialTokens enc) text with
    | Some id => Ok (Encoding.TokenId id)
    | None =>
        match map_table (Encoding._mergeableRanks enc)
                !! bytesToKey (TextEncoder_encode text) with
        | Some token => Ok (Encoding.TokenId token)
        | None => Throw TokenNotInVocabulary
        end
    end.
Proof.
  intros Hkey. unfold Encoding.encodeSingleToken, get_property.
  destruct (own_property _ text); [reflexivity|].
  rewrite bool_decide_eq_false_2 by assumption.
  destruct (_ !! _); reflexivity.
Qed.

(** C6 fails on the code at the string ["toString"]: neither table of the
    example encoding has it, and [encodeSingleToken] does not throw but
    returns the function that the lookup finds on [Object.prototype]. *)
Theorem encodeSingleToken_inherited_property :
  exists enc,
    example_encoding = Ok enc /\
    own_property (Encoding._specialTokens enc) (js "toString") = None /\
    map_table (Encoding._mergeableRanks enc)
      !! bytesToKey (TextEncoder_encode (js "toString")) = None /\
    Encoding.encodeSingleToken enc (inl (js "toString"))
      = Ok (Encoding.PrototypeProperty (js "toString")).
Proof. eexists. split; [reflexivity|]. repeat split; vm_compute; reflexivity. Qed.

(** *** Decoding *)

(** The policies ['ignore'] and ['replace'] decode alike: both build a
    decoder that is not fatal, which replaces malformed sequences. *)
Lemma decode_ignore_is_replace enc tokens :
  Encoding.decode enc tokens (js "ignore") = Encoding.decode enc tokens (js "replace").
Proof.
  unfold Encoding.decode. destruct (Encoding.decodeBytes enc tokens) as [data|e]; [|reflexivity].
  cbn [mbind result_bind].
  assert (Hignore : bool_decide (js "ignore" = js "strict") = false)
    by (vm_compute; reflexivity).
  assert (Hreplace : bool_decide (js "replace" = js "strict") = false)
    by (vm_compute; reflexivity).
  rewrite Hignore, Hreplace.
  destruct (TextDecoder_decode false data); [reflexivity|].
  destruct (bool_decide (js "ignore" = js "ignore")),
           (bool_decide (js "replace" = js "ignore")); reflexivity.
Qed.

(** C4 fails on the code at the tokens of the bytes [a], [0xFF], [b]: under
    ['ignore'] the malformed byte is not dropped, it is decoded to the
    replacement character U+FFFD. *)
Theorem decode_ignore_inserts_replacement :
  exists enc,
    example_encoding = Ok enc /\
    Encoding.decodeBytes enc [97; 255; 98]%N = Ok ["a"%byte; "255"%byte; "b"%byte] /\
    Encoding.decode enc [97; 255; 98]%N (js "ignore")
      = Ok (js "a" ++ [replacement_character] ++ js "b").
Proof. eexists. split; [reflexivity|]. split; vm_compute; reflexivity. Qed.


(** *** Special tokens *)

(** C3, as stated, fails on the example encoding. With [<|endoftext|>] both
    in [allowedSpecial] and in an explicit [disallowedSpecial] set, the text
    [<|endoftext|>] is rejected although the token is allowed. With the
    default options, the text [<|endoftext|><|fim_prefix|>] is rejected for
    its first special token, and allowing that token does not make the call
    succeed: it is rejected for the second one. And on the empty text
    [encode] returns the empty sequence before any check, also when the
    disallowed set holds the empty string, which occurs in every text.

    It fails also where the call with the token allowed is not rejected.
    With the special tokens [ab] and [bc], and [ab] allowed, the text [abc]
    is rejected for [bc]; with [bc] allowed too, the scan matches [ab] and
    resumes after it, so that the id of [bc] is not emitted. And on a rank
    table without the single byte [b], the text [b<|endoftext|>] with the
    token allowed is not encoded: the ordinary encoding of [b] throws. *)
Lemma special_token_policy_fails :
  (exists enc,
     example_encoding = Ok enc /\
     ~ special_token_policy enc (js "<|endoftext|>")
         (Encoding.SetOf [js "<|endoftext|>"]) (Encoding.SetOf [js "<|endoftext|>"]) /\
     ~ special_token_policy enc (js "<|endoftext|><|fim_prefix|>")
         Encoding.NotGiven Encoding.NotGiven /\
     ~ special_token_policy enc [] Encoding.NotGiven (Encoding.SetOf [[]])) /\
  (exists enc,
     Encoding.constructor whole_text_engine (js "example") (js "[\s\S]+")
       example_ranks overlapping_specials = Ok enc /\
     ~ special_token_policy enc (js "abc") (Encoding.SetOf [js "ab"]) Encoding.NotGiven) /\
  (exists enc,
     Encoding.constructor whole_text_engine (js "example") (js "[\s\S]+")
       (keyed [(["a"%byte], 0%N)]) example_specials = Ok enc /\
     ~ special_token_policy enc (js "b<|endoftext|>") Encoding.NotGiven Encoding.NotGiven).
Proof.
  split; [|split].
  - eexists. split; [reflexivity|]. split; [|split].
    + intros Hpolicy.
      destruct (Hpolicy (js "<|endoftext|>")) as [_ Hallowed].
      * left.
      * exists [], []. reflexivity.
      * destruct (Hallowed 300%N eq_refl) as (tokens & Hencode & _).
        vm_compute in Hencode. discriminate.
    + intros Hpolicy.
      destruct (Hpolicy (js "<|endoftext|>")) as [_ Hallowed].
      * vm_compute. left.
      * exists [], (js "<|fim_prefix|>"). reflexivity.
      * destruct (Hallowed 300%N eq_refl) as (tokens & Hencode & _).
        vm_compute in Hencode. discriminate.
    + intros Hpolicy.
      destruct (Hpolicy []) as [[offending Hthrows] _].
      * left.
      * exists [], []. reflexivity.
      * discriminate.
  - eexists. split; [reflexivity|]. intros Hpolicy.
    destruct (Hpolicy (js "bc")) as [_ Hallowed].
    + apply (bool_decide_unpack (js "bc" ∈ [js "bc"])). vm_compute. exact I.
    + exists (js "a"), []. reflexivity.
    + destruct (Hallowed 301%N eq_refl) as (tokens & Hencode & Hid).
      vm_compute in Hencode. injection Hencode as <-.
      apply elem_of_cons in Hid as [Hid|Hid]; [discriminate|].
      apply elem_of_cons in Hid as [Hid|Hid]; [discriminate|inversion Hid].
  - eexists. split; [reflexivity|]. intros Hpolicy.
    destruct (Hpolicy (js "<|endoftext|>")) as [_ Hallowed].
    + vm_compute. left.
    + exists (js "b"), []. reflexivity.
    + destruct (Hallowed 300%N eq_refl) as (tokens & Hencode & _).
      vm_compute in Hencode. discriminate.
Qed.

(** C3, amended. For every encoding the constructor builds, every text and
    all options. On a non-empty text in which a string of the effective
    disallowed set occurs, [encode] throws the disallowed-token error naming
    the first string of that set, in its iteration order, that occurs in the
    text. When no string of that set occurs in the text, and no registered
    special token is the empty string:

    - at the first occurrence of a registered special token in the text, of
      an allowed token [token] between [before] and [after], [encode] emits
      the reserved id of [token] at that position: it returns the ordinary
      encoding of [before], then the id, then the encoding, under the same
      options, of [after], and it fails only if one of these two fails (the
      ordinary encoding is passed to [push] by argument spread);
    - more generally the same holds at the first allowed token that the
      left-to-right scan of the special-token pattern matches;
    - if the scan matches no allowed token, [encode] returns the ordinary
      encoding of the text, which it passes to [push] by argument spread
      when some token is allowed and some special token is registered;
    - and the call succeeds whenever the ordinary encoding of every part of
      the text succeeds and can be passed by argument spread. *)
Theorem encode_special_tokens
    (engine : Engine)
    (name patStr : jsstring) (mergeableRanks : jsmap) (specialTokens : jsobject)
    (enc : Encoding.t) (text : jsstring)
    (allowedSpecial disallowedSpecial : Encoding.SpecialOption) :
  Encoding.constructor engine name patStr mergeableRanks specialTokens = Ok enc ->
  let disallowed := effective_disallowed specialTokens allowedSpecial disallowedSpecial in
  (text <> [] ->
   forall token, token ∈ disallowed -> occurs_in token text ->
     exists k offending,
       disallowed !! k = Some offending /\ occurs_in offending text /\
       (forall j t, disallowed !! j = Some t -> (j < k)%nat -> ~ occurs_in t text) /\
       Encoding.encode enc text allowedSpecial disallowedSpecial
         = Throw (DisallowedSpecialToken offending)) /\
  ((forall t, t ∈ disallowed -> ~ occurs_in t text) ->
   [] ∉ specialTokens.*1 ->
   (forall token id before after,
      own_property specialTokens token = Some id ->
      allows allowedSpecial token ->
      text = before ++ token ++ after ->
      first_occurrence specialTokens.*1 before token after ->
      Encoding.encode enc text allowedSpecial disallowedSpecial
        = (tokensBefore ← Encoding.ordinary_arguments enc before;
           tokensAfter ← Encoding.encode enc after allowedSpecial disallowedSpecial;
           Ok (tokensBefore ++ [id] ++ tokensAfter))) /\
   (forall token id before after,
      own_property specialTokens token = Some id ->
      text = before ++ token ++ after ->
      first_allowed_match specialTokens allowedSpecial text = Some (length before, token) ->
      Encoding.encode enc text allowedSpecial disallowedSpecial
        = (tokensBefore ← Encoding.ordinary_arguments enc before;
           tokensAfter ← Encoding.encode enc after allowedSpecial disallowedSpecial;
           Ok (tokensBefore ++ [id] ++ tokensAfter))) /\
   (first_allowed_match specialTokens allowedSpecial text = None ->
    Encoding.encode enc text allowedSpecial disallowedSpecial
      = if allows_nothing allowedSpecial || bool_decide (specialTokens = [])
        then Encoding.encodeOrdinary enc text
        else Encoding.ordinary_arguments enc text) /\
   ((forall s, occurs_in s text -> is_Ok (Encoding.ordinary_arguments enc s)) ->
    is_Ok (Encoding.encode enc text allowedSpecial disallowedSpecial))).
Proof.
  intros Hbuilt disallowed. split.
  - intros Htext token Hin Hoccurs.
    destruct (constructor_fields _ _ _ _ _ _ Hbuilt) as (_ & Hspecials & _).
    unfold disallowed in *. rewrite <- Hspecials in *.
    eapply encode_disallowed; eauto.
  - intros Hclean Hempty. split; [|split; [|split]].
    + intros token id before after Hid Hallowed Heq Hfirst.
      eapply encode_first_allowed; eauto.
      rewrite Heq. apply first_allowed_match_occurrence; assumption.
    + intros token id before after Hid Heq Hfirst.
      eapply encode_first_allowed; eauto.
    + intros Hnone. eapply encode_ordinary_only; eauto.
    + intros Hparts. eapply encode_returns; eauto.
      exists [], []. rewrite app_nil_r. reflexivity.
Qed.

(** Every part of a text of at most 1000 code units is encoded
    ordinarily on the example encoding, and can be passed by argument
    spread. *)
Lemma example_parts_encode enc text :
  example_encoding = Ok enc -> (length text <= 1000)%nat ->
  forall s, occurs_in s text -> is_Ok (Encoding.ordinary_arguments enc s).
Proof.
  intros Hbuilt Hshort s (l & r & ->). unfold example_encoding in Hbuilt.
  destruct (constructor_fields _ _ _ _ _ _ Hbuilt) as (_ & _ & _ & Hpattern & _).
  destruct Hpattern as (pattern & Hcompiled & Hpattern).
  injection Hcompiled as <-.
  assert (Hkeys : NoDup example_table.*1)
    by (apply (bool_decide_unpack (NoDup example_table.*1)); vm_compute; exact I).
  assert (Hranks : NoDup example_table.*2)
    by (apply (bool_decide_unpack (NoDup example_table.*2)); vm_compute; exact I).
  destruct (ordinary_arguments_built _ _ _ _ _ _ s Hbuilt Hkeys Hranks
              example_ranks_single_bytes) as (tokens & Hencode & _).
  - rewrite Hpattern. destruct s; repeat constructor. discriminate.
  - rewrite Hpattern.
    rewrite !length_app in Hshort. pose proof (UtfFacts.length_TextEncoder_encode s) as Hbytes.
    change (max_arguments whole_text_engine) with 65535%N.
    destruct s; cbn [fmap list_fmap concat length]; [lia|].
    rewrite app_nil_r. lia.
  - exists tokens. exact Hencode.
Qed.

(** The amended claim on the example encoding, at the text
    [ab<|endoftext|>bc]: rejected with the default options; and with
    [<|endoftext|>] allowed, encoded with the reserved id 300 at the place
    of the token, between the ordinary encoding of [ab] and the encoding of
    [bc], by a call that succeeds. *)
Lemma encode_special_tokens_witness :
  exists enc,
    example_encoding = Ok enc /\
    (exists offending,
       Encoding.encode enc (js "ab<|endoftext|>bc") Encoding.NotGiven Encoding.NotGiven
         = Throw (DisallowedSpecialToken offending)) /\
    Encoding.encode enc (js "ab<|endoftext|>bc")
      (Encoding.SetOf [js "<|endoftext|>"]) Encoding.NotGiven
    = (tokensBefore ← Encoding.ordinary_arguments enc (js "ab");
       tokensAfter ← Encoding.encode enc (js "bc")
                       (Encoding.SetOf [js "<|endoftext|>"]) Encoding.NotGiven;
       Ok (tokensBefore ++ [300%N] ++ tokensAfter)) /\
    is_Ok (Encoding.encode enc (js "ab<|endoftext|>bc")
             (Encoding.SetOf [js "<|endoftext|>"]) Encoding.NotGiven).
Proof.
  eexists. split; [reflexivity|].
  assert (Hclean : forall t,
            t ∈ effective_disallowed example_specials
                  (Encoding.SetOf [js "<|endoftext|>"]) Encoding.NotGiven ->
            ~ occurs_in t (js "ab<|endoftext|>bc")).
  { intros t Ht Hoccurs. apply includes_spec in Hoccurs.
    vm_compute in Ht. apply elem_of_cons in Ht as [->|Ht]; [|inversion Ht].
    vm_compute in Hoccurs. discriminate. }
  assert (Hempty : [] ∉ example_specials.*1).
  { intros Hin. vm_compute in Hin.
    apply elem_of_cons in Hin as [Hin|Hin]; [discriminate|].
    apply elem_of_cons in Hin as [Hin|Hin]; [discriminate|inversion Hin]. }
  split; [|split].
  - assert (Hin : js "<|endoftext|>"
                    ∈ effective_disallowed example_specials Encoding.NotGiven Encoding.NotGiven)
      by left.
    assert (Hoccurs : occurs_in (js "<|endoftext|>") (js "ab<|endoftext|>bc"))
      by (exists (js "ab"), (js "bc"); reflexivity).
    assert (Htext : js "ab<|endoftext|>bc" <> []) by discriminate.
    destruct (proj1 (encode_special_tokens whole_text_engine (js "example") (js "[\s\S]+")
                       example_ranks example_specials _ (js "ab<|endoftext|>bc")
                       Encoding.NotGiven Encoding.NotGiven eq_refl)
                Htext (js "<|endoftext|>") Hin Hoccurs)
      as (k & offending & _ & _ & _ & Hthrows).
    exists offending. exact Hthrows.
  - refine (proj1 (proj2 (encode_special_tokens whole_text_engine (js "example")
                     (js "[\s\S]+") example_ranks example_specials _
                     (js "ab<|endoftext|>bc")
                     (Encoding.SetOf [js "<|endoftext|>"]) Encoding.NotGiven eq_refl)
                     Hclean Hempty)
              (js "<|endoftext|>") 300%N (js "ab") (js "bc") eq_refl _ eq_refl _).
    + left.
    + split.
      * intros p t Hp Ht Hprefix.
        assert (Hb : bool_decide
                       (t `prefix_of` drop p (js "ab" ++ js "<|endoftext|>" ++ js "bc")) = true)
          by (apply bool_decide_eq_true_2; exact Hprefix).
        vm_compute in Ht.
        apply elem_of_cons in Ht as [->|Ht];
          [|apply elem_of_cons in Ht as [->|Ht]; [|inversion Ht]];
          (destruct p as [|[|p]]; [| |cbn in Hp; lia]); vm_compute in Hb;
          discriminate.
      * exists 0%nat. split; [reflexivity|]. intros j t _ Hj. lia.
  - refine (proj2 (proj2 (proj2 (proj2 (encode_special_tokens whole_text_engine
                     (js "example") (js "[\s\S]+") example_ranks example_specials _
                     (js "ab<|endoftext|>bc")
                     (Encoding.SetOf [js "<|endoftext|>"]) Encoding.NotGiven eq_refl)
                     Hclean Hempty))) _).
    apply example_parts_encode; [reflexivity|vm_compute; lia].
Defined.

End EncodingClaims.

(** * Further properties of the code *)

(** ** The pair-merge engine *)

Module MergeProperties.
Import BytePairEncoder MergeSpec PartList Readings Notions MergeFacts SegmentFacts.
Import PartitionFacts Base64Facts EncodingFacts.

Section NoMerge.
Context (ranks : gmap jsstring N) (piece : bytes).

Lemma segments_init :
  (1 <= length piece)%nat ->
  segments piece (init ranks piece) = (fun b => [b]) <$> piece.
Proof.
  intros Hlen. apply list_eq. intros j.
  rewrite lookup_segments_list, !pos_at_init, list_lookup_fmap by assumption.
  destruct (piece !! j) as [b|] eqn:Hb.
  - pose proof (lookup_lt_Some _ _ _ Hb).
    rewrite !decide_True by lia. cbn.
    f_equal. apply bytes_between_single. assumption.
  - apply lookup_ge_None in Hb.
    destruct (decide (j <= length piece)%nat); [|reflexivity].
    rewrite decide_False by lia. reflexivity.
Qed.

Lemma init_no_finite_rank :
  (forall i, (i + 2 <= length piece)%nat ->
     ranks !! bytesToKey (bytes_between piece (Z.of_nat i) (Z.of_nat i + 2)) = None) ->
  no_finite_rank (init ranks piece).
Proof.
  intros Hnone p Hp. unfold init in Hp. apply elem_of_app in Hp as [Hp|Hp].
  - apply list_elem_of_fmap in Hp as (i & -> & Hi). apply elem_of_seq in Hi.
    cbn [pair_entry rank]. unfold rankOrInfinity. rewrite Hnone by lia. reflexivity.
  - apply elem_of_cons in Hp as [->|Hp]; [reflexivity|].
    apply elem_of_cons in Hp as [->|Hp]; [reflexivity|inversion Hp].
Qed.

End NoMerge.


Lemma lookup_segments_gap ranks piece parts e :
  lookup_segments ranks piece parts = Throw e -> vocabulary_gap ranks e.
Proof.
  induction parts as [|p [|q rest] IH]; try discriminate.
  rewrite lookup_segments_cons.
  destruct (ranks !! bytesToKey _) as [token|] eqn:Htoken.
  - destruct (lookup_segments ranks piece (q :: rest)); [discriminate|].
    intros [= <-]. apply IH. reflexivity.
  - intros [= <-]. cbn. auto.
Qed.

Lemma encode_throws_gap (ranks : gmap jsstring N) (piece : bytes) (e : JsError) :
  encode ranks piece = Throw e -> vocabulary_gap ranks e.
Proof.
  unfold encode. case_decide.
  - destruct (ranks !! bytesToKey piece) eqn:Hkey; [discriminate|].
    intros [= <-]. exact Hkey.
  - destruct (merge_run_spec ranks piece) as (final & Hrun & _).
    unfold _bytePairMerge. rewrite Hrun. cbn [fmap result_fmap fst]. rewrite bind_Ok.
    apply lookup_segments_gap.
Qed.

(** *** Keys *)

(** X1. [keyToBytes] undoes [bytesToKey], which is therefore collision-free:
    two byte sequences with the same key are equal. *)
Theorem bytesToKey_keyToBytes_round_trip (data : bytes) :
  keyToBytes (bytesToKey data) = Ok data /\
  forall data', bytesToKey data = bytesToKey data' -> data = data'.
Proof.
  split; [apply keyToBytes_bytesToKey|]. intros data' Hkey. apply bytesToKey_inj. assumption.
Qed.

(** *** What [encode] returns *)

(** X2. Whatever the rank table, the tokens that [encode] returns for a
    non-empty piece are the ranks of consecutive non-empty slices of the
    piece, which put together give the piece back. *)
Theorem encode_partitions_piece (ranks : gmap jsstring N) (piece : bytes) (tokens : list N) :
  piece <> [] ->
  encode ranks piece = Ok tokens ->
  exists segs : list bytes,
    concat segs = piece /\
    Forall (fun seg => seg <> []) segs /\
    Forall2 (fun token seg => ranks !! bytesToKey seg = Some token) tokens segs.
Proof. apply encode_partition. Qed.

Lemma encode_partitions_piece_witness :
  exists segs : list bytes,
    concat segs = ["a"%byte; "b"%byte; "c"%byte; "b"%byte] /\
    Forall (fun seg => seg <> []) segs /\
    Forall2 (fun token seg =>
               map_table (keyed Examples.example_table) !! bytesToKey seg = Some token)
      [258%N; 98%N] segs.
Proof.
  apply (encode_partitions_piece (map_table (keyed Examples.example_table))
           ["a"%byte; "b"%byte; "c"%byte; "b"%byte] [258%N; 98%N]).
  - discriminate.
  - vm_compute. reflexivity.
Defined.

(** X3. When [encode] returns, no merge is left to do: no two adjacent
    slices of the result make up, together, a key of the rank table. *)
Theorem encode_leaves_no_mergeable_pair (ranks : gmap jsstring N) (piece : bytes)
    (tokens : list N) :
  piece <> [] ->
  encode ranks piece = Ok tokens ->
  exists segs : list bytes,
    concat segs = piece /\
    Forall2 (fun token seg => ranks !! bytesToKey seg = Some token) tokens segs /\
    forall j left right,
      segs !! j = Some left -> segs !! S j = Some right ->
      ranks !! bytesToKey (left ++ right) = None.
Proof.
  intros Hne. unfold encode. case_decide as Hone.
  - destruct (ranks !! bytesToKey piece) as [token|] eqn:Htoken; [|discriminate].
    intros [= <-]. exists [piece]. cbn [concat]. rewrite app_nil_r.
    split; [reflexivity|]. split; [repeat constructor; assumption|].
    intros j left right _ Hright. destruct j; discriminate.
  - pose proof (length_two_or_more _ Hne Hone) as Hlen.
    destruct (merge_result ranks piece ltac:(lia))
      as (final & Hmerge & Hdone & _ & Hrange & Hranks & Hbounds).
    rewrite Hmerge, bind_Ok. intros Htokens.
    exists (segments piece final). split; [apply concat_segments; assumption|].
    split; [apply lookup_segments_spec; assumption|].
    intros j left right Hleft Hright. rewrite lookup_segments_list in Hleft, Hright.
    destruct (pos_at final j) as [a|] eqn:Ha; [|discriminate].
    destruct (pos_at final (S j)) as [b|] eqn:Hb; [|discriminate].
    destruct (pos_at final (S (S j))) as [c|] eqn:Hc; [|discriminate].
    cbn in Hleft, Hright. injection Hleft as <-. injection Hright as <-.
    destruct Hbounds as (_ & _ & Hlt).
    pose proof (Hlt _ _ _ Ha Hb). pose proof (Hlt _ _ _ Hb Hc).
    assert (Ha0 : 0 <= a).
    { unfold pos_at in Ha. destruct (final !! j) as [p|] eqn:Hp; [|discriminate].
      injection Ha as <-. exact (proj1 (proj1 (Forall_lookup _ _) Hrange _ _ Hp)). }
    rewrite bytes_between_app by lia.
    unfold pos_at in Ha. destruct (final !! j) as [p|] eqn:Hp; [|discriminate].
    pose proof (Hranks _ _ Hp) as Hrank.
    rewrite (Hdone p) in Hrank by (eapply list_elem_of_lookup_2; eauto).
    unfold span, pos_at in Hrank. rewrite Hp in Hrank. cbn in Hrank.
    replace (j + 2)%nat with (S (S j)) in Hrank by lia.
    unfold pos_at in Hc. destruct (final !! S (S j)) as [q|]; [|discriminate].
    cbn in Hrank, Hc. injection Ha as <-. injection Hc as <-.
    unfold rankOrInfinity in Hrank.
    destruct (ranks !! bytesToKey _); [discriminate|reflexivity].
Qed.

Lemma encode_leaves_no_mergeable_pair_witness :
  exists segs : list bytes,
    concat segs = ["a"%byte; "b"%byte; "c"%byte; "b"%byte] /\
    Forall2 (fun token seg =>
               map_table (keyed Examples.example_table) !! bytesToKey seg = Some token)
      [258%N; 98%N] segs /\
    forall j left right,
      segs !! j = Some left -> segs !! S j = Some right ->
      map_table (keyed Examples.example_table) !! bytesToKey (left ++ right) = None.
Proof.
  apply (encode_leaves_no_mergeable_pair (map_table (keyed Examples.example_table))
           ["a"%byte; "b"%byte; "c"%byte; "b"%byte] [258%N; 98%N]).
  - discriminate.
  - vm_compute. reflexivity.
Defined.

(** X4. On the empty piece [encode] never returns the empty sequence: it
    looks the empty byte sequence up, returns its rank when the table holds
    it, and throws the vocabulary error otherwise. *)
Theorem encode_empty_piece (ranks : gmap jsstring N) :
  encode ranks [] =
    match ranks !! [] with
    | Some token => Ok [token]
    | None => Throw (SequenceNotInVocabulary [] [] (-1) 0 0)
    end.
Proof.
  unfold encode. rewrite decide_False by discriminate.
  assert (Hmerge : _bytePairMerge ranks []
                   = Ok [{| pos := -1; rank := Infinity |}; {| pos := 0; rank := Infinity |}])
    by reflexivity.
  rewrite Hmerge, bind_Ok, lookup_segments_cons.
  change (slice [] (pos {| pos := -1; rank := Infinity |})
            (pos {| pos := 0; rank := Infinity |})) with (@nil byte).
  change (bytesToKey []) with (@nil N).
  destruct (ranks !! []); reflexivity.
Qed.

(** X5. When no two adjacent bytes of a non-empty piece form a key of the
    rank table, [encode] merges nothing: it returns exactly the ranks of the
    single bytes, and succeeds exactly when the table holds them all. *)
Theorem encode_without_merges (ranks : gmap jsstring N) (piece : bytes) (tokens : list N) :
  piece <> [] ->
  (forall i, (i + 2 <= length piece)%nat ->
     ranks !! bytesToKey (bytes_between piece (Z.of_nat i) (Z.of_nat i + 2)) = None) ->
  encode ranks piece = Ok tokens <->
  Forall2 (fun token b => ranks !! bytesToKey [b] = Some token) tokens piece.
Proof.
  intros Hne Hnone. unfold encode. case_decide as Hone.
  - destruct piece as [|b [|]]; try discriminate. split.
    + destruct (ranks !! bytesToKey [b]) as [token|] eqn:Htoken; [|discriminate].
      intros [= <-]. repeat constructor. assumption.
    + intros H. inversion H as [|token ? tokens' ? Htoken Hrest]; subst.
      inversion Hrest; subst. rewrite Htoken. reflexivity.
  - pose proof (length_two_or_more _ Hne Hone) as Hlen.
    destruct (merge_run_spec ranks piece) as (final & Hrun & Hspec & _).
    assert (final = init ranks piece) as ->.
    { eapply run_deterministic; [exact Hspec|].
      constructor. apply init_no_finite_rank. assumption. }
    unfold _bytePairMerge. rewrite Hrun. cbn [fmap result_fmap fst]. rewrite bind_Ok.
    rewrite lookup_segments_iff by (apply in_range_init; lia).
    rewrite segments_init by lia. rewrite Forall2_fmap_r. reflexivity.
Qed.

Lemma encode_without_merges_witness :
  encode (map_table (keyed Examples.example_table)) ["b"%byte; "a"%byte] = Ok [98%N; 97%N] <->
  Forall2 (fun token b =>
             map_table (keyed Examples.example_table) !! bytesToKey [b] = Some token)
    [98%N; 97%N] ["b"%byte; "a"%byte].
Proof.
  apply (encode_without_merges (map_table (keyed Examples.example_table))
           ["b"%byte; "a"%byte] [98%N; 97%N]).
  - discriminate.
  - intros [|i] Hi; [vm_compute; reflexivity|cbn in Hi; lia].
Defined.

(** X6. A two-byte piece whose pair is a key of the rank table is encoded as
    that one token. *)
Theorem encode_pair (ranks : gmap jsstring N) (a b : byte) (token : N) :
  ranks !! bytesToKey [a; b] = Some token ->
  encode ranks [a; b] = Ok [token].
Proof.
  intros Hpair. unfold encode. rewrite decide_False by discriminate.
  destruct (merge_run_spec ranks [a; b]) as (final & Hrun & Hspec & _).
  assert (Hinit : init ranks [a; b]
                  = [{| pos := 0; rank := Fin token |}; {| pos := 1; rank := Infinity |};
                     {| pos := 2; rank := Infinity |}]).
  { unfold init. cbn -[bytesToKey]. unfold pair_entry, rankOrInfinity.
    change (bytes_between [a; b] (Z.of_nat 0) (Z.of_nat 0 + 2)) with [a; b].
    rewrite Hpair. reflexivity. }
  assert (Hmin : is_minimum (init ranks [a; b]) 0 token).
  { rewrite Hinit. split.
    - eexists. split; reflexivity.
    - intros [|[|[|j]]] q r'; cbn; intros [= <-]; cbn; try discriminate.
      intros [= <-]. right. split; [reflexivity|lia]. }
  assert (Hmerge : merge ranks [a; b] (init ranks [a; b]) 0
                   = [{| pos := 0; rank := Infinity |}; {| pos := 2; rank := Infinity |}]).
  { rewrite Hinit. reflexivity. }
  assert (final = merge ranks [a; b] (init ranks [a; b]) 0) as ->.
  { eapply run_deterministic; [exact Hspec|].
    econstructor; [exact Hmin|]. constructor. rewrite Hmerge.
    intros p Hp.
    apply elem_of_cons in Hp as [->|Hp]; [reflexivity|].
    apply elem_of_cons in Hp as [->|Hp]; [reflexivity|inversion Hp]. }
  unfold _bytePairMerge. rewrite Hrun. cbn [fmap result_fmap fst]. rewrite bind_Ok, Hmerge.
  rewrite lookup_segments_cons. cbn [pos].
  change (slice [a; b] 0 2) with [a; b]. rewrite Hpair. reflexivity.
Qed.

Lemma encode_pair_witness :
  encode (map_table (keyed Examples.example_table)) ["a"%byte; "b"%byte] = Ok [256%N].
Proof.
  apply (encode_pair (map_table (keyed Examples.example_table)) "a"%byte "b"%byte 256%N).
  vm_compute. reflexivity.
Defined.

(** X7. [encode] fails in one way only, whatever the rank table and the
    piece: with one of its two vocabulary errors, reporting a key that the
    table does not hold. It never throws the iteration-cap error and never
    reads a property of [undefined]. *)
Theorem bpe_encode_fails_only_on_gap (ranks : gmap jsstring N) (piece : bytes) (e : JsError) :
  encode ranks piece = Throw e -> vocabulary_gap ranks e.
Proof. apply encode_throws_gap. Qed.

Lemma bpe_encode_fails_only_on_gap_witness :
  vocabulary_gap {[ bytesToKey ["a"%byte; "b"%byte] := 7%N ]}
    (SequenceNotInVocabulary ["c"%byte] [89%N; 119%N; 61%N; 61%N] 2 3 3).
Proof.
  apply (bpe_encode_fails_only_on_gap {[ bytesToKey ["a"%byte; "b"%byte] := 7%N ]}
           ["a"%byte; "b"%byte; "c"%byte]).
  vm_compute. reflexivity.
Defined.

End MergeProperties.

(** ** The tokenizer *)

Module EncodingProperties.
Import BytePairEncoder PartList Readings Notions MergeFacts SegmentFacts PartitionFacts.
Import EncodingFacts RoundTripFacts UtfFacts Examples.

(** *** Facts about the constructor *)

Lemma constructor_more engine name patStr mergeableRanks specialTokens enc :
  Encoding.constructor engine name patStr mergeableRanks specialTokens = Ok enc ->
  Encoding._specialTokensDecoder enc = Encoding.build_special_decoder specialTokens ∅ /\
  Encoding.maxTokenValue enc
    = Z.max (Encoding.Math_max mergeableRanks.*2) (Encoding.Math_max specialTokens.*2).
Proof.
  unfold Encoding.constructor.
  destruct (Encoding.build_decoder mergeableRanks ∅) as [decoder|]; [|discriminate].
  cbn [mbind result_bind]. destruct (RegExp_gu engine patStr) as [pattern|]; [|discriminate].
  destruct (Encoding.max_or_minus_one engine mergeableRanks.*2) as [maxMergeable|] eqn:Hranks;
    [|discriminate].
  cbn [mbind result_bind].
  destruct (Encoding.max_or_minus_one engine specialTokens.*2) as [maxSpecial|] eqn:Hspecials;
    [|discriminate].
  intros [= <-]. cbn.
  rewrite (max_or_minus_one_Ok _ _ _ Hranks), (max_or_minus_one_Ok _ _ _ Hspecials). auto.
Qed.

Lemma special_decoder_lookup specialTokens decoder id data :
  Encoding.build_special_decoder specialTokens decoder !! id = Some data ->
  (exists token, (token, id) ∈ specialTokens /\ data = TextEncoder_encode token) \/
  decoder !! id = Some data.
Proof.
  revert decoder. induction specialTokens as [|[token rank] rest IH]; intros decoder.
  - cbn. auto.
  - cbn [Encoding.build_special_decoder]. intros H. apply IH in H as [(t & Hin & ->)|H].
    + left. exists t. split; [right; assumption|reflexivity].
    + destruct (decide (rank = id)) as [->|Hne].
      * rewrite lookup_insert_eq in H. injection H as <-.
        left. exists token. split; [left|reflexivity].
      * rewrite lookup_insert_ne in H by assumption. auto.
Qed.

Lemma special_decoder_fresh specialTokens decoder id :
  id ∉ specialTokens.*2 ->
  Encoding.build_special_decoder specialTokens decoder !! id = decoder !! id.
Proof.
  revert decoder. induction specialTokens as [|[token rank] rest IH]; intros decoder Hid.
  - reflexivity.
  - cbn [Encoding.build_special_decoder]. cbn in Hid. apply not_elem_of_cons in Hid as [Hne Hid].
    rewrite IH by assumption. apply lookup_insert_ne. congruence.
Qed.

Lemma special_decoder_is_Some specialTokens decoder id :
  id ∈ specialTokens.*2 ->
  is_Some (Encoding.build_special_decoder specialTokens decoder !! id).
Proof.
  revert decoder. induction specialTokens as [|[token rank] rest IH]; intros decoder Hid.
  - inversion Hid.
  - cbn [Encoding.build_special_decoder].
    destruct (decide (id ∈ rest.*2)) as [Hin|Hout]; [apply IH; assumption|].
    rewrite special_decoder_fresh by assumption.
    cbn in Hid. apply elem_of_cons in Hid as [->|Hid]; [|contradiction].
    rewrite lookup_insert_eq. eauto.
Qed.

Lemma special_decoder_member specialTokens decoder token id :
  NoDup specialTokens.*2 -> (token, id) ∈ specialTokens ->
  Encoding.build_special_decoder specialTokens decoder !! id = Some (TextEncoder_encode token).
Proof.
  revert decoder. induction specialTokens as [|[t rank] rest IH]; intros decoder Hdup Hin.
  - inversion Hin.
  - cbn [Encoding.build_special_decoder]. cbn in Hdup. apply NoDup_cons in Hdup as [Hfresh Hdup].
    apply elem_of_cons in Hin as [[= -> ->]|Hin].
    + rewrite special_decoder_fresh by assumption. apply lookup_insert_eq.
    + apply IH; assumption.
Qed.

Lemma own_property_elem obj key id : own_property obj key = Some id -> (key, id) ∈ obj.
Proof.
  induction obj as [|[k v] obj IH]; [discriminate|]. cbn [own_property].
  case_decide as Hk.
  - intros [= ->]. subst k. left.
  - intros Hrest. right. apply IH. assumption.
Qed.

Lemma own_property_is_Some obj key : key ∈ obj.*1 -> is_Some (own_property obj key).
Proof.
  induction obj as [|[k v] obj IH]; [intros H; inversion H|].
  cbn [own_property]. case_decide as Hk; [eauto|].
  cbn. intros Hin. apply elem_of_cons in Hin as [->|Hin]; [contradiction|]. apply IH. assumption.
Qed.

Lemma Math_max_ge values v :
  v ∈ values -> Z.of_N v <= Encoding.Math_max values.
Proof.
  induction values as [|w values IH]; [intros H; inversion H|].
  cbn [Encoding.Math_max foldr]. intros H. apply elem_of_cons in H as [->|H].
  - lia.
  - apply IH in H. unfold Encoding.Math_max in H. lia.
Qed.

(** Up to [2^53] the sum of two numbers is exact. *)
Lemma number_add_exact x y : Z.abs (x + y) <= 2 ^ 53 -> number_add x y = x + y.
Proof.
  intros Hsmall. unfold number_add, nearest_double.
  destruct (Z.leb_spec (Z.log2 (Z.abs (x + y)) - 52) 0) as [|Hlarge]; [reflexivity|].
  assert (Hpow : Z.abs (x + y) = 2 ^ 53).
  { destruct (Z.eq_dec (Z.abs (x + y)) (2 ^ 53)) as [|Hne]; [assumption|].
    assert (Hlt : Z.log2 (Z.abs (x + y)) < 53); [|lia].
    destruct (Z.eq_dec (Z.abs (x + y)) 0) as [->|Hnz]; [cbn; lia|].
    apply Z.log2_lt_pow2; lia. }
  rewrite Hpow. destruct (Z.abs_spec (x + y)) as [[Hpos Heq]|[Hneg Heq]].
  - rewrite Heq in Hpow. rewrite Hpow. reflexivity.
  - assert (Hval : x + y = - 2 ^ 53) by lia. rewrite Hval. reflexivity.
Qed.

(** *** Facts about decoding *)

Lemma token_bytes_known enc token :
  known_token enc token -> exists data, Encoding.token_bytes enc token = Ok data.
Proof.
  unfold Encoding.token_bytes. intros [[data H]|[data H]].
  - rewrite H. eauto.
  - destruct (Encoding._decoder enc !! token); [eauto|]. rewrite H. eauto.
Qed.

Lemma token_bytes_unknown enc token :
  ~ known_token enc token -> Encoding.token_bytes enc token = Throw (InvalidTokenId token).
Proof.
  unfold Encoding.token_bytes, known_token. intros H.
  destruct (Encoding._decoder enc !! token) eqn:H1; [exfalso; apply H; left; eauto|].
  destruct (Encoding._specialTokensDecoder enc !! token) eqn:H2;
    [exfalso; apply H; right; eauto|reflexivity].
Qed.

Lemma utf8_decode_fatal_replace d queue cps :
  utf8_decode true d queue = Ok cps -> utf8_decode false d queue = Ok cps.
Proof.
  revert d cps. induction queue as [|b rest IH]; intros d cps; cbn [utf8_decode].
  - destruct (bytes_needed d =? 0)%N; [auto|discriminate].
  - destruct (utf8_handler d (Byte.to_N b)) as [d'|cp d'|d'|d'].
    + apply IH.
    + destruct (utf8_decode true d' rest) as [cps'|] eqn:Hrest; [|discriminate].
      rewrite (IH _ _ Hrest). auto.
    + discriminate.
    + discriminate.
Qed.

(** *** Facts about the token ids that encoding returns *)

Lemma lookup_segments_values ranks piece parts tokens :
  lookup_segments ranks piece parts = Ok tokens ->
  Forall (fun token => exists key, ranks !! key = Some token) tokens.
Proof.
  revert tokens. induction parts as [|p [|q rest] IH]; intros tokens.
  - intros [= <-]. constructor.
  - intros [= <-]. constructor.
  - rewrite lookup_segments_cons.
    destruct (ranks !! bytesToKey _) as [token|] eqn:Htoken; [|discriminate].
    destruct (lookup_segments ranks piece (q :: rest)) as [tokens'|]; [|discriminate].
    intros [= <-]. constructor; [eauto|]. apply IH. reflexivity.
Qed.

Lemma encode_values ranks piece tokens :
  encode ranks piece = Ok tokens ->
  Forall (fun token => exists key, ranks !! key = Some token) tokens.
Proof.
  unfold encode. case_decide.
  - destruct (ranks !! bytesToKey piece) as [token|] eqn:Htoken; [|discriminate].
    intros [= <-]. repeat constructor. eauto.
  - destruct (_bytePairMerge ranks piece) as [parts|]; [|discriminate].
    rewrite bind_Ok. apply lookup_segments_values.
Qed.

Section Bound.
Context (enc : Encoding.t) (bound : Z).
Hypothesis Hranks : forall key token,
  map_table (Encoding._mergeableRanks enc) !! key = Some token -> Z.of_N token <= bound.
Hypothesis Hspecials : forall key id,
  own_property (Encoding._specialTokens enc) key = Some id -> Z.of_N id <= bound.

Lemma encode_piece_bound piece tokens :
  Encoding.encode_piece enc piece = Ok tokens -> Forall (fun t => Z.of_N t <= bound) tokens.
Proof.
  unfold Encoding.encode_piece.
  destruct (map_table _ !! bytesToKey _) as [direct|] eqn:Hdirect.
  - intros [= <-]. repeat constructor. eauto.
  - destruct (encode _ _) as [pieceTokens|] eqn:H; [|discriminate].
    cbn [mbind result_bind]. intros Hspread. apply spread_Ok in Hspread as [-> _].
    apply encode_values in H. eapply Forall_impl; [exact H|].
    intros t [key Hkey]. eauto.
Qed.

Lemma encode_pieces_bound matches acc tokens :
  Forall (fun t => Z.of_N t <= bound) acc ->
  Encoding.encode_pieces enc matches acc = Ok tokens ->
  Forall (fun t => Z.of_N t <= bound) tokens.
Proof.
  revert acc. induction matches as [|piece matches IH]; intros acc Hacc.
  - intros [= <-]. assumption.
  - cbn [Encoding.encode_pieces].
    destruct (Encoding.encode_piece enc piece) as [pieceTokens|] eqn:Hpiece; [|discriminate].
    rewrite bind_Ok. apply IH. apply Forall_app. split; [assumption|].
    eapply encode_piece_bound; eauto.
Qed.

Lemma encodeOrdinary_bound text tokens :
  Encoding.encodeOrdinary enc text = Ok tokens -> Forall (fun t => Z.of_N t <= bound) tokens.
Proof.
  unfold Encoding.encodeOrdinary. destruct text.
  - intros [= <-]. constructor.
  - apply encode_pieces_bound. constructor.
Qed.

Lemma ordinary_arguments_bound text tokens :
  Encoding.ordinary_arguments enc text = Ok tokens ->
  Forall (fun t => Z.of_N t <= bound) tokens.
Proof. intros H. apply ordinary_arguments_Ok in H. eapply encodeOrdinary_bound; eauto. Qed.

Lemma encode_matches_bound text allowedSpecial matches acc lastEnd tokens final :
  Forall (fun t => Z.of_N t <= bound) acc ->
  Encoding.encode_matches enc text allowedSpecial matches acc lastEnd = Ok (tokens, final) ->
  Forall (fun t => Z.of_N t <= bound) tokens.
Proof.
  revert acc lastEnd. induction matches as [|[i t] matches IH]; intros acc lastEnd Hacc.
  - intros [= <- _]. assumption.
  - cbn [Encoding.encode_matches].
    destruct (Encoding.isAllowed allowedSpecial t); [|apply IH; assumption].
    destruct (if bool_decide (lastEnd < Z.of_nat i) then _ else _) as [acc'|] eqn:Hbefore;
      [|discriminate].
    rewrite bind_Ok. unfold get_property.
    destruct (own_property _ t) as [id|] eqn:Hid.
    + apply IH. apply Forall_app. split.
      * case_bool_decide; [|injection Hbefore as <-; assumption].
        destruct (Encoding.ordinary_arguments enc _) as [before|] eqn:Hord; [|discriminate].
        injection Hbefore as <-. apply Forall_app. split; [assumption|].
        eapply ordinary_arguments_bound; eauto.
      * repeat constructor. eauto.
    + destruct (bool_decide (t ∈ object_prototype_keys)); intros Hthrow; discriminate Hthrow.
Qed.

Lemma encode_bound text allowedSpecial disallowedSpecial tokens :
  Encoding.encode enc text allowedSpecial disallowedSpecial = Ok tokens ->
  Forall (fun t => Z.of_N t <= bound) tokens.
Proof.
  unfold Encoding.encode. destruct text as [|c text]; [intros [= <-]; constructor|].
  destruct (list_find _ _) as [[k token]|]; [discriminate|].
  destruct (Encoding.is_empty_set _); [apply encodeOrdinary_bound|].
  destruct (Encoding._specialPattern enc) as [alternatives|]; [|apply encodeOrdinary_bound].
  destruct (Encoding.encode_matches _ _ _ _ _ _) as [[acc final]|] eqn:Hloop; [|discriminate].
  rewrite bind_Ok. apply encode_matches_bound in Hloop; [|constructor].
  case_bool_decide; [|intros [= <-]; assumption].
  destruct (Encoding.ordinary_arguments enc _) as [remaining|] eqn:Hord; [|discriminate].
  intros [= <-]. apply Forall_app. split; [assumption|].
  eapply ordinary_arguments_bound; eauto.
Qed.

End Bound.

(** *** Facts about the errors of encoding *)

Lemma encode_piece_throws enc piece e :
  Encoding.encode_piece enc piece = Throw e ->
  vocabulary_gap (map_table (Encoding._mergeableRanks enc)) e \/
  (e = ArgumentsRangeError /\ ~ within_arguments enc piece).
Proof.
  unfold Encoding.encode_piece.
  destruct (map_table _ !! _) as [direct|] eqn:Hdirect; [discriminate|].
  destruct (encode _ _) as [pieceTokens|e'] eqn:Hencode; cbn [mbind result_bind].
  - intros Hspread. apply spread_Throw in Hspread as [-> Hmany]. right.
    split; [reflexivity|]. unfold within_arguments.
    assert (Hbytes : TextEncoder_encode piece <> []).
    { intros Hnil. rewrite Hnil in Hencode, Hdirect.
      change (bytesToKey []) with (@nil N) in Hdirect.
      rewrite encode_nil, Hdirect in Hencode. discriminate. }
    pose proof (encode_count _ _ _ Hbytes Hencode). lia.
  - intros [= <-]. left. eapply MergeProperties.encode_throws_gap; eauto.
Qed.

Lemma encode_pieces_throws enc matches acc e :
  Encoding.encode_pieces enc matches acc = Throw e ->
  vocabulary_gap (map_table (Encoding._mergeableRanks enc)) e \/
  (e = ArgumentsRangeError /\ Exists (fun piece => ~ within_arguments enc piece) matches).
Proof.
  revert acc. induction matches as [|piece matches IH]; intros acc; [discriminate|].
  cbn [Encoding.encode_pieces].
  destruct (Encoding.encode_piece enc piece) as [tokens|e'] eqn:Hpiece.
  - rewrite bind_Ok. intros Hrest. apply IH in Hrest as [Hgap|[-> Hlong]]; [auto|].
    right. split; [reflexivity|]. apply Exists_cons_tl. assumption.
  - intros [= <-]. apply encode_piece_throws in Hpiece as [Hgap|[-> Hlong]]; [auto|].
    right. split; [reflexivity|]. apply Exists_cons_hd. assumption.
Qed.

Lemma encodeOrdinary_throws enc text e :
  Encoding.encodeOrdinary enc text = Throw e ->
  vocabulary_gap (map_table (Encoding._mergeableRanks enc)) e \/
  (e = ArgumentsRangeError /\
   Exists (fun piece => ~ within_arguments enc piece) (Encoding._pattern enc text)).
Proof.
  unfold Encoding.encodeOrdinary. destruct text; [discriminate|]. apply encode_pieces_throws.
Qed.

Lemma ordinary_arguments_throws enc text e :
  Encoding.ordinary_arguments enc text = Throw e ->
  vocabulary_gap (map_table (Encoding._mergeableRanks enc)) e \/ e = ArgumentsRangeError.
Proof.
  unfold Encoding.ordinary_arguments.
  destruct (Encoding.encodeOrdinary enc text) as [tokens|e'] eqn:Hord; cbn [mbind result_bind].
  - intros Hspread. apply spread_Throw in Hspread as [-> _]. auto.
  - intros [= <-]. apply encodeOrdinary_throws in Hord as [Hgap|[-> _]]; auto.
Qed.

Lemma encode_matches_throws enc text allowedSpecial matches acc lastEnd e :
  Forall (fun m => is_Some (own_property (Encoding._specialTokens enc) m.2)) matches ->
  Encoding.encode_matches enc text allowedSpecial matches acc lastEnd = Throw e ->
  vocabulary_gap (map_table (Encoding._mergeableRanks enc)) e \/ e = ArgumentsRangeError.
Proof.
  intros Hown. revert acc lastEnd.
  induction Hown as [|[i t] matches [id Hid] _ IH]; intros acc lastEnd; [discriminate|].
  cbn [Encoding.encode_matches]. cbn [snd] in Hid.
  destruct (Encoding.isAllowed allowedSpecial t); [|apply IH].
  unfold get_property. rewrite Hid.
  case_bool_decide.
  - destruct (Encoding.ordinary_arguments enc _) as [before|e'] eqn:Hord.
    + cbn [mbind result_bind]. apply IH.
    + intros [= <-]. eapply ordinary_arguments_throws; eauto.
  - rewrite bind_Ok. apply IH.
Qed.

Lemma encode_throws engine name patStr mergeableRanks specialTokens enc
    text allowedSpecial disallowedSpecial e :
  Encoding.constructor engine name patStr mergeableRanks specialTokens = Ok enc ->
  Encoding.encode enc text allowedSpecial disallowedSpecial = Throw e ->
  (exists token,
     e = DisallowedSpecialToken token /\
     token ∈ effective_disallowed specialTokens allowedSpecial disallowedSpecial /\
     occurs_in token text) \/
  vocabulary_gap (map_table mergeableRanks) e \/
  e = ArgumentsRangeError.
Proof.
  intros Hbuilt.
  destruct (constructor_fields _ _ _ _ _ _ Hbuilt) as (Hranks & Hspecials & Hpattern & _).
  assert (Hordinary : forall s,
            Encoding.encodeOrdinary enc s = Throw e ->
            vocabulary_gap (map_table (Encoding._mergeableRanks enc)) e \/
            e = ArgumentsRangeError).
  { intros s Hs. apply encodeOrdinary_throws in Hs as [Hgap|[-> _]]; auto. }
  unfold Encoding.encode. destruct text as [|c rest] eqn:Hshape; [discriminate|].
  rewrite <- Hshape. clear Hshape.
  rewrite disallowed_set_effective, Hspecials.
  destruct (list_find _ _) as [[k token]|] eqn:Hfind.
  - intros [= <-]. left. exists token. apply list_find_Some in Hfind as (Hk & Hincl & _).
    split; [reflexivity|]. split; [eapply list_elem_of_lookup_2; eauto|].
    apply includes_spec. assumption.
  - rewrite <- Hranks. intros Hthrow. right.
    destruct (Encoding.is_empty_set _); [eapply Hordinary; eauto|].
    rewrite Hpattern in Hthrow. case_decide; [|eapply Hordinary; eauto].
    destruct (Encoding.encode_matches _ _ _ _ _ _) as [[tokens final]|e'] eqn:Hloop.
    + rewrite bind_Ok in Hthrow. case_bool_decide; [|discriminate].
      destruct (Encoding.ordinary_arguments enc _) as [remaining|e'] eqn:Hord; [discriminate|].
      injection Hthrow as <-. eapply ordinary_arguments_throws; eauto.
    + injection Hthrow as <-. eapply encode_matches_throws; [|exact Hloop].
      apply Forall_forall. intros [i t] Hin. cbn [snd].
      apply matchAll_elem in Hin as [Hkey _].
      rewrite Hspecials. apply own_property_is_Some. assumption.
Qed.

(** *** Example data *)

Lemma example_table_keys : NoDup example_table.*1.
Proof. apply (bool_decide_unpack (NoDup example_table.*1)). vm_compute. exact I. Qed.

Lemma example_table_ranks : NoDup example_table.*2.
Proof. apply (bool_decide_unpack (NoDup example_table.*2)). vm_compute. exact I. Qed.

Lemma example_specials_ids : NoDup example_specials.*2.
Proof. apply (bool_decide_unpack (NoDup example_specials.*2)). vm_compute. exact I. Qed.

Lemma example_specials_disjoint id : id ∈ example_specials.*2 -> id ∉ example_table.*2.
Proof.
  intros Hid. apply (bool_decide_unpack (id ∉ example_table.*2)).
  apply elem_of_cons in Hid as [->|Hid]; [vm_compute; exact I|].
  apply elem_of_cons in Hid as [->|Hid]; [vm_compute; exact I|inversion Hid].
Qed.

(** *** Decoding *)

(** X8. [decodeBytes] returns the concatenation of what [decodeTokensBytes]
    returns for the same tokens, and fails with the same error when a token
    is unknown. *)
Theorem decodeBytes_concatenates_tokens enc tokens :
  Encoding.decodeBytes enc tokens
    = (fun parts => concat parts) <$> Encoding.decodeTokensBytes enc tokens.
Proof.
  induction tokens as [|token tokens IH]; [reflexivity|].
  cbn [Encoding.decodeBytes Encoding.decodeTokensBytes].
  change (Encoding.decodeSingleTokenBytes enc token) with (Encoding.token_bytes enc token).
  destruct (Encoding.token_bytes enc token) as [data|e]; [|reflexivity].
  cbn [mbind result_bind]. rewrite IH.
  destruct (Encoding.decodeTokensBytes enc tokens); reflexivity.
Qed.

(** X9. [decodeBytes] distributes over concatenation of token sequences:
    the bytes of [tokens ++ tokens'] are the bytes of [tokens] followed by
    those of [tokens'], and the first failure of the two is its failure. *)
Theorem decodeBytes_of_concatenation enc tokens tokens' :
  Encoding.decodeBytes enc (tokens ++ tokens')
    = (data ← Encoding.decodeBytes enc tokens;
       data' ← Encoding.decodeBytes enc tokens';
       Ok (data ++ data')).
Proof. apply decodeBytes_app. Qed.

(** X10. [decodeBytes] fails exactly when some token is in neither decode
    table, and the error it throws names the first such token. *)
Theorem decodeBytes_fails_on_first_unknown enc tokens e :
  Encoding.decodeBytes enc tokens = Throw e <->
  exists known token rest,
    tokens = known ++ token :: rest /\
    Forall (known_token enc) known /\ ~ known_token enc token /\
    e = InvalidTokenId token.
Proof.
  split.
  - revert e. induction tokens as [|token tokens IH]; intros e; [discriminate|].
    cbn [Encoding.decodeBytes].
    destruct (decide (known_token enc token)) as [Hknown|Hunknown].
    + destruct (token_bytes_known _ _ Hknown) as [data ->]. cbn [mbind result_bind].
      destruct (Encoding.decodeBytes enc tokens) as [others|e'] eqn:Hrest; [discriminate|].
      intros [= <-]. destruct (IH _ eq_refl) as (known & t & rest & -> & Hall & Ht & ->).
      exists (token :: known), t, rest. repeat split; auto.
    + rewrite token_bytes_unknown by assumption. intros [= <-].
      exists [], token, tokens. repeat split; auto.
  - intros (known & token & rest & -> & Hall & Ht & ->).
    induction Hall as [|t known Hknown _ IH]; cbn [app Encoding.decodeBytes].
    + rewrite token_bytes_unknown by assumption. reflexivity.
    + destruct (token_bytes_known _ _ Hknown) as [data ->]. cbn [mbind result_bind].
      rewrite IH. reflexivity.
Qed.

(** X11. When [decode] succeeds under ['strict'], it returns the same text
    under ['replace'] and under ['ignore']. *)
Theorem decode_strict_agrees enc tokens text :
  Encoding.decode enc tokens (js "strict") = Ok text ->
  Encoding.decode enc tokens (js "replace") = Ok text /\
  Encoding.decode enc tokens (js "ignore") = Ok text.
Proof.
  assert (Hs : bool_decide (js "strict" = js "strict") = true) by reflexivity.
  assert (Hr : bool_decide (js "replace" = js "strict") = false) by (vm_compute; reflexivity).
  assert (Hi : bool_decide (js "ignore" = js "strict") = false) by (vm_compute; reflexivity).
  unfold Encoding.decode.
  destruct (Encoding.decodeBytes enc tokens) as [data|]; [|discriminate].
  cbn [mbind result_bind]. rewrite Hs, Hr, Hi. unfold TextDecoder_decode.
  destruct (utf8_decode true utf8_decoder_start data) as [cps|] eqn:Hcps; [|discriminate].
  rewrite (utf8_decode_fatal_replace _ _ _ Hcps). cbn [mbind result_bind]. auto.
Qed.

Lemma decode_strict_agrees_witness :
  exists enc,
    example_encoding = Ok enc /\
    Encoding.decode enc [97; 98]%N (js "replace") = Ok (js "ab") /\
    Encoding.decode enc [97; 98]%N (js "ignore") = Ok (js "ab").
Proof.
  eexists. split; [reflexivity|].
  apply decode_strict_agrees. vm_compute. reflexivity.
Defined.

(** *** Special tokens and the vocabulary size *)

(** X12. On an instance that the constructor built, [isSpecialToken(id)]
    holds exactly for the ids of the special-token object it was given. *)
Theorem isSpecialToken_registered engine name patStr mergeableRanks specialTokens enc id :
  Encoding.constructor engine name patStr mergeableRanks specialTokens = Ok enc ->
  Encoding.isSpecialToken enc id = true <-> exists token, (token, id) ∈ specialTokens.
Proof.
  intros Hbuilt. destruct (constructor_more _ _ _ _ _ _ Hbuilt) as [Hdecoder _].
  unfold Encoding.isSpecialToken. rewrite bool_decide_eq_true, Hdecoder. split.
  - intros [data Hdata]. apply special_decoder_lookup in Hdata as [(token & Hin & _)|Hempty].
    + eauto.
    + rewrite lookup_empty in Hempty. discriminate.
  - intros [token Hin]. apply special_decoder_is_Some.
    apply list_elem_of_fmap. exists (token, id). auto.
Qed.

Lemma isSpecialToken_registered_witness :
  exists enc,
    example_encoding = Ok enc /\
    (Encoding.isSpecialToken enc 300 = true <-> exists token, (token, 300%N) ∈ example_specials).
Proof.
  eexists. split; [reflexivity|].
  apply (isSpecialToken_registered whole_text_engine (js "example") (js "[\s\S]+")
           example_ranks example_specials _ 300%N eq_refl).
Defined.

(** X13. On an instance that the constructor built with ranks and ids
    below [2^53], every token id that [encode] or [encodeOrdinary] returns
    is below [nVocab]. (From [2^53] on the sum [maxTokenValue + 1] is
    rounded.) *)
Theorem tokens_below_nVocab engine name patStr mergeableRanks specialTokens enc
    text allowedSpecial disallowedSpecial tokens :
  Encoding.constructor engine name patStr mergeableRanks specialTokens = Ok enc ->
  Encoding.maxTokenValue enc < 2 ^ 53 ->
  Encoding.encode enc text allowedSpecial disallowedSpecial = Ok tokens \/
  Encoding.encodeOrdinary enc text = Ok tokens ->
  Forall (fun token => Z.of_N token < Encoding.nVocab enc) tokens.
Proof.
  intros Hbuilt Hsafe Hencode.
  destruct (constructor_fields _ _ _ _ _ _ Hbuilt) as (Hranks & Hspecials & _).
  destruct (constructor_more _ _ _ _ _ _ Hbuilt) as [_ Hmax].
  assert (Hbound : Forall (fun t => Z.of_N t <= Encoding.maxTokenValue enc) tokens).
  { assert (H1 : forall key token,
              map_table (Encoding._mergeableRanks enc) !! key = Some token ->
              Z.of_N token <= Encoding.maxTokenValue enc).
    { intros key token Hlook. rewrite Hranks in Hlook. unfold map_table in Hlook.
      apply elem_of_list_to_map_2 in Hlook.
      pose proof (Math_max_ge mergeableRanks.*2 token) as Hge.
      rewrite Hmax. etransitivity; [apply Hge|lia].
      apply list_elem_of_fmap. exists (key, token). auto. }
    assert (H2 : forall key id,
              own_property (Encoding._specialTokens enc) key = Some id ->
              Z.of_N id <= Encoding.maxTokenValue enc).
    { intros key id Hid. rewrite Hspecials in Hid. apply own_property_elem in Hid.
      pose proof (Math_max_ge specialTokens.*2 id) as Hge.
      rewrite Hmax. etransitivity; [apply Hge|lia].
      apply list_elem_of_fmap. exists (key, id). auto. }
    destruct Hencode as [Hencode|Hencode].
    - eapply encode_bound; eauto.
    - eapply encodeOrdinary_bound; eauto. }
  assert (Hfloor : -1 <= Encoding.maxTokenValue enc).
  { rewrite Hmax. unfold Encoding.Math_max.
    destruct mergeableRanks.*2; cbn [foldr]; lia. }
  unfold Encoding.nVocab. rewrite number_add_exact by lia.
  eapply Forall_impl; [exact Hbound|]. intros t Ht. cbn beta in Ht. lia.
Qed.

Lemma tokens_below_nVocab_witness :
  exists enc,
    example_encoding = Ok enc /\
    Forall (fun token => Z.of_N token < Encoding.nVocab enc) [256%N; 300%N].
Proof.
  eexists. split; [reflexivity|].
  apply (tokens_below_nVocab whole_text_engine (js "example") (js "[\s\S]+")
           example_ranks example_specials _ (js "ab<|endoftext|>")
           Encoding.AllSpecial Encoding.NotGiven [256%N; 300%N] eq_refl).
  - vm_compute. reflexivity.
  - left. vm_compute. reflexivity.
Defined.

(** X14. Single tokens round-trip: on an instance built on distinct byte
    sequences with distinct ranks and on special tokens with distinct ids
    that are no ranks, when [encodeSingleToken] returns a token id,
    [decodeSingleTokenBytes] of that id gives back the bytes of the input
    (its UTF-8 bytes for a string). *)
Theorem single_token_round_trip engine name patStr table specialTokens enc
    (textOrBytes : jsstring + bytes) (token : N) :
  Encoding.constructor engine name patStr (keyed table) specialTokens = Ok enc ->
  NoDup table.*1 -> NoDup table.*2 -> NoDup specialTokens.*2 ->
  (forall id, id ∈ specialTokens.*2 -> id ∉ table.*2) ->
  Encoding.encodeSingleToken enc textOrBytes = Ok (Encoding.TokenId token) ->
  Encoding.decodeSingleTokenBytes enc token = Ok (input_bytes textOrBytes).
Proof.
  intros Hbuilt Hkeys Hranks Hids Hdisjoint.
  destruct (constructor_fields _ _ _ _ _ _ Hbuilt) as (Htable & Hspecials & _ & _ & Hdecoder).
  destruct (constructor_more _ _ _ _ _ _ Hbuilt) as [Hspecial _].
  rewrite build_decoder_keyed in Hdecoder. injection Hdecoder as Hdecoder.
  assert (Hordinary : forall data,
            map_table (Encoding._mergeableRanks enc) !! bytesToKey data = Some token ->
            Encoding.decodeSingleTokenBytes enc token = Ok data).
  { intros data Hlook. rewrite Htable in Hlook. apply keyed_lookup in Hlook; [|assumption].
    unfold Encoding.decodeSingleTokenBytes. rewrite <- Hdecoder.
    rewrite (decoder_of_member _ _ _ _ Hranks Hlook). reflexivity. }
  unfold Encoding.encodeSingleToken. destruct textOrBytes as [text|data]; cbn [input_bytes].
  - unfold get_property. destruct (own_property _ text) as [id|] eqn:Hid.
    + intros [= <-]. rewrite Hspecials in Hid. apply own_property_elem in Hid.
      unfold Encoding.decodeSingleTokenBytes. rewrite <- Hdecoder.
      rewrite decoder_of_fresh, lookup_empty.
      2:{ apply Hdisjoint, list_elem_of_fmap. exists (text, id). auto. }
      rewrite Hspecial, (special_decoder_member _ _ _ _ Hids Hid). reflexivity.
    + destruct (bool_decide _); [discriminate|].
      destruct (map_table _ !! _) as [t|] eqn:Hlook; [|discriminate].
      intros [= <-]. apply Hordinary. assumption.
  - destruct (map_table _ !! _) as [t|] eqn:Hlook; [|discriminate].
    intros [= <-]. apply Hordinary. assumption.
Qed.

Lemma single_token_round_trip_witness :
  exists enc,
    example_encoding = Ok enc /\
    Encoding.decodeSingleTokenBytes enc 258 = Ok (input_bytes (inl (js "abc"))).
Proof.
  eexists. split; [reflexivity|].
  apply (single_token_round_trip whole_text_engine (js "example") (js "[\s\S]+")
           example_table example_specials _ (inl (js "abc")) 258%N eq_refl
           example_table_keys example_table_ranks example_specials_ids
           example_specials_disjoint).
  vm_compute. reflexivity.
Defined.

(** *** Errors *)

(** X15. [encodeOrdinary] fails in two ways only: with a vocabulary error
    of the pair-merge engine, for a key that the rank table does not hold,
    or with the [RangeError] of the argument spread, and then some piece
    has more UTF-8 bytes than the engine passes arguments in one call. *)
Theorem encodeOrdinary_fails_in_two_ways (enc : Encoding.t) (text : jsstring) (e : JsError) :
  Encoding.encodeOrdinary enc text = Throw e ->
  vocabulary_gap (map_table (Encoding._mergeableRanks enc)) e \/
  (e = ArgumentsRangeError /\
   Exists (fun piece => ~ within_arguments enc piece) (Encoding._pattern enc text)).
Proof. apply encodeOrdinary_throws. Qed.

Lemma encodeOrdinary_fails_in_two_ways_witness :
  exists enc,
    Encoding.constructor whole_text_engine (js "example") (js "[\s\S]+")
      (keyed [(["a"%byte; "b"%byte], 7%N)]) [] = Ok enc /\
    (vocabulary_gap (map_table (Encoding._mergeableRanks enc))
       (SequenceNotInVocabulary ["c"%byte] [89%N; 119%N; 61%N; 61%N] 2 3 3) \/
     (SequenceNotInVocabulary ["c"%byte] [89%N; 119%N; 61%N; 61%N] 2 3 3
        = ArgumentsRangeError /\
      Exists (fun piece => ~ within_arguments enc piece)
        (Encoding._pattern enc (js "abc")))).
Proof.
  eexists. split; [reflexivity|].
  apply (encodeOrdinary_fails_in_two_ways _ (js "abc")).
  vm_compute. reflexivity.
Defined.

(** X16. On an instance that the constructor built, [encode] fails in
    three ways only: with the disallowed-token error, for a string of the
    effective disallowed set that occurs in the text; with a vocabulary
    error for a key that the rank table does not hold; or with the
    [RangeError] of an argument spread. *)
Theorem encode_fails_in_three_ways engine name patStr mergeableRanks specialTokens enc
    text allowedSpecial disallowedSpecial e :
  Encoding.constructor engine name patStr mergeableRanks specialTokens = Ok enc ->
  Encoding.encode enc text allowedSpecial disallowedSpecial = Throw e ->
  (exists token,
     e = DisallowedSpecialToken token /\
     token ∈ effective_disallowed specialTokens allowedSpecial disallowedSpecial /\
     occurs_in token text) \/
  vocabulary_gap (map_table mergeableRanks) e \/
  e = ArgumentsRangeError.
Proof. apply encode_throws. Qed.

Lemma encode_fails_in_three_ways_witness :
  (exists token,
     DisallowedSpecialToken (js "<|endoftext|>") = DisallowedSpecialToken token /\
     token ∈ effective_disallowed example_specials Encoding.NotGiven Encoding.NotGiven /\
     occurs_in token (js "<|endoftext|>")) \/
  vocabulary_gap (map_table example_ranks) (DisallowedSpecialToken (js "<|endoftext|>")) \/
  DisallowedSpecialToken (js "<|endoftext|>") = ArgumentsRangeError.
Proof.
  apply (encode_fails_in_three_ways whole_text_engine (js "example") (js "[\s\S]+")
           example_ranks example_specials _ (js "<|endoftext|>")
           Encoding.NotGiven Encoding.NotGiven
           (DisallowedSpecialToken (js "<|endoftext|>")) eq_refl).
  vm_compute. reflexivity.
Defined.

(** *** Complete vocabularies *)

(** X17. On an instance built on distinct byte sequences with distinct ranks
    that hold all 256 single bytes, [encodeOrdinary] succeeds on every
    non-empty text, well-formed or not, that the pattern cuts into non-empty
    pieces, none with more UTF-8 bytes than the engine passes arguments in
    one call; the tokens decode to the UTF-8 bytes of the pieces, and there
    are at least as many tokens as pieces and at most as many as bytes. *)
Theorem encodeOrdinary_succeeds engine name patStr table specialTokens enc text :
  Encoding.constructor engine name patStr (keyed table) specialTokens = Ok enc ->
  NoDup table.*1 -> NoDup table.*2 ->
  all_single_bytes (map_table (keyed table)) ->
  text <> [] ->
  Forall (fun piece => piece <> [] /\ within_arguments enc piece) (Encoding._pattern enc text) ->
  exists tokens,
    Encoding.encodeOrdinary enc text = Ok tokens /\
    Encoding.decodeBytes enc tokens
      = Ok (concat (TextEncoder_encode <$> Encoding._pattern enc text)) /\
    (length (Encoding._pattern enc text) <= length tokens
     <= length (concat (TextEncoder_encode <$> Encoding._pattern enc text)))%nat.
Proof.
  intros Hbuilt Hkeys Hranks Hsingle Htext Hpieces.
  destruct (constructor_fields _ _ _ _ _ _ Hbuilt) as (Htable & _).
  unfold Encoding.encodeOrdinary. destruct text as [|c rest] eqn:Hshape; [congruence|].
  rewrite <- Hshape in *.
  destruct (encode_pieces_decode enc) with (matches := Encoding._pattern enc text) (acc := @nil N)
    as (tokens & Hencode & Hdecode & Hcount); try assumption.
  - rewrite Htable. assumption.
  - eapply built_inverse; eauto.
  - exists tokens. auto.
Qed.

Lemma encodeOrdinary_succeeds_witness :
  exists enc tokens,
    example_encoding = Ok enc /\
    Encoding.encodeOrdinary enc (js "abc" ++ [0xD83D]%N) = Ok tokens /\
    Encoding.decodeBytes enc tokens
      = Ok (concat (TextEncoder_encode <$> Encoding._pattern enc (js "abc" ++ [0xD83D]%N))) /\
    (length (Encoding._pattern enc (js "abc" ++ [0xD83D]%N)) <= length tokens
     <= length (concat (TextEncoder_encode
                          <$> Encoding._pattern enc (js "abc" ++ [0xD83D]%N))))%nat.
Proof.
  eexists.
  destruct (encodeOrdinary_succeeds whole_text_engine (js "example") (js "[\s\S]+")
              example_table example_specials _ (js "abc" ++ [0xD83D]%N) eq_refl
              example_table_keys example_table_ranks example_ranks_single_bytes)
    as (tokens & Hencode & Hrest).
  - discriminate.
  - repeat constructor; [discriminate|]. vm_compute. discriminate.
  - exists tokens. split; [reflexivity|]. split; assumption.
Defined.

End EncodingProperties.

(** ** The text decoder on arbitrary bytes *)

Module DecoderFacts.
Import Readings Notions Base64Facts UtfFacts.

#[local] Open Scope N_scope.

Lemma to_N_inj b b' : Byte.to_N b = Byte.to_N b' -> b = b'.
Proof.
  intros H. apply (f_equal Byte.of_N) in H. rewrite !Byte.of_to_N in H.
  injection H as ->. reflexivity.
Qed.

Lemma to_N_byte b : Byte.to_N b < 256.
Proof. pose proof (Byte.to_N_bounded b). lia. Qed.

(** *** The handler on the bytes that end or break a sequence *)

Lemma handler_invalid_lead n :
  0x7F < n < 0xC2 \/ 0xF4 < n ->
  utf8_handler utf8_decoder_start n = DecodeError utf8_decoder_start.
Proof. intros Hn. unfold utf8_handler. cbn. split_compare; try lia; reflexivity. Qed.

Lemma handler_out_of_bounds d n :
  bytes_needed d <> 0 -> n < lower_boundary d \/ upper_boundary d < n ->
  utf8_handler d n = DecodeErrorRestore utf8_decoder_start.
Proof.
  intros Hneeded Hn. unfold utf8_handler.
  destruct (N.eqb_spec (bytes_needed d) 0); [congruence|].
  destruct (N.leb_spec (lower_boundary d) n), (N.leb_spec n (upper_boundary d));
    cbn [andb negb]; try reflexivity; lia.
Qed.

(** *** The encoder on a code point given by its parts *)

Lemma encode_one b : Byte.to_N b <= 0x7F -> utf8_encode_code_point (Byte.to_N b) = [b].
Proof.
  intros Hb. unfold utf8_encode_code_point.
  destruct (N.leb_spec (Byte.to_N b) 0x7F); [|lia].
  f_equal. apply to_uint8_eq. apply N.mod_small. lia.
Qed.

Lemma encode_two b1 b2 q r :
  Byte.to_N b1 = 0xC0 + q -> Byte.to_N b2 = 0x80 + r -> 2 <= q <= 31 -> r < 64 ->
  utf8_encode_code_point (q * 64 + r) = [b1; b2].
Proof.
  intros Hb1 Hb2 Hq Hr. unfold utf8_encode_code_point.
  destruct (N.leb_spec (q * 64 + r) 0x7F); [lia|].
  destruct (N.leb_spec (q * 64 + r) 0x7FF); [|lia].
  assert (Hdiv1 : (q * 64 + r) / 2 ^ 6 = q) by (change (2 ^ 6) with 64; lia).
  assert (Hdiv0 : (q * 64 + r) / 2 ^ 0 = q * 64 + r) by apply N.div_1_r.
  f_equal; [|f_equal]; apply to_N_inj.
  - rewrite (lead_value _ _ _ _ Hdiv1), Hb1 by lia. reflexivity.
  - rewrite (continuation_value_of _ _ _ r Hdiv0), Hb2 by lia. reflexivity.
Qed.

Lemma encode_three b1 b2 b3 q r s :
  Byte.to_N b1 = 0xE0 + q -> Byte.to_N b2 = 0x80 + r -> Byte.to_N b3 = 0x80 + s ->
  q <= 15 -> r < 64 -> s < 64 -> (q = 0 -> 32 <= r) ->
  utf8_encode_code_point ((q * 64 + r) * 64 + s) = [b1; b2; b3].
Proof.
  intros Hb1 Hb2 Hb3 Hq Hr Hs Hlow. unfold utf8_encode_code_point.
  set (cp := (q * 64 + r) * 64 + s).
  assert (Hcp : 0x7FF < cp <= 0xFFFF) by (unfold cp; lia).
  destruct (N.leb_spec cp 0x7F); [lia|]. destruct (N.leb_spec cp 0x7FF); [lia|].
  destruct (N.leb_spec cp 0xFFFF); [|lia].
  assert (Hdiv2 : cp / 2 ^ 12 = q) by (change (2 ^ 12) with 4096; unfold cp; lia).
  assert (Hdiv1 : cp / 2 ^ 6 = q * 64 + r) by (change (2 ^ 6) with 64; unfold cp; lia).
  assert (Hdiv0 : cp / 2 ^ 0 = cp) by apply N.div_1_r.
  f_equal; [|f_equal; [|f_equal]]; apply to_N_inj.
  - rewrite (lead_value _ _ _ _ Hdiv2), Hb1 by lia. reflexivity.
  - rewrite (continuation_value_of _ _ _ r Hdiv1), Hb2 by lia. reflexivity.
  - rewrite (continuation_value_of _ _ _ s Hdiv0), Hb3 by (unfold cp; lia). reflexivity.
Qed.

Lemma encode_four b1 b2 b3 b4 q r s t :
  Byte.to_N b1 = 0xF0 + q -> Byte.to_N b2 = 0x80 + r ->
  Byte.to_N b3 = 0x80 + s -> Byte.to_N b4 = 0x80 + t ->
  q <= 4 -> r < 64 -> s < 64 -> t < 64 -> (q = 0 -> 16 <= r) ->
  utf8_encode_code_point (((q * 64 + r) * 64 + s) * 64 + t) = [b1; b2; b3; b4].
Proof.
  intros Hb1 Hb2 Hb3 Hb4 Hq Hr Hs Ht Hlow. unfold utf8_encode_code_point.
  set (cp := ((q * 64 + r) * 64 + s) * 64 + t).
  assert (Hcp : 0xFFFF < cp) by (unfold cp; lia).
  destruct (N.leb_spec cp 0x7F); [lia|]. destruct (N.leb_spec cp 0x7FF); [lia|].
  destruct (N.leb_spec cp 0xFFFF); [lia|].
  assert (Hdiv3 : cp / 2 ^ 18 = q) by (change (2 ^ 18) with 262144; unfold cp; lia).
  assert (Hdiv2 : cp / 2 ^ 12 = q * 64 + r) by (change (2 ^ 12) with 4096; unfold cp; lia).
  assert (Hdiv1 : cp / 2 ^ 6 = (q * 64 + r) * 64 + s)
    by (change (2 ^ 6) with 64; unfold cp; lia).
  assert (Hdiv0 : cp / 2 ^ 0 = cp) by apply N.div_1_r.
  f_equal; [|f_equal; [|f_equal; [|f_equal]]]; apply to_N_inj.
  - rewrite (lead_value _ _ _ _ Hdiv3), Hb1 by lia. reflexivity.
  - rewrite (continuation_value_of _ _ _ r Hdiv2), Hb2 by lia. reflexivity.
  - rewrite (continuation_value_of _ _ _ s Hdiv1), Hb3 by lia. reflexivity.
  - rewrite (continuation_value_of _ _ _ t Hdiv0), Hb4 by (unfold cp; lia). reflexivity.
Qed.

(** *** One step of the decoder *)

Lemma handler_start b : step_ok [] b (utf8_handler utf8_decoder_start (Byte.to_N b)).
Proof.
  pose proof (to_N_byte b) as Hbyte. remember (Byte.to_N b) as n eqn:Hn.
  destruct (N.le_gt_cases n 0x7F).
  { rewrite handler_ascii by assumption. cbn. split; [reflexivity|].
    split; [unfold is_scalar; lia|]. subst n. apply encode_one. assumption. }
  destruct (N.lt_ge_cases n 0xC2).
  { rewrite handler_invalid_lead by lia. reflexivity. }
  destruct (N.le_gt_cases n 0xDF).
  { replace n with (0xC0 + (n - 0xC0)) by lia. rewrite handler_lead2_value by lia.
    cbn. apply pending_two; lia. }
  destruct (N.le_gt_cases n 0xEF).
  { replace n with (0xE0 + (n - 0xE0)) by lia. rewrite handler_lead3_value by lia.
    cbn. apply pending_three; lia. }
  destruct (N.le_gt_cases n 0xF4).
  { replace n with (0xF0 + (n - 0xF0)) by lia. rewrite handler_lead4_value by lia.
    cbn. apply pending_four; lia. }
  rewrite handler_invalid_lead by lia. reflexivity.
Qed.

Ltac out_of_bounds :=
  rewrite handler_out_of_bounds by (cbn; first [discriminate | lia]); reflexivity.

Ltac continuation n :=
  destruct (N.lt_ge_cases n 0x80); [out_of_bounds|];
  destruct (N.le_gt_cases n 0xBF); [|out_of_bounds];
  replace n with (0x80 + (n - 0x80)) by lia;
  rewrite handler_continuation by (cbn; first [discriminate | lia]).

Lemma handler_step d prefix b :
  pending d prefix -> step_ok prefix b (utf8_handler d (Byte.to_N b)).
Proof.
  intros Hpending. pose proof (to_N_byte b) as Hbyte.
  destruct Hpending as [|b1 q Hb1 Hq|b1 q Hb1 Hq|b1 b2 q r Hb1 Hb2 Hq Hr Hlow Hhigh
                        |b1 q Hb1 Hq|b1 b2 q r Hb1 Hb2 Hq Hr Hlow Hhigh
                        |b1 b2 b3 q r s Hb1 Hb2 Hb3 Hq Hr Hs Hlow Hhigh].
  - apply handler_start.
  - remember (Byte.to_N b) as n eqn:Hn. continuation n.
    change (step_ok [b1] b (CodePoint (q * 64 + (n - 0x80)) utf8_decoder_start)).
    split; [reflexivity|]. split; [unfold is_scalar; lia|].
    apply encode_two; lia.
  - remember (Byte.to_N b) as n eqn:Hn.
    assert (Hstep : forall r, n = 0x80 + r -> r < 64 ->
              (q = 0 -> 32 <= r) -> (q = 13 -> r < 32) ->
              step_ok [b1] b
                (Continue {| code_point := q * 64 + r; bytes_seen := 1; bytes_needed := 2;
                             lower_boundary := 0x80; upper_boundary := 0xBF |})).
    { intros r Hr Hlt Hlow Hhigh. apply (pending_three_one b1 b q r); try assumption. lia. }
    destruct (N.eqb_spec q 0), (N.eqb_spec q 13); try lia.
    + destruct (N.lt_ge_cases n 0xA0); [out_of_bounds|].
      destruct (N.le_gt_cases n 0xBF); [|out_of_bounds].
      replace n with (0x80 + (n - 0x80)) at 1 by lia.
      rewrite handler_continuation by (cbn; first [discriminate | lia]).
      apply Hstep; lia.
    + destruct (N.lt_ge_cases n 0x80); [out_of_bounds|].
      destruct (N.le_gt_cases n 0x9F); [|out_of_bounds].
      replace n with (0x80 + (n - 0x80)) at 1 by lia.
      rewrite handler_continuation by (cbn; first [discriminate | lia]).
      apply Hstep; lia.
    + destruct (N.lt_ge_cases n 0x80); [out_of_bounds|].
      destruct (N.le_gt_cases n 0xBF); [|out_of_bounds].
      replace n with (0x80 + (n - 0x80)) at 1 by lia.
      rewrite handler_continuation by (cbn; first [discriminate | lia]).
      apply Hstep; lia.
  - remember (Byte.to_N b) as n eqn:Hn. continuation n.
    change (step_ok [b1; b2] b
              (CodePoint ((q * 64 + r) * 64 + (n - 0x80)) utf8_decoder_start)).
    split; [reflexivity|]. split; [unfold is_scalar; lia|].
    apply encode_three; try assumption; lia.
  - remember (Byte.to_N b) as n eqn:Hn.
    assert (Hstep : forall r, n = 0x80 + r -> r < 64 ->
              (q = 0 -> 16 <= r) -> (q = 4 -> r < 16) ->
              step_ok [b1] b
                (Continue {| code_point := q * 64 + r; bytes_seen := 1; bytes_needed := 3;
                             lower_boundary := 0x80; upper_boundary := 0xBF |})).
    { intros r Hr Hlt Hlow Hhigh. apply (pending_four_one b1 b q r); try assumption. lia. }
    destruct (N.eqb_spec q 0), (N.eqb_spec q 4); try lia.
    + destruct (N.lt_ge_cases n 0x90); [out_of_bounds|].
      destruct (N.le_gt_cases n 0xBF); [|out_of_bounds].
      replace n with (0x80 + (n - 0x80)) at 1 by lia.
      rewrite handler_continuation by (cbn; first [discriminate | lia]).
      apply Hstep; lia.
    + destruct (N.lt_ge_cases n 0x80); [out_of_bounds|].
      destruct (N.le_gt_cases n 0x8F); [|out_of_bounds].
      replace n with (0x80 + (n - 0x80)) at 1 by lia.
      rewrite handler_continuation by (cbn; first [discriminate | lia]).
      apply Hstep; lia.
    + destruct (N.lt_ge_cases n 0x80); [out_of_bounds|].
      destruct (N.le_gt_cases n 0xBF); [|out_of_bounds].
      replace n with (0x80 + (n - 0x80)) at 1 by lia.
      rewrite handler_continuation by (cbn; first [discriminate | lia]).
      apply Hstep; lia.
  - remember (Byte.to_N b) as n eqn:Hn. continuation n.
    change (step_ok [b1; b2] b
              (Continue {| code_point := (q * 64 + r) * 64 + (n - 0x80);
                           bytes_seen := 2; bytes_needed := 3;
                           lower_boundary := 0x80; upper_boundary := 0xBF |})).
    apply (pending_four_two b1 b2 b q r (n - 0x80)); try assumption; lia.
  - remember (Byte.to_N b) as n eqn:Hn. continuation n.
    change (step_ok [b1; b2; b3] b
              (CodePoint (((q * 64 + r) * 64 + s) * 64 + (n - 0x80)) utf8_decoder_start)).
    split; [reflexivity|]. split; [unfold is_scalar; lia|].
    apply encode_four; try assumption; lia.
Qed.

(** *** Runs of the decoder *)

Lemma pending_complete d prefix :
  pending d prefix -> bytes_needed d = 0 -> d = utf8_decoder_start /\ prefix = [].
Proof. intros Hpending. destruct Hpending; cbn; intros Hneeded; try discriminate. auto. Qed.

Lemma scalar_replacement : is_scalar replacement_character.
Proof. unfold is_scalar, replacement_character. lia. Qed.

(** In fatal mode the decoder returns scalar values only, and their
    encoding is the bytes it read. *)
Lemma utf8_decode_fatal_sound queue d prefix cps :
  pending d prefix -> utf8_decode true d queue = Ok cps ->
  Forall is_scalar cps /\ cps ≫= utf8_encode_code_point = prefix ++ queue.
Proof.
  revert d prefix cps. induction queue as [|b rest IH]; intros d prefix cps Hpending.
  - cbn [utf8_decode]. destruct (N.eqb_spec (bytes_needed d) 0) as [Hneeded|]; [|discriminate].
    intros [= <-]. destruct (pending_complete _ _ Hpending Hneeded) as [_ ->].
    split; [constructor|reflexivity].
  - cbn [utf8_decode]. pose proof (handler_step d prefix b Hpending) as Hstep.
    destruct (utf8_handler d (Byte.to_N b)) as [d'|cp d'|d'|d']; cbn [step_ok] in Hstep;
      try discriminate.
    + intros Hrest. destruct (IH _ _ _ Hstep Hrest) as [Hscalar Hbytes].
      split; [assumption|]. rewrite Hbytes, <- app_assoc. reflexivity.
    + destruct Hstep as (-> & Hcp & Hencode).
      destruct (utf8_decode true utf8_decoder_start rest) as [cps'|] eqn:Hrest; [|discriminate].
      intros [= <-]. destruct (IH _ _ _ pending_none Hrest) as [Hscalar Hbytes].
      split; [constructor; assumption|].
      rewrite bind_cons, Hencode, Hbytes, <- app_assoc. reflexivity.
Qed.

(** In either mode the decoder returns scalar values only. *)
Lemma utf8_decode_scalar fatal queue d prefix cps :
  pending d prefix -> utf8_decode fatal d queue = Ok cps -> Forall is_scalar cps.
Proof.
  revert d prefix cps. induction queue as [|b rest IH]; intros d prefix cps Hpending.
  - cbn [utf8_decode]. destruct (bytes_needed d =? 0); [intros [= <-]; constructor|].
    destruct fatal; [discriminate|]. intros [= <-].
    constructor; [apply scalar_replacement|constructor].
  - assert (Hcons : forall cp d',
              is_scalar cp -> forall cps,
              cons cp <$> utf8_decode fatal d' rest = Ok cps ->
              (exists prefix', pending d' prefix') -> Forall is_scalar cps).
    { intros cp d' Hcp cps0 Hrun [prefix' Hd'].
      destruct (utf8_decode fatal d' rest) as [cps'|] eqn:Hrest; [|discriminate].
      injection Hrun as <-. constructor; [assumption|]. eapply IH; eauto. }
    cbn [utf8_decode]. pose proof (handler_step d prefix b Hpending) as Hstep.
    destruct (utf8_handler d (Byte.to_N b)) as [d'|cp d'|d'|d']; cbn [step_ok] in Hstep.
    + apply IH with (prefix := prefix ++ [b]). assumption.
    + destruct Hstep as (-> & Hcp & _). intros Hrun.
      apply (Hcons cp utf8_decoder_start Hcp _ Hrun). exists []. constructor.
    + subst d'. destruct fatal; [discriminate|]. intros Hrun.
      apply (Hcons _ utf8_decoder_start scalar_replacement _ Hrun). exists []. constructor.
    + subst d'. destruct fatal; [discriminate|].
      pose proof (handler_step utf8_decoder_start [] b pending_none) as Hagain.
      destruct (utf8_handler utf8_decoder_start (Byte.to_N b)) as [d'|cp d'|d'|d'];
        cbn [step_ok] in Hagain.
      * destruct (utf8_decode false d' rest) as [cps'|] eqn:Hrest; [|discriminate].
        intros [= <-]. constructor; [apply scalar_replacement|]. eapply IH; eauto.
      * destruct Hagain as (-> & Hcp & _).
        destruct (utf8_decode false utf8_decoder_start rest) as [cps'|] eqn:Hrest;
          [|discriminate].
        intros [= <-]. constructor; [apply scalar_replacement|].
        constructor; [assumption|]. eapply IH; [apply pending_none|exact Hrest].
      * subst d'.
        destruct (utf8_decode false utf8_decoder_start rest) as [cps'|] eqn:Hrest;
          [|discriminate].
        intros [= <-]. constructor; [apply scalar_replacement|].
        constructor; [apply scalar_replacement|]. eapply IH; [apply pending_none|exact Hrest].
      * subst d'.
        destruct (utf8_decode false utf8_decoder_start rest) as [cps'|] eqn:Hrest;
          [|discriminate].
        intros [= <-]. constructor; [apply scalar_replacement|].
        constructor; [apply scalar_replacement|]. eapply IH; [apply pending_none|exact Hrest].
Qed.

(** *** The code units of scalar values *)

Lemma utf16_encode_scalars cps :
  Forall is_scalar cps ->
  isWellFormed (cps ≫= utf16_encode_code_point) = true /\
  scalar_values (cps ≫= utf16_encode_code_point) = cps.
Proof.
  induction 1 as [|cp cps Hcp _ [IHwf IHvalues]]; [split; reflexivity|].
  rewrite bind_cons. destruct (N.le_gt_cases cp 0xFFFF) as [Hsmall|Hlarge].
  - assert (Hunits : utf16_encode_code_point cp = [cp]).
    { unfold utf16_encode_code_point. destruct (N.leb_spec cp 0xFFFF); [reflexivity|lia]. }
    assert (Hhigh : is_high_surrogate cp = false).
    { unfold is_high_surrogate. apply andb_false_iff. rewrite !N.leb_gt.
      destruct Hcp; lia. }
    assert (Hlow : is_low_surrogate cp = false).
    { unfold is_low_surrogate. apply andb_false_iff. rewrite !N.leb_gt.
      destruct Hcp; lia. }
    rewrite Hunits. cbn [app]. rewrite scalar_values_unit by assumption.
    cbn [isWellFormed]. rewrite Hhigh, Hlow, IHwf, IHvalues. cbn [negb andb].
    rewrite (proj2 (N.leb_le _ _) Hsmall). split; reflexivity.
  - assert (Hmax : cp <= 0x10FFFF) by (destruct Hcp; lia).
    set (hi := 0xD800 + (cp - 0x10000) / 1024). set (lo := 0xDC00 + (cp - 0x10000) mod 1024).
    assert (Hunits : utf16_encode_code_point cp = [hi; lo]).
    { unfold utf16_encode_code_point. destruct (N.leb_spec cp 0xFFFF); [lia|].
      rewrite N.shiftr_div_pow2, land_1023. reflexivity. }
    assert (Hhigh : is_high_surrogate hi = true).
    { unfold is_high_surrogate. apply andb_true_iff. rewrite !N.leb_le. unfold hi. lia. }
    assert (Hlow : is_low_surrogate lo = true).
    { unfold is_low_surrogate. apply andb_true_iff. rewrite !N.leb_le. unfold lo. lia. }
    rewrite Hunits. cbn [app]. rewrite scalar_values_pair by assumption.
    cbn [isWellFormed]. rewrite Hhigh, Hlow, IHwf, IHvalues. split; [reflexivity|]. f_equal.
    rewrite N.shiftl_mul_pow2. change (2 ^ 10) with 1024. unfold hi, lo. lia.
Qed.

(** What the text decoder returns, in either mode, is a well-formed string. *)
Lemma TextDecoder_well_formed fatal data text :
  TextDecoder_decode fatal data = Ok text -> isWellFormed text = true.
Proof.
  unfold TextDecoder_decode.
  destruct (utf8_decode fatal utf8_decoder_start data) as [cps|] eqn:Hcps; [|discriminate].
  intros [= <-]. apply utf16_encode_scalars.
  eapply utf8_decode_scalar; [apply pending_none|exact Hcps].
Qed.

(** The fatal text decoder returns the one well-formed string that the text
    encoder maps to the bytes. *)
Lemma TextDecoder_fatal_spec data text :
  TextDecoder_decode true data = Ok text <->
  isWellFormed text = true /\ TextEncoder_encode text = data.
Proof.
  split.
  - intros Hdecode. split; [eapply TextDecoder_well_formed; eauto|].
    unfold TextDecoder_decode in Hdecode.
    destruct (utf8_decode true utf8_decoder_start data) as [cps|] eqn:Hcps; [|discriminate].
    injection Hdecode as <-.
    destruct (utf8_decode_fatal_sound _ _ _ _ pending_none Hcps) as [Hscalar Hbytes].
    unfold TextEncoder_encode.
    rewrite (proj2 (utf16_encode_scalars _ Hscalar)). exact Hbytes.
  - intros [Hwf <-]. apply TextDecoder_TextEncoder. assumption.
Qed.

(** In replacement mode the decoder returns, whatever the bytes. *)
Lemma utf8_decode_replace_returns d queue : exists cps, utf8_decode false d queue = Ok cps.
Proof.
  assert (Hcons : forall cp (r : result (list N)),
            (exists cps, r = Ok cps) -> exists cps, cons cp <$> r = Ok cps).
  { intros cp r [cps ->]. eexists. reflexivity. }
  assert (Hall : forall n d queue, (length queue <= n)%nat ->
                                   exists cps, utf8_decode false d queue = Ok cps).
  { clear d queue. induction n as [|n IH]; intros d queue Hlen.
    - destruct queue; [|cbn in Hlen; lia]. cbn [utf8_decode].
      destruct (bytes_needed d =? 0); eauto.
    - destruct queue as [|b rest]; cbn [utf8_decode].
      + destruct (bytes_needed d =? 0); eauto.
      + assert (Hrest : forall d', exists cps, utf8_decode false d' rest = Ok cps)
          by (intros d'; apply IH; cbn in Hlen; lia).
        destruct (utf8_handler d (Byte.to_N b)) as [d'|cp d'|d'|d']; auto.
        destruct (utf8_handler d' (Byte.to_N b)) as [d''|cp d''|d''|d'']; auto. }
  apply (Hall (length queue)). lia.
Qed.

End DecoderFacts.

(** ** Decoding, and decoding what [encode] returns *)

Module DecodingProperties.
Import BytePairEncoder PartList Readings Notions MergeFacts SegmentFacts.
Import EncodingFacts RoundTripFacts UtfFacts Examples EncodingProperties DecoderFacts.

(** *** Well-formed strings and concatenation *)

Lemma well_formed_app_l (s s' : jsstring) :
  isWellFormed (s ++ s') = true ->
  match s' with c :: _ => is_low_surrogate c = false | [] => True end ->
  isWellFormed s = true /\ isWellFormed s' = true.
Proof.
  intros Hwf Hhead.
  assert (Hall : forall n s, (length s <= n)%nat -> isWellFormed (s ++ s') = true ->
                             isWellFormed s = true /\ isWellFormed s' = true).
  { clear s Hwf. induction n as [|n IH]; intros s Hlen Hwf.
    - destruct s; [auto|cbn in Hlen; lia].
    - destruct s as [|c rest]; [auto|]. cbn [app isWellFormed] in Hwf |- *.
      destruct (is_high_surrogate c) eqn:Hhigh.
      + destruct rest as [|d rest].
        * cbn [app] in Hwf. destruct s' as [|d s'']; [discriminate|].
          rewrite Hhead in Hwf. discriminate.
        * cbn [app] in Hwf. apply andb_true_iff in Hwf as [Hlow Hwf].
          rewrite Hlow. cbn [andb]. apply IH; [cbn in *; lia|assumption].
      + apply andb_true_iff in Hwf as [Hunit Hwf]. rewrite Hunit. cbn [andb].
        apply IH; [cbn in *; lia|assumption]. }
  apply (Hall (length s)); [lia|assumption].
Qed.

Lemma well_formed_app_r (s s' : jsstring) :
  isWellFormed s = true -> isWellFormed (s ++ s') = true -> isWellFormed s' = true.
Proof.
  intros Hwf. revert s Hwf.
  apply (well_formed_ind (fun s => isWellFormed (s ++ s') = true -> isWellFormed s' = true));
    [|intros c rest Hhigh Hlow Hmax _ IH|intros c d rest Hhigh Hlow _ IH].
  - auto.
  - cbn [app isWellFormed]. rewrite Hhigh. intros H.
    apply andb_true_iff in H as [_ H]. auto.
  - cbn [app isWellFormed]. rewrite Hhigh. intros H.
    apply andb_true_iff in H as [_ H]. auto.
Qed.

Lemma well_formed_head (s : jsstring) :
  isWellFormed s = true -> s <> [] ->
  match s with c :: _ => is_low_surrogate c = false | [] => True end.
Proof.
  destruct s as [|c rest]; [congruence|]. cbn [isWellFormed]. intros Hwf _.
  destruct (is_high_surrogate c) eqn:Hhigh.
  - unfold is_high_surrogate, is_low_surrogate in *.
    apply andb_true_iff in Hhigh as [_ Hhigh]. apply N.leb_le in Hhigh.
    apply andb_false_iff. left. apply N.leb_gt. lia.
  - apply andb_true_iff in Hwf as [Hwf _]. apply andb_true_iff in Hwf as [Hlow _].
    apply negb_true_iff in Hlow. exact Hlow.
Qed.

(** A well-formed text around a well-formed token: the two sides are
    well-formed, and the bytes of the text are those of the three parts. *)
Lemma well_formed_around (before token after : jsstring) :
  isWellFormed (before ++ token ++ after) = true ->
  isWellFormed token = true -> token <> [] ->
  isWellFormed before = true /\ isWellFormed after = true /\
  TextEncoder_encode (before ++ token ++ after)
    = TextEncoder_encode before ++ TextEncoder_encode token ++ TextEncoder_encode after.
Proof.
  intros Hwf Htoken Hne.
  destruct (well_formed_app_l before (token ++ after) Hwf) as [Hbefore Hrest].
  { pose proof (well_formed_head token Htoken Hne) as Hhead.
    destruct token; [congruence|exact Hhead]. }
  pose proof (well_formed_app_r _ _ Htoken Hrest) as Hafter.
  split; [assumption|]. split; [assumption|].
  rewrite !TextEncoder_app by assumption. reflexivity.
Qed.

(** *** The round trip at the level of bytes *)

Section Bytes.
Context (engine : Engine).
Context (name patStr : jsstring) (table : list (bytes * N)) (specialTokens : jsobject).
Context (enc : Encoding.t) (allowedSpecial disallowedSpecial : Encoding.SpecialOption).
Context (text : jsstring).

Hypothesis Hbuilt :
  Encoding.constructor engine name patStr (keyed table) specialTokens = Ok enc.
Hypothesis Hkeys : NoDup table.*1.
Hypothesis Hranks : NoDup table.*2.
Hypothesis Hsingle : all_single_bytes (map_table (keyed table)).
Hypothesis Hids : NoDup specialTokens.*2.
Hypothesis Hdisjoint : forall id, id ∈ specialTokens.*2 -> id ∉ table.*2.
Hypothesis Hspecial :
  Forall (fun token => token <> [] /\ isWellFormed token = true) specialTokens.*1.
Hypothesis Hpattern : forall s,
  occurs_in s text -> isWellFormed s = true ->
  concat (Encoding._pattern enc s) = s /\
  Forall (fun piece => piece <> [] /\ isWellFormed piece = true) (Encoding._pattern enc s).

Lemma encodeOrdinary_bytes s :
  occurs_in s text -> isWellFormed s = true -> within_arguments enc s ->
  exists tokens,
    Encoding.ordinary_arguments enc s = Ok tokens /\
    Encoding.decodeBytes enc tokens = Ok (TextEncoder_encode s).
Proof.
  intros Hin Hwf Hwithin.
  destruct (Hpattern s Hin Hwf) as [Hcat Hpieces].
  assert (Hbytes : concat (TextEncoder_encode <$> Encoding._pattern enc s)
                   = TextEncoder_encode s).
  { rewrite <- TextEncoder_concat, Hcat; [reflexivity|].
    eapply Forall_impl; [exact Hpieces|]. intros piece [_ Hpiece]. exact Hpiece. }
  destruct (ordinary_arguments_built _ _ _ _ _ _ s Hbuilt Hkeys Hranks Hsingle)
    as (tokens & Hencode & Hdecode & _).
  - eapply Forall_impl; [exact Hpieces|]. intros piece [Hne _]. exact Hne.
  - rewrite Hbytes, <- (constructor_engine _ _ _ _ _ _ Hbuilt). exact Hwithin.
  - exists tokens. split; [exact Hencode|]. rewrite Hdecode.
    destruct s; [reflexivity|]. rewrite Hbytes. reflexivity.
Qed.

Lemma special_token_bytes token id :
  own_property specialTokens token = Some id ->
  Encoding.decodeBytes enc [id] = Ok (TextEncoder_encode token).
Proof.
  intros Hid. apply own_property_elem in Hid.
  destruct (constructor_fields _ _ _ _ _ _ Hbuilt) as (_ & _ & _ & _ & Hdecoder).
  destruct (constructor_more _ _ _ _ _ _ Hbuilt) as [Hspecials _].
  rewrite build_decoder_keyed in Hdecoder. injection Hdecoder as Hdecoder.
  cbn [Encoding.decodeBytes]. unfold Encoding.token_bytes.
  rewrite <- Hdecoder, decoder_of_fresh, lookup_empty.
  2:{ apply Hdisjoint, list_elem_of_fmap. exists (token, id). auto. }
  rewrite Hspecials, (special_decoder_member _ _ _ _ Hids Hid).
  cbn [mbind result_bind]. rewrite app_nil_r. reflexivity.
Qed.

Lemma encode_bytes s :
  occurs_in s text -> isWellFormed s = true -> within_arguments enc s ->
  (forall t, t ∈ effective_disallowed specialTokens allowedSpecial disallowedSpecial ->
     ~ occurs_in t s) ->
  exists tokens,
    Encoding.encode enc s allowedSpecial disallowedSpecial = Ok tokens /\
    Encoding.decodeBytes enc tokens = Ok (TextEncoder_encode s).
Proof.
  assert (Hempty : [] ∉ specialTokens.*1).
  { intros Hin. apply (proj1 (Forall_forall _ _) Hspecial) in Hin as [Hne _]. congruence. }
  remember (length s) as n eqn:Hlen. revert s Hlen.
  induction n as [n IH] using lt_wf_ind. intros s Hlen Hin Hwf Hwithin Hclean.
  destruct (first_allowed_match specialTokens allowedSpecial s) as [[i token]|] eqn:Hfirst.
  - destruct (first_allowed_match_some _ _ _ _ _ Hempty Hfirst)
      as (Hkey & before & after & Heq & Hi).
    subst i.
    destruct (own_property_is_Some _ _ Hkey) as [id Hid].
    apply (proj1 (Forall_forall _ _) Hspecial) in Hkey as [Hne Htoken].
    rewrite Heq in Hwf.
    destruct (well_formed_around _ _ _ Hwf Htoken Hne) as (Hbefore & Hafter & Hbytes).
    unfold within_arguments in Hwithin. rewrite Heq, Hbytes, !length_app in Hwithin.
    rewrite (encode_first_allowed _ _ _ _ _ _ _ _ _ _ _ _ _ Hbuilt Hclean Hempty Hid Heq Hfirst).
    destruct Hin as (l & r & Htext).
    destruct (encodeOrdinary_bytes before) as (tokensBefore & -> & HdecodeBefore);
      [|assumption|unfold within_arguments; lia|].
    { exists l, (token ++ after ++ r). rewrite Htext, Heq, <- !app_assoc. reflexivity. }
    destruct (IH (length after)) with (s := after) as (tokensAfter & -> & HdecodeAfter);
      try assumption; try reflexivity.
    { rewrite Hlen, Heq, !length_app. destruct token; [congruence|cbn [length]; lia]. }
    { exists (l ++ before ++ token), r. rewrite Htext, Heq, <- !app_assoc. reflexivity. }
    { unfold within_arguments. lia. }
    { intros t Ht (l' & r' & ->). apply (Hclean t Ht).
      exists (before ++ token ++ l'), r'. rewrite Heq, <- !app_assoc. reflexivity. }
    cbn [mbind result_bind]. eexists. split; [reflexivity|].
    rewrite !decodeBytes_app, HdecodeBefore, HdecodeAfter, (special_token_bytes _ _ Hid).
    cbn [mbind result_bind]. rewrite Heq, Hbytes. reflexivity.
  - rewrite (encode_ordinary_only _ _ _ _ _ _ _ _ _ Hbuilt Hclean Hfirst).
    destruct (encodeOrdinary_bytes s Hin Hwf Hwithin) as (tokens & Hencode & Hdecode).
    exists tokens. split; [|assumption].
    destruct (_ || _); [apply ordinary_arguments_Ok|]; assumption.
Qed.

End Bytes.

(** *** Decoding *)

Lemma strict_flag errors : errors <> js "strict" -> bool_decide (errors = js "strict") = false.
Proof. intros Hne. apply bool_decide_eq_false_2. assumption. Qed.

Lemma decode_of_bytes enc tokens errors text :
  isWellFormed text = true ->
  Encoding.decodeBytes enc tokens = Ok (TextEncoder_encode text) ->
  Encoding.decode enc tokens errors = Ok text.
Proof.
  intros Hwf Hbytes. unfold Encoding.decode. rewrite Hbytes. cbn [mbind result_bind].
  rewrite TextDecoder_TextEncoder by assumption. reflexivity.
Qed.

(** X18. Unless [errors] is ['strict'], [decode] fails exactly when
    [decodeBytes] fails, and with its error: the text decoder itself never
    throws, whatever the bytes. *)
Theorem decode_fails_only_on_unknown_token enc tokens errors e :
  errors <> js "strict" ->
  Encoding.decode enc tokens errors = Throw e <-> Encoding.decodeBytes enc tokens = Throw e.
Proof.
  intros Hne. unfold Encoding.decode.
  destruct (Encoding.decodeBytes enc tokens) as [data|e']; cbn [mbind result_bind];
    [|split; intros [= ->]; reflexivity].
  rewrite (strict_flag _ Hne). unfold TextDecoder_decode.
  destruct (utf8_decode_replace_returns utf8_decoder_start data) as [cps ->].
  cbn [mbind result_bind]. split; discriminate.
Qed.

Lemma decode_fails_only_on_unknown_token_witness :
  exists enc,
    example_encoding = Ok enc /\
    (Encoding.decode enc [97; 999]%N (js "replace") = Throw (InvalidTokenId 999) <->
     Encoding.decodeBytes enc [97; 999]%N = Throw (InvalidTokenId 999)).
Proof.
  eexists. split; [reflexivity|].
  apply (decode_fails_only_on_unknown_token _ [97; 999]%N (js "replace")).
  intros Heq. vm_compute in Heq. discriminate Heq.
Defined.

(** X19. The round trip through [encode]: on an instance built on distinct
    byte sequences with distinct ranks that hold all 256 single bytes, on
    non-empty well-formed special tokens with distinct ids that are no
    ranks, and on a pattern whose matches on every well-formed part of the
    text are non-empty well-formed pieces that make up that part, [encode]
    succeeds on every well-formed text that has no more UTF-8 bytes than
    the engine passes arguments in one call and in which no string of the
    effective disallowed set occurs, whatever the options, and [decode] of
    its tokens gives the text back under every error policy. *)
Theorem encode_decode_round_trip
    (engine : Engine)
    (name patStr : jsstring) (table : list (bytes * N)) (specialTokens : jsobject)
    (enc : Encoding.t) (allowedSpecial disallowedSpecial : Encoding.SpecialOption)
    (errors text : jsstring) :
  Encoding.constructor engine name patStr (keyed table) specialTokens = Ok enc ->
  NoDup table.*1 -> NoDup table.*2 ->
  all_single_bytes (map_table (keyed table)) ->
  NoDup specialTokens.*2 ->
  (forall id, id ∈ specialTokens.*2 -> id ∉ table.*2) ->
  Forall (fun token => token <> [] /\ isWellFormed token = true) specialTokens.*1 ->
  (forall s, occurs_in s text -> isWellFormed s = true ->
     concat (Encoding._pattern enc s) = s /\
     Forall (fun piece => piece <> [] /\ isWellFormed piece = true)
       (Encoding._pattern enc s)) ->
  isWellFormed text = true ->
  within_arguments enc text ->
  (forall t, t ∈ effective_disallowed specialTokens allowedSpecial disallowedSpecial ->
     ~ occurs_in t text) ->
  exists tokens,
    Encoding.encode enc text allowedSpecial disallowedSpecial = Ok tokens /\
    Encoding.decode enc tokens errors = Ok text.
Proof.
  intros Hbuilt Hkeys Hranks Hsingle Hids Hdisjoint Hspecial Hpattern Hwf Hwithin Hclean.
  destruct (encode_bytes engine name patStr table specialTokens enc
              allowedSpecial disallowedSpecial text Hbuilt Hkeys Hranks Hsingle Hids
              Hdisjoint Hspecial Hpattern text) as (tokens & Hencode & Hbytes);
    try assumption.
  { exists [], []. rewrite app_nil_r. reflexivity. }
  exists tokens. split; [assumption|]. apply decode_of_bytes; assumption.
Qed.

Lemma encode_decode_round_trip_witness :
  exists enc tokens,
    example_encoding = Ok enc /\
    Encoding.encode enc (js "ab<|endoftext|>" ++ [0xD83D; 0xDE00]%N)
      Encoding.AllSpecial Encoding.NotGiven = Ok tokens /\
    Encoding.decode enc tokens (js "strict")
      = Ok (js "ab<|endoftext|>" ++ [0xD83D; 0xDE00]%N).
Proof.
  eexists.
  destruct (encode_decode_round_trip whole_text_engine (js "example") (js "[\s\S]+")
              example_table example_specials _ Encoding.AllSpecial Encoding.NotGiven
              (js "strict") (js "ab<|endoftext|>" ++ [0xD83D; 0xDE00]%N) eq_refl
              example_table_keys example_table_ranks example_ranks_single_bytes
              example_specials_ids example_specials_disjoint)
    as (tokens & Hencode & Hdecode).
  - repeat constructor; discriminate.
  - intros s _ Hwf. destruct s as [|c s]; [split; [reflexivity|constructor]|].
    split; [apply app_nil_r|]. repeat constructor; [discriminate|exact Hwf].
  - reflexivity.
  - vm_compute. discriminate.
  - intros t Ht. inversion Ht.
  - exists tokens. split; [reflexivity|]. split; assumption.
Defined.

(** X20. Under ['strict'], [decode] is lossless: it returns a text exactly
    when that text is well-formed and its UTF-8 encoding is the bytes of the
    tokens. *)
Theorem decode_strict_lossless enc tokens text :
  Encoding.decode enc tokens (js "strict") = Ok text <->
  isWellFormed text = true /\
  Encoding.decodeBytes enc tokens = Ok (TextEncoder_encode text).
Proof.
  assert (Hstrict : bool_decide (js "strict" = js "strict") = true) by reflexivity.
  assert (Hignore : bool_decide (js "strict" = js "ignore") = false)
    by (vm_compute; reflexivity).
  split.
  - unfold Encoding.decode.
    destruct (Encoding.decodeBytes enc tokens) as [data|]; [|discriminate].
    cbn [mbind result_bind]. rewrite Hstrict, Hignore.
    destruct (TextDecoder_decode true data) as [text'|] eqn:Hdecode; [|discriminate].
    intros [= ->]. apply TextDecoder_fatal_spec in Hdecode as [Hwf <-]. auto.
  - intros [Hwf Hbytes]. apply decode_of_bytes; assumption.
Qed.

(** X21. Whatever the tokens and the error policy, a text that [decode]
    returns is well-formed: it has no lone surrogate. *)
Theorem decode_returns_well_formed enc tokens errors text :
  Encoding.decode enc tokens errors = Ok text -> isWellFormed text = true.
Proof.
  unfold Encoding.decode.
  destruct (Encoding.decodeBytes enc tokens) as [data|]; [|discriminate].
  cbn [mbind result_bind].
  destruct (TextDecoder_decode _ data) as [text'|] eqn:Hdecode.
  - intros [= <-]. eapply TextDecoder_well_formed; eauto.
  - destruct (bool_decide (errors = js "ignore")); discriminate.
Qed.

Lemma decode_returns_well_formed_witness :
  exists enc,
    example_encoding = Ok enc /\
    Encoding.decode enc [97; 255]%N (js "replace") = Ok [0x61; 0xFFFD]%N /\
    isWellFormed [0x61; 0xFFFD]%N = true.
Proof.
  eexists. split; [reflexivity|].
  lazymatch goal with
  | |- ?call = ?text /\ _ => assert (Hdecode : call = text) by (vm_compute; reflexivity)
  end.
  split; [exact Hdecode|]. exact (decode_returns_well_formed _ _ _ _ Hdecode).
Defined.

End DecodingProperties.
